(** * Screen-space clustering of map points: a shallow embedding

    The development follows [src/app/components/MapChart.tsx] (and its
    sibling copy [src/unnamed/part_001]): the [UnionFind] helper class, the
    pairwise union pass over projected points, the grouping by root and the
    assembly of the entities handed to the rendering layers. *)

From Stdlib Require Import ZArith NArith List String Ascii Lia Bool.
From Stdlib Require Import DecimalString Floats.SpecFloat.
From stdpp Require Import base tactics option list relations strings.

Open Scope nat_scope.

(** ** Results of the imperative code

    The recursive [find] of the source has no termination argument of its own,
    so the embedding runs it on fuel.  [OutOfFuel] stands for a recursion that
    does not come back; [OutOfBounds] for an access outside the [parent] array,
    where JavaScript would read [undefined] and leave the declared type
    [number[]]. *)
Inductive result (A : Type) : Type :=
| Done (a : A)
| OutOfFuel
| OutOfBounds.
Arguments Done {A} a.
Arguments OutOfFuel {A}.
Arguments OutOfBounds {A}.

#[global] Instance result_ret : MRet result := fun A a => Done a.

#[global] Instance result_bind : MBind result := fun A B k m =>
  match m with
  | Done a => k a
  | OutOfFuel => OutOfFuel
  | OutOfBounds => OutOfBounds
  end.

(** ** The [UnionFind] helper class (MapChart.tsx, lines 138-162) *)
Module UnionFind.

(** [constructor(n)]: [parent[i] = i] for [i] in [0, n). *)
Definition new (n : nat) : list nat := seq 0 n.

(** [find(i)]: the state is the [parent] array, threaded explicitly; the
    result is the array after path compression and the returned root. *)
Fixpoint find_fuel (fuel : nat) (parent : list nat) (i : nat)
  : result (list nat * nat) :=
  match fuel with
  | O => OutOfFuel
  | S fuel' =>
      match parent !! i with
      | None => OutOfBounds
      | Some pi =>
          if Nat.eqb pi i then Done (parent, pi)
          else
            '(parent', r) ← find_fuel fuel' parent pi;
            Done (<[i := r]> parent', r)
      end
  end.

(** One recursive call per node of the path to the root: the length of the
    array is always enough fuel (see [pathTo_length] and [find_path]). *)
Definition find (parent : list nat) (i : nat) : result (list nat * nat) :=
  find_fuel (length parent) parent i.

(** [union(i, j)]. *)
Definition union (parent : list nat) (i j : nat) : result (list nat) :=
  '(parent1, rootI) ← find parent i;
  '(parent2, rootJ) ← find parent1 j;
  if Nat.eqb rootI rootJ then Done parent2
  else Done (<[rootJ := rootI]> parent2).

(** *** The forest encoded by a parent array *)

(** [pathTo p i l r]: following parent links from [i] visits the non-root
    nodes [l] in order and ends in the root [r]. *)
Inductive pathTo (p : list nat) : nat -> list nat -> nat -> Prop :=
| path_root r : p !! r = Some r -> pathTo p r [] r
| path_step i j l r :
    p !! i = Some j -> j <> i -> pathTo p j l r -> pathTo p i (i :: l) r.

Definition rootOf (p : list nat) (i r : nat) : Prop := exists l, pathTo p i l r.

(** The invariant of the class: every index reaches a self-parent node. *)
Definition forest (p : list nat) : Prop :=
  forall i, i < length p -> exists r, rootOf p i r.

Definition sameSet (p : list nat) (i j : nat) : Prop :=
  exists r, rootOf p i r /\ rootOf p j r.

(** The root that [find(i)] returns, as a function of the index. *)
Definition rootFn (p : list nat) (i : nat) : nat :=
  match find p i with
  | Done (_, r) => r
  | _ => i
  end.

(** The array after compressing the path [l] onto the root [r]. *)
Definition compress (p : list nat) (l : list nat) (r : nat) : list nat :=
  foldr (fun x acc => <[x := r]> acc) p l.

End UnionFind.

(** Loops with a body that may fail: [for (const a of l) s = body(a, s)]. *)
Fixpoint foldM {A S : Type} (body : A -> S -> result S) (l : list A) (s : S)
  : result S :=
  match l with
  | [] => Done s
  | a :: l' => s' ← body a s; foldM body l' s'
  end.

Fixpoint mapM {A B : Type} (f : A -> result B) (l : list A) : result (list B) :=
  match l with
  | [] => Done []
  | a :: l' => b ← f a; bs ← mapM f l'; Done (b :: bs)
  end.

(** Stable insertion sort on a numeric key: the order in which a JavaScript
    object enumerates its integer-like property names. *)
Fixpoint insertByKey {A : Type} (key : A -> N) (a : A) (l : list A) : list A :=
  match l with
  | [] => [a]
  | b :: l' => if (key a <? key b)%N then a :: b :: l'
               else b :: insertByKey key a l'
  end.

Definition sortByKey {A : Type} (key : A -> N) (l : list A) : list A :=
  foldr (insertByKey key) [] (reverse l).

(** ** JavaScript numbers: IEEE 754 binary64, no NaN payload *)
Module Number.
Definition prec : Z := 53.
Definition emax : Z := 1024.
Definition number : Type := spec_float.
Definition NaN : number := S754_nan.
Definition zero : number := S754_zero false.
Definition add : number -> number -> number := SFadd prec emax.
Definition sub : number -> number -> number := SFsub prec emax.
Definition mul : number -> number -> number := SFmul prec emax.
Definition div : number -> number -> number := SFdiv prec emax.
Definition sqrt : number -> number := SFsqrt prec emax.
Definition leb : number -> number -> bool := SFleb.
Definition ltb : number -> number -> bool := SFltb.
Definition isNaN (x : number) : bool :=
  match x with S754_nan => true | _ => false end.
(** Neither NaN nor an infinity. *)
Definition isFinite (x : number) : bool :=
  match x with S754_zero _ | S754_finite _ _ _ => true | _ => false end.
(** Zero, positive or NaN: what a square root can be. *)
Definition nonneg (x : number) : Prop :=
  match x with
  | S754_infinity true | S754_finite true _ _ => False
  | _ => True
  end.
(** An array length or a loop index read as a number. *)
Definition ofNat (n : nat) : number :=
  binary_normalize prec emax (Z.of_nat n) 0 false.
End Number.
Import Number.

(** ** Plain objects used as dictionaries

    [statusCounts] is an object literal [{}] indexed by arbitrary status
    strings.  Its own properties are kept in creation order; a read that finds
    no own property falls through to [Object.prototype]; [Object.keys] lists
    array-index names first, in ascending numeric order, then the other names
    in creation order. *)
Module JSObject.

(** What a slot of [statusCounts] can hold: a count, or the text that
    [+ 1] makes out of an inherited function or object. *)
Inductive value : Type :=
| VNum (n : nat)
| VStr (s : string).

Definition t : Type := list (string * value).

Fixpoint getOwn (o : t) (k : string) : option value :=
  match o with
  | [] => None
  | (k', v) :: o' => if String.eqb k' k then Some v else getOwn o' k
  end.

Fixpoint setOwn (o : t) (k : string) (v : value) : t :=
  match o with
  | [] => [(k, v)]
  | (k', v') :: o' => if String.eqb k' k then (k', v) :: o'
                      else (k', v') :: setOwn o' k v
  end.

Definition nativeFunction (fname : string) : string :=
  ("function " ++ fname ++ "() { [native code] }")%string.

(** The properties every object literal inherits, each with the string that
    string concatenation makes of it. *)
Definition objectPrototype : list (string * string) :=
  [ ("constructor", nativeFunction "Object");
    ("__defineGetter__", nativeFunction "__defineGetter__");
    ("__defineSetter__", nativeFunction "__defineSetter__");
    ("hasOwnProperty", nativeFunction "hasOwnProperty");
    ("__lookupGetter__", nativeFunction "__lookupGetter__");
    ("__lookupSetter__", nativeFunction "__lookupSetter__");
    ("isPrototypeOf", nativeFunction "isPrototypeOf");
    ("propertyIsEnumerable", nativeFunction "propertyIsEnumerable");
    ("toString", nativeFunction "toString");
    ("valueOf", nativeFunction "valueOf");
    ("__proto__", "[object Object]");
    ("toLocaleString", nativeFunction "toLocaleString") ]%string.

Fixpoint assoc (l : list (string * string)) (k : string) : option string :=
  match l with
  | [] => None
  | (k', v) :: l' => if String.eqb k' k then Some v else assoc l' k
  end.

Definition inherited (k : string) : option string := assoc objectPrototype k.

(** [(v || 0) + 1] for a slot that holds [v]. *)
Definition plusOne (v : value) : value :=
  match v with
  | VNum n => VNum (n + 1)
  | VStr s => if String.eqb s EmptyString then VNum 1 else VStr (s ++ "1")
  end.

(** [o[k] = (o[k] || 0) + 1].  Assigning a string to [__proto__] runs the
    inherited setter, which ignores it. *)
Definition increment (o : t) (k : string) : t :=
  match getOwn o k with
  | Some v => setOwn o k (plusOne v)
  | None =>
      match inherited k with
      | Some text =>
          if String.eqb k "__proto__" then o
          else setOwn o k (VStr (text ++ "1"))
      | None => setOwn o k (VNum 1)
      end
  end.

Definition digit (c : ascii) : option N :=
  let n := N_of_ascii c in
  if ((48 <=? n) && (n <=? 57))%N then Some (n - 48)%N else None.

Fixpoint digits (s : string) (acc : N) : option N :=
  match s with
  | EmptyString => Some acc
  | String c s' => d ← digit c; digits s' (10 * acc + d)%N
  end.

(** A property name is an array index when it is the canonical decimal
    text of an integer below [2^32 - 1]. *)
Definition arrayIndex (s : string) : option N :=
  match s with
  | EmptyString => None
  | String c s' =>
      if (Ascii.eqb c "0" && negb (String.eqb s' EmptyString))%bool then None
      else v ← digits s 0; if (v <? 4294967295)%N then Some v else None
  end.

Definition isIndex (kv : string * value) : bool :=
  match arrayIndex (fst kv) with Some _ => true | None => false end.

Definition indexKey (kv : string * value) : N :=
  match arrayIndex (fst kv) with Some v => v | None => 0%N end.

(** [Object.keys(o)]. *)
Definition keys (o : list (string * value)) : list string :=
  map fst (sortByKey indexKey (filter (fun kv => isIndex kv = true) o))
  ++ map fst (filter (fun kv => isIndex kv = false) o).

(** [o[k] > maxCount].  The only texts a slot can hold are those [increment]
    makes, an inherited function printed and followed by ones; none reads as
    a number, so the comparison is with NaN and fails. *)
Definition gt (v : value) (maxCount : nat) : bool :=
  match v with
  | VNum n => maxCount <? n
  | VStr _ => false
  end.

End JSObject.

(** ** The data of the map *)

Record Location : Type := mkLocation { latitude : number; longitude : number }.

Record Metadata : Type := mkMetadata { status : string }.

(** An element of [rawData]. *)
Record RawPoint : Type := mkRawPoint {
  location : Location;
  name : string;
  metadata : Metadata
}.

(** [{ ...point, index, screenX: x, screenY: y }]. *)
Record ProjectedPoint : Type := mkProjectedPoint {
  point : RawPoint;
  index : nat;
  screenX : number;
  screenY : number
}.

Record ViewState : Type := mkViewState {
  viewLongitude : number;
  viewLatitude : number;
  zoom : number;
  pitch : number;
  bearing : number
}.

(** The argument of [new WebMercatorViewport(...)]. *)
Record ViewportProps : Type := mkViewportProps {
  viewState : ViewState;
  width : number;
  height : number
}.

(** The [groups] object: keys are roots, hence array indices, listed here in
    creation order. *)
Definition Groups : Type := list (nat * list ProjectedPoint).

(** [if (!groups[root]) groups[root] = []; groups[root].push(p)]. *)
Fixpoint groupsPush (groups : Groups) (root : nat) (p : ProjectedPoint) : Groups :=
  match groups with
  | [] => [(root, [p])]
  | (k, g) :: groups' =>
      if Nat.eqb k root then (k, g ++ [p]) :: groups'
      else (k, g) :: groupsPush groups' root p
  end.

(** [Object.values(groups)]: ascending root. *)
Definition groupsValues (groups : Groups) : list (list ProjectedPoint) :=
  map snd (sortByKey (fun kg => N.of_nat (fst kg)) groups).

Definition getMarkerColor (s : string) : list nat :=
  if String.eqb s "healthy" then [0; 192; 0]
  else if String.eqb s "predicted failure" then [255; 255; 128]
  else if String.eqb s "down for repairs" then [235; 52; 52]
  else [40; 171; 160].

Definition getStatusColorString (s : string) : string :=
  if String.eqb s "healthy" then "green"
  else if String.eqb s "predicted failure" then "yellow"
  else if String.eqb s "down for repairs" then "red"
  else "teal".

(** The text of a loop index, as string concatenation prints it. *)
Definition decimal (n : nat) : string := NilEmpty.string_of_uint (Nat.to_uint n).

(** [l.join("-")]. *)
Fixpoint join (l : list string) : string :=
  match l with
  | [] => EmptyString
  | [s] => s
  | s :: l' => s ++ "-" ++ join l'
  end.

(** ** The clustering pass of MapChart.tsx (lines 197-283) *)
Module MapChart.

Record ClusterMetadata : Type := mkClusterMetadata {
  statusCounts : JSObject.t;
  count : nat;
  dominantStatus : string
}.

Record ClusterEntity : Type := mkClusterEntity {
  id : string;
  clusterLocation : Location;
  clusterMetadata : ClusterMetadata
}.

(** An element of [clusteredData]; [isCluster] tells the variants apart. *)
Inductive Entity : Type :=
| Single (p : ProjectedPoint)
| Cluster (c : ClusterEntity).

Definition isCluster (e : Entity) : bool :=
  match e with Single _ => false | Cluster _ => true end.

Definition distance (pi pj : ProjectedPoint) : number :=
  let dx := sub (screenX pi) (screenX pj) in
  let dy := sub (screenY pi) (screenY pj) in
  sqrt (add (mul dx dx) (mul dy dy)).

(** The body of the inner loop: [if (distance <= clusterRadius) uf.union(i, j)]. *)
Definition unionStep (clusterRadius : number)
  (projectedPoints : list ProjectedPoint) (i j : nat) (uf : list nat)
  : result (list nat) :=
  match projectedPoints !! i, projectedPoints !! j with
  | Some pi, Some pj =>
      if leb (distance pi pj) clusterRadius then UnionFind.union uf i j
      else Done uf
  | _, _ => OutOfBounds
  end.

Definition unionPass (clusterRadius : number)
  (projectedPoints : list ProjectedPoint) : result (list nat) :=
  let n := length projectedPoints in
  foldM (fun i uf =>
           foldM (unionStep clusterRadius projectedPoints i)
                 (seq (i + 1) (n - (i + 1))) uf)
        (seq 0 n) (UnionFind.new n).

(** "Group points by their root." *)
Definition groupStep (projectedPoints : list ProjectedPoint) (i : nat)
  (st : list nat * Groups) : result (list nat * Groups) :=
  let '(uf, groups) := st in
  '(uf', root) ← UnionFind.find uf i;
  match projectedPoints !! i with
  | Some p => Done (uf', groupsPush groups root p)
  | None => OutOfBounds
  end.

Definition groupPass (projectedPoints : list ProjectedPoint) (uf : list nat)
  : result (list nat * Groups) :=
  foldM (groupStep projectedPoints) (seq 0 (length projectedPoints)) (uf, []).

Definition tally (group : list ProjectedPoint) : JSObject.t :=
  foldl (fun o p => JSObject.increment o (status (metadata (point p)))) [] group.

Definition dominantStep (o : JSObject.t) (st : string * nat) (s : string)
  : string * nat :=
  match JSObject.getOwn o s with
  | Some v => if JSObject.gt v (snd st)
              then (s, match v with JSObject.VNum n => n | _ => snd st end)
              else st
  | None => st
  end.

Definition dominant (first : string) (o : JSObject.t) : string :=
  fst (foldl (dominantStep o) (first, 0) (JSObject.keys o)).

Definition mean (f : ProjectedPoint -> number) (group : list ProjectedPoint)
  : number :=
  div (foldl (fun sum p => add sum (f p)) zero group) (ofNat (length group)).

(** The body of [Object.values(groups).forEach]. *)
Definition buildEntity (group : list ProjectedPoint) : result Entity :=
  match group with
  | [] => OutOfBounds
  | [p] => Done (Single p)
  | p0 :: _ =>
      let avgLat := mean (fun p => latitude (location (point p))) group in
      let avgLon := mean (fun p => longitude (location (point p))) group in
      let statusCounts := tally group in
      Done (Cluster {|
        id := "cluster-" ++ join (map (fun p => decimal (index p)) group);
        clusterLocation := {| latitude := avgLat; longitude := avgLon |};
        clusterMetadata := {|
          statusCounts := statusCounts;
          count := length group;
          dominantStatus := dominant (status (metadata (point p0))) statusCounts
        |}
      |})
  end.

Section Engine.

(** [viewport.project([longitude, latitude])] of deck.gl, for the viewport
    built from the given properties: an external collaborator. *)
Variable project : ViewportProps -> number * number -> number * number.

Definition projectedPoints (props : ViewportProps) (rawData : list RawPoint)
  : list ProjectedPoint :=
  imap (fun index point =>
          let '(x, y) := project props (longitude (location point),
                                        latitude (location point)) in
          {| point := point; index := index; screenX := x; screenY := y |})
       rawData.

(** The pass up to the grouping by root. *)
Definition groupsWith (clusterRadius : number) (props : ViewportProps)
  (rawData : list RawPoint) : result (list (list ProjectedPoint)) :=
  let pts := projectedPoints props rawData in
  if Nat.eqb (length pts) 0 then Done []
  else
    uf ← unionPass clusterRadius pts;
    '(_, groups) ← groupPass pts uf;
    Done (groupsValues groups).

(** The memoised computation, with the radius as a parameter. *)
Definition clustersWith (clusterRadius : number) (props : ViewportProps)
  (rawData : list RawPoint) : result (list Entity) :=
  groups ← groupsWith clusterRadius props rawData;
  mapM buildEntity groups.

(** [const clusterRadius = 50]. *)
Definition clusterRadius : number := ofNat 50.

Definition clusters (props : ViewportProps) (rawData : list RawPoint)
  : result (list Entity) :=
  clustersWith clusterRadius props rawData.

End Engine.

(** *** The proximity graph on projected points *)

(** Two indices are near when the distance of their points, computed as
    the pass computes it, is at most the radius. *)
Definition near (clusterRadius : number) (pts : list ProjectedPoint)
  (i j : nat) : Prop :=
  exists pi pj, pts !! i = Some pi /\ pts !! j = Some pj /\
                leb (distance pi pj) clusterRadius = true.

(** Connected by a chain of near points. *)
Definition connected (clusterRadius : number) (pts : list ProjectedPoint)
  : relation nat :=
  rtc (near clusterRadius pts).

(** Membership of two input indices in one group of the output. *)
Definition sameGroup (groups : list (list ProjectedPoint)) (i j : nat) : Prop :=
  exists g, g ∈ groups /\ i ∈ index <$> g /\ j ∈ index <$> g.

(** *** Statuses *)

(** A status text that is neither an array index nor the name of a
    property inherited from [Object.prototype]. *)
Definition plainStatus (s : string) : bool :=
  match JSObject.arrayIndex s, JSObject.inherited s with
  | None, None => true
  | _, _ => false
  end.

Definition statuses (group : list ProjectedPoint) : list string :=
  (fun p => status (metadata (point p))) <$> group.

(** How many members carry the status [s]. *)
Definition occurrences (s : string) (l : list string) : nat :=
  length (filter (fun s' => s' = s) l).

(** The status of the first member, in iteration order, whose status has
    the highest count. *)
Definition firstTied (l : list string) : option string :=
  List.find (fun s => forallb (fun s' => occurrences s' l <=? occurrences s l) l) l.

(** [statusCounts] after the statuses [l] have been counted. *)
Definition tallyStatuses (l : list string) : JSObject.t :=
  foldl JSObject.increment [] l.

(** The pairs the two nested loops visit, in order. *)
Definition pairs (n : nat) : list (nat * nat) :=
  i ← seq 0 n; pair i <$> seq (i + 1) (n - (i + 1)).

(** The near pairs among the visited pairs [es]. *)
Definition edge (clusterRadius : number) (pts : list ProjectedPoint)
  (es : list (nat * nat)) (a b : nat) : Prop :=
  (a, b) ∈ es /\ near clusterRadius pts a b.

(** [groups[k]]. *)
Fixpoint groupsGet (groups : Groups) (k : nat) : option (list ProjectedPoint) :=
  match groups with
  | [] => None
  | (k', g) :: groups' => if Nat.eqb k' k then Some g else groupsGet groups' k
  end.

(** The [groups] object after pushing the points [rps.*2] under the roots
    [rps.*1], in order. *)
Definition collect (rps : list (nat * ProjectedPoint)) : Groups :=
  foldl (fun gs rp => groupsPush gs rp.1 rp.2) [] rps.

(** Every point paired with the root of its position. *)
Definition tagged (root : nat -> nat) (pts : list ProjectedPoint)
  : list (nat * ProjectedPoint) :=
  imap (fun i p => (root i, p)) pts.

(** The points pushed under the root [k], in order. *)
Definition members (k : nat) (rps : list (nat * ProjectedPoint))
  : list ProjectedPoint :=
  (filter (fun rp => rp.1 = k) rps).*2.

End MapChart.


(** ** The copy of the pass in src/unnamed/part_001 (lines 59-84, 128-213)

    The file declares its own [UnionFind] class and its own [clusters]; both
    are embedded again here from that file.  Its cluster entities carry
    [metadata: { status: dominantStatus, count }] and no [statusCounts]. *)
Module Part001.

Module UnionFind.

Definition new (n : nat) : list nat := seq 0 n.

Fixpoint find_fuel (fuel : nat) (parent : list nat) (i : nat)
  : result (list nat * nat) :=
  match fuel with
  | O => OutOfFuel
  | S fuel' =>
      match parent !! i with
      | None => OutOfBounds
      | Some pi =>
          if Nat.eqb pi i then Done (parent, pi)
          else
            '(parent', r) ← find_fuel fuel' parent pi;
            Done (<[i := r]> parent', r)
      end
  end.

Definition find (parent : list nat) (i : nat) : result (list nat * nat) :=
  find_fuel (length parent) parent i.

Definition union (parent : list nat) (i j : nat) : result (list nat) :=
  '(parent1, rootI) ← find parent i;
  '(parent2, rootJ) ← find parent1 j;
  if Nat.eqb rootI rootJ then Done parent2
  else Done (<[rootJ := rootI]> parent2).

End UnionFind.

Definition pointStatus (p : ProjectedPoint) : string :=
  status (metadata (point p)).

Record ClusterMetadata : Type := mkClusterMetadata {
  status : string;
  count : nat
}.

Record ClusterEntity : Type := mkClusterEntity {
  id : string;
  clusterLocation : Location;
  clusterMetadata : ClusterMetadata
}.

Inductive Entity : Type :=
| Single (p : ProjectedPoint)
| Cluster (c : ClusterEntity).

Definition distance (pi pj : ProjectedPoint) : number :=
  let dx := sub (screenX pi) (screenX pj) in
  let dy := sub (screenY pi) (screenY pj) in
  sqrt (add (mul dx dx) (mul dy dy)).

Definition unionStep (clusterRadius : number)
  (projectedPoints : list ProjectedPoint) (i j : nat) (uf : list nat)
  : result (list nat) :=
  match projectedPoints !! i, projectedPoints !! j with
  | Some pi, Some pj =>
      if leb (distance pi pj) clusterRadius then UnionFind.union uf i j
      else Done uf
  | _, _ => OutOfBounds
  end.

Definition unionPass (clusterRadius : number)
  (projectedPoints : list ProjectedPoint) : result (list nat) :=
  let n := length projectedPoints in
  foldM (fun i uf =>
           foldM (unionStep clusterRadius projectedPoints i)
                 (seq (i + 1) (n - (i + 1))) uf)
        (seq 0 n) (UnionFind.new n).

Definition groupStep (projectedPoints : list ProjectedPoint) (i : nat)
  (st : list nat * Groups) : result (list nat * Groups) :=
  let '(uf, groups) := st in
  '(uf', root) ← UnionFind.find uf i;
  match projectedPoints !! i with
  | Some p => Done (uf', groupsPush groups root p)
  | None => OutOfBounds
  end.

Definition groupPass (projectedPoints : list ProjectedPoint) (uf : list nat)
  : result (list nat * Groups) :=
  foldM (groupStep projectedPoints) (seq 0 (length projectedPoints)) (uf, []).

Definition tally (group : list ProjectedPoint) : JSObject.t :=
  foldl (fun o p => JSObject.increment o (pointStatus p)) [] group.

Definition dominantStep (o : JSObject.t) (st : string * nat) (s : string)
  : string * nat :=
  match JSObject.getOwn o s with
  | Some v => if JSObject.gt v (snd st)
              then (s, match v with JSObject.VNum n => n | _ => snd st end)
              else st
  | None => st
  end.

Definition dominant (first : string) (o : JSObject.t) : string :=
  fst (foldl (dominantStep o) (first, 0) (JSObject.keys o)).

Definition mean (f : ProjectedPoint -> number) (group : list ProjectedPoint)
  : number :=
  div (foldl (fun sum p => add sum (f p)) zero group) (ofNat (length group)).

Definition buildEntity (group : list ProjectedPoint) : result Entity :=
  match group with
  | [] => OutOfBounds
  | [p] => Done (Single p)
  | p0 :: _ =>
      let count := length group in
      let avgLat := mean (fun p => latitude (location (point p))) group in
      let avgLon := mean (fun p => longitude (location (point p))) group in
      let statusCounts := tally group in
      let dominantStatus := dominant (pointStatus p0) statusCounts in
      Done (Cluster {|
        id := "cluster-" ++ join (map (fun p => decimal (index p)) group);
        clusterLocation := {| latitude := avgLat; longitude := avgLon |};
        clusterMetadata := {| status := dominantStatus; count := count |}
      |})
  end.

Section Engine.

Variable project : ViewportProps -> number * number -> number * number.

Definition projectedPoints (props : ViewportProps) (rawData : list RawPoint)
  : list ProjectedPoint :=
  imap (fun index point =>
          let '(x, y) := project props (longitude (location point),
                                        latitude (location point)) in
          {| point := point; index := index; screenX := x; screenY := y |})
       rawData.

Definition clusterRadius : number := ofNat 50.

Definition groups (props : ViewportProps) (rawData : list RawPoint)
  : result (list (list ProjectedPoint)) :=
  let pts := projectedPoints props rawData in
  if Nat.eqb (length pts) 0 then Done []
  else
    uf ← unionPass clusterRadius pts;
    '(_, groups) ← groupPass pts uf;
    Done (groupsValues groups).

Definition clusters (props : ViewportProps) (rawData : list RawPoint)
  : result (list Entity) :=
  gs ← groups props rawData;
  mapM buildEntity gs.

End Engine.

End Part001.

(** What the two copies are compared on: the variant, the point of a Single,
    and the [id], centroid, member count and dominant status of a Cluster. *)
Definition agree (e1 : MapChart.Entity) (e2 : Part001.Entity) : Prop :=
  match e1, e2 with
  | MapChart.Single p, Part001.Single q => p = q
  | MapChart.Cluster c, Part001.Cluster d =>
      MapChart.id c = Part001.id d
      /\ MapChart.clusterLocation c = Part001.clusterLocation d
      /\ MapChart.count (MapChart.clusterMetadata c)
         = Part001.count (Part001.clusterMetadata d)
      /\ MapChart.dominantStatus (MapChart.clusterMetadata c)
         = Part001.status (Part001.clusterMetadata d)
  | _, _ => False
  end.

(** ** A projector and inputs for the examples *)

(** Screen coordinates equal to the geographic ones: a flat map at one pixel
    per degree, standing for the external projector in concrete runs. *)
Definition flatProject (_ : ViewportProps) (lngLat : number * number)
  : number * number := lngLat.

Definition exampleProps : ViewportProps :=
  {| viewState := {| viewLongitude := zero; viewLatitude := zero;
                     zoom := ofNat 13; pitch := zero; bearing := zero |};
     width := ofNat 800; height := ofNat 600 |}.

(** A point at whole-degree coordinates. *)
Definition pointAt (lon lat : nat) (st : string) : RawPoint :=
  {| location := {| latitude := ofNat lat; longitude := ofNat lon |};
     name := "asset";
     metadata := {| status := st |} |}.

(** Two assets at the same place. *)
Definition twins (st1 st2 : string) : list RawPoint :=
  [pointAt 7 3 st1; pointAt 7 3 st2].

Definition minusOne : number := SFopp (ofNat 1).

(** A point whose longitude is not a number, between two ordinary ones. *)
Definition brokenData : list RawPoint :=
  [pointAt 0 0 "healthy";
   {| location := {| latitude := ofNat 0; longitude := NaN |};
      name := "broken"; metadata := {| status := "healthy" |} |};
   pointAt 10 0 "healthy"].

(** The projected points of four assets at one place: the cluster of the
    tie-break scenario, two healthy and two down for repairs, the first one
    down for repairs. *)
Definition tiedGroup : list ProjectedPoint :=
  imap (fun i st => {| point := pointAt 7 3 st; index := i;
                       screenX := ofNat 7; screenY := ofNat 3 |})
       ["down for repairs"; "healthy"; "healthy"; "down for repairs"].

(** Three points on a line, 50 pixels apart under [flatProject]. *)
Definition chainData : list RawPoint :=
  [pointAt 0 0 "healthy"; pointAt 100 0 "healthy"; pointAt 50 0 "healthy"].

(** The number of sets a parent array encodes: its self-parent entries. *)
Definition numberOfSets (parent : list nat) : nat :=
  length (filter (fun x => parent !! x = Some x) (seq 0 (length parent))).

(** ** Own properties of a plain object, for any kind of value *)
Module Obj.

Fixpoint get {V : Type} (o : list (string * V)) (k : string) : option V :=
  match o with
  | [] => None
  | (k', v) :: o' => if String.eqb k' k then Some v else get o' k
  end.

(** Creates the property at the end of the creation order, or overwrites it
    in place. *)
Fixpoint set {V : Type} (o : list (string * V)) (k : string) (v : V)
  : list (string * V) :=
  match o with
  | [] => [(k, v)]
  | (k', v') :: o' => if String.eqb k' k then (k', v) :: o'
                      else (k', v') :: set o' k v
  end.

Definition isIndex {V : Type} (kv : string * V) : bool :=
  match JSObject.arrayIndex (fst kv) with Some _ => true | None => false end.

Definition indexKey {V : Type} (kv : string * V) : N :=
  match JSObject.arrayIndex (fst kv) with Some v => v | None => 0%N end.

(** [Object.entries(o)]: array-index names first, ascending, then the other
    names in creation order. *)
Definition entries {V : Type} (o : list (string * V)) : list (string * V) :=
  sortByKey indexKey (filter (fun kv => isIndex kv = true) o)
  ++ filter (fun kv => isIndex kv = false) o.

(** [Object.keys(o)]. *)
Definition keys {V : Type} (o : list (string * V)) : list string :=
  map fst (entries o).

End Obj.

(** ** What MapChart.tsx does with the entities (lines 45-91, 285-364) *)
Module MapChartView.

(** [clusters.filter((d) => !d.isCluster)]. *)
Definition individualPoints (clusters : list MapChart.Entity)
  : list MapChart.Entity :=
  List.filter (fun d => negb (MapChart.isCluster d)) clusters.

(** [clusters.filter((d) => d.isCluster)]. *)
Definition clusterPoints (clusters : list MapChart.Entity)
  : list MapChart.Entity :=
  List.filter MapChart.isCluster clusters.

(** How many assets an entity stands for on the map: one marker, or the
    total printed in the middle of a donut. *)
Definition shown (e : MapChart.Entity) : nat :=
  match e with
  | MapChart.Single _ => 1
  | MapChart.Cluster c => MapChart.count (MapChart.clusterMetadata c)
  end.

(** The sum of the numeric slots of [statusCounts]. *)
Definition countTotal (o : JSObject.t) : nat :=
  foldr (fun kv acc => match snd kv with
                       | JSObject.VNum n => n + acc
                       | JSObject.VStr _ => acc
                       end) 0 o.

(** [Number(c)] for a slot of [colorCounts].  The only texts a slot can hold
    are those [increment] makes, an inherited function printed and followed
    by ones; none reads as a number. *)
Definition toNumber (v : JSObject.value) : number :=
  match v with
  | JSObject.VNum n => ofNat n
  | JSObject.VStr _ => NaN
  end.

(** [(count / total) * 100]. *)
Definition percentage (total : number) (v : JSObject.value) : number :=
  mul (div (toNumber v) total) (ofNat 100).

(** A [<circle>] of the donut.  [strokeDasharray] is kept as its two numbers,
    [dash] and [gap], before they are printed into the attribute text. *)
Record Circle : Type := mkCircle {
  key : string;
  stroke : string;
  dash : number;
  gap : number;
  strokeDashoffset : number
}.

(** The [reduce] of [ClusterDonut]: one circle per entry, its offset the sum
    of the percentages of the entries before it. *)
Definition ClusterDonut (colorCounts : JSObject.t) (total : number)
  : list Circle :=
  let arr := Obj.entries colorCounts in
  imap (fun i entry =>
          let pct := percentage total (snd entry) in
          let offset :=
            foldl (fun sum e => add sum (percentage total (snd e)))
                  zero (take i arr) in
          {| key := fst entry;
             stroke := getStatusColorString (fst entry);
             dash := pct;
             gap := sub (ofNat 100) pct;
             strokeDashoffset := SFopp offset |})
       arr.

(** [<ClusterDonut colorCounts={cluster.metadata.statusCounts}
    total={cluster.metadata.count} />]. *)
Definition donutOf (cluster : MapChart.ClusterEntity) : list Circle :=
  ClusterDonut (MapChart.statusCounts (MapChart.clusterMetadata cluster))
               (ofNat (MapChart.count (MapChart.clusterMetadata cluster))).

(** [Math.min(a, b)]. *)
Definition Math_min (a b : number) : number :=
  match SFcompare a b with
  | None => NaN
  | Some Lt => a
  | Some Gt => b
  | Some Eq =>
      match a, b with
      | S754_zero sa, S754_zero sb => S754_zero (sa || sb)
      | _, _ => a
      end
  end.

(** The click handler of a donut: zoom in by one, at most to 16, and centre
    on the cluster. *)
Definition onClusterClick (cluster : MapChart.ClusterEntity) (prev : ViewState)
  : ViewState :=
  {| viewLongitude := longitude (MapChart.clusterLocation cluster);
     viewLatitude := latitude (MapChart.clusterLocation cluster);
     zoom := Math_min (add (zoom prev) (ofNat 1)) (ofNat 16);
     pitch := pitch prev;
     bearing := bearing prev |}.

End MapChartView.

(** ** What part_001 does with the entities (lines 215-245) *)
Module Part001View.

Definition isCluster (e : Part001.Entity) : bool :=
  match e with Part001.Single _ => false | Part001.Cluster _ => true end.

(** The data of the text layer:
    [clusters.filter((d) => d.isCluster && d.metadata.count > 1)].  A Single
    carries the metadata of its point, which has no [count]. *)
Definition textLayerData (clusters : list Part001.Entity) : list Part001.Entity :=
  List.filter
    (fun d => match d with
              | Part001.Single _ => false
              | Part001.Cluster c =>
                  1 <? Part001.count (Part001.clusterMetadata c)
              end)
    clusters.

End Part001View.

(** ** [snakeToTitle] (MapChart.tsx lines 14-15, utils.ts lines 83-87)

    A string is its sequence of UTF-16 code units.  Without the [u] flag,
    [\w] is [[A-Za-z0-9_]] and [\b] lies before a word character that follows
    a non-word character or starts the string. *)
Module SnakeToTitle.

Definition isWord (c : N) : bool :=
  ((48 <=? c) && (c <=? 57) || (65 <=? c) && (c <=? 90)
   || (97 <=? c) && (c <=? 122) || (c =? 95))%N.

(** [char.toUpperCase()] for a one-character match of [\w]. *)
Definition toUpperCase (c : N) : N :=
  if ((97 <=? c) && (c <=? 122))%N then (c - 32)%N else c.

(** [.replace(/_/g, " ")]. *)
Definition replaceUnderscores (s : list N) : list N :=
  map (fun c => if (c =? 95)%N then 32%N else c) s.

(** [.replace(/\b\w/g, (char) => char.toUpperCase())]; [prevWord] tells
    whether the code unit before the current one is a word character. *)
Fixpoint capitalize (prevWord : bool) (s : list N) : list N :=
  match s with
  | [] => []
  | c :: s' =>
      (if isWord c && negb prevWord then toUpperCase c else c)
      :: capitalize (isWord c) s'
  end.

Definition snakeToTitle (str : list N) : list N :=
  capitalize false (replaceUnderscores str).

(** The code units of an ASCII text. *)
Definition codeUnits (s : string) : list N :=
  map N_of_ascii (list_ascii_of_string s).

End SnakeToTitle.

(** ** src/utils.ts and the [Series] type of src/lib/api/metrics/types.ts *)
Module Utils.

Inductive SeriesType : Type := category | value | time.

(** An element of [Series.values]: [number | string]. *)
Inductive SeriesValue : Type :=
| NumberValue (x : number)
| StringValue (s : string).

Record Series : Type := mkSeries {
  id : string;
  type : SeriesType;
  values : list SeriesValue
}.

(** [values.find((v) => v.id === id)?.values]; [None] is [undefined]. *)
Definition getValueById (series : list Series) (key : string)
  : option (list SeriesValue) :=
  values <$> List.find (fun v => String.eqb (id v) key) series.

(** The object [getValuesMapById] returns: its own properties, and its
    prototype when an assignment to [__proto__] has replaced it ([None]
    stands for [Object.prototype]). *)
Record ValuesMap : Type := mkValuesMap {
  own : list (string * option (list SeriesValue));
  proto : option (list SeriesValue)
}.

(** [valuesMap[key] = v].  The name [__proto__] is an accessor inherited from
    [Object.prototype]: assigning an array to it replaces the prototype,
    assigning [undefined] does nothing.  Every other name becomes an own
    property; the arrays of a series are ordinary arrays, so one of them as
    prototype does not stand in the way of later assignments. *)
Definition assign (m : ValuesMap) (key : string) (v : option (list SeriesValue))
  : ValuesMap :=
  if String.eqb key "__proto__" then
    match v with
    | Some arr => {| own := own m; proto := Some arr |}
    | None => m
    end
  else {| own := Obj.set (own m) key v; proto := proto m |}.

(** [ids] is optional: [None] is a missing argument. *)
Definition getValuesMapById (series : list Series) (ids : option (list string))
  : ValuesMap :=
  let valuesMap := {| own := []; proto := None |} in
  match ids with
  | None => valuesMap
  | Some ids =>
      foldl (fun m key => assign m key (getValueById series key)) valuesMap ids
  end.

(** A cell of a table: a JSON scalar, or [undefined] for a hole. *)
Inductive Any : Type :=
| Undefined
| Null
| Boolean (b : bool)
| Num (x : number)
| Str (s : string).

(** [Record<string, any[]>]: the own properties in creation order; a column
    that is [undefined] or [null] at run time is [None]. *)
Definition DataMap : Type := list (string * option (list Any)).

(** [dataMap[key]] for a key taken from [Object.keys(dataMap)]. *)
Definition column (dataMap : DataMap) (key : string) : option (list Any) :=
  match Obj.get dataMap key with
  | Some col => col
  | None => None
  end.

(** [dataMap[key]?.length || 0]. *)
Definition columnLength (col : option (list Any)) : nat :=
  match col with
  | Some arr => length arr
  | None => 0
  end.

(** [dataMap[key]?.[index] ?? null]. *)
Definition cell (col : option (list Any)) (index : nat) : Any :=
  match col with
  | Some arr =>
      match arr !! index with
      | Some Undefined | Some Null | None => Null
      | Some v => v
      end
  | None => Null
  end.

(** [Math.max(...lengths)] for the lengths of at least one column. *)
Definition Math_max (lengths : list nat) : nat := foldr Nat.max 0 lengths.

(** A record under construction: its own properties, and whether its
    prototype has been set to [null]. *)
Record Row : Type := mkRow {
  fields : list (string * Any);
  nullProto : bool
}.

(** [record[key] = v] on a record that started as [{}].  While the record
    inherits from [Object.prototype] the name [__proto__] is an accessor:
    [null] removes the prototype, a scalar is ignored.  Every other
    assignment makes or overwrites an own property. *)
Definition put (record : Row) (key : string) (v : Any) : Row :=
  if String.eqb key "__proto__" && negb (nullProto record) then
    match v with
    | Null => {| fields := fields record; nullProto := true |}
    | _ => record
    end
  else {| fields := Obj.set (fields record) key v;
          nullProto := nullProto record |}.

Definition convertToRecordsArray (dataMap : DataMap) : list Row :=
  let keys := Obj.keys dataMap in
  if Nat.eqb (length keys) 0 then []
  else
    let length :=
      Math_max (map (fun key => columnLength (column dataMap key)) keys) in
    map (fun index =>
           foldl (fun record key =>
                    put record key (cell (column dataMap key) index))
                 {| fields := []; nullProto := false |} keys)
        (seq 0 length).

End Utils.

(** ** The pass when the projector throws

    [viewport.project] is a call into the map library (MapChart.tsx lines
    209-212).  A call returns or throws, and nothing in the [useMemo]
    catches: an exception of the projector at one point ends the [map] over
    [rawData] and with it the whole computation. *)
Module Throwing.

Inductive completion (A : Type) : Type :=
| Return (a : A)
| Throw (error : string).
Arguments Return {A} a.
Arguments Throw {A} error.

Definition Projector : Type :=
  ViewportProps -> number * number -> completion (number * number).

Section Engine.

Variable project : Projector.

(** [rawData.map((point, index) => ...)], from position [index] on. *)
Fixpoint projectFrom (props : ViewportProps) (index : nat)
  (rawData : list RawPoint) : completion (list ProjectedPoint) :=
  match rawData with
  | [] => Return []
  | point :: rest =>
      match project props (longitude (location point),
                           latitude (location point)) with
      | Throw error => Throw error
      | Return (x, y) =>
          match projectFrom props (S index) rest with
          | Throw error => Throw error
          | Return pts =>
              Return ({| point := point; index := index;
                         screenX := x; screenY := y |} :: pts)
          end
      end
  end.

Definition projectedPoints (props : ViewportProps) (rawData : list RawPoint)
  : completion (list ProjectedPoint) :=
  projectFrom props 0 rawData.

(** The pass from [const n = projectedPoints.length] to the grouping by
    root. *)
Definition groupsOf (clusterRadius : number) (pts : list ProjectedPoint)
  : result (list (list ProjectedPoint)) :=
  if Nat.eqb (length pts) 0 then Done []
  else
    uf ← MapChart.unionPass clusterRadius pts;
    '(_, groups) ← MapChart.groupPass pts uf;
    Done (groupsValues groups).

Definition groupsWith (clusterRadius : number) (props : ViewportProps)
  (rawData : list RawPoint) : completion (result (list (list ProjectedPoint))) :=
  match projectedPoints props rawData with
  | Throw error => Throw error
  | Return pts => Return (groupsOf clusterRadius pts)
  end.

Definition clustersWith (clusterRadius : number) (props : ViewportProps)
  (rawData : list RawPoint) : completion (result (list MapChart.Entity)) :=
  match projectedPoints props rawData with
  | Throw error => Throw error
  | Return pts =>
      Return (groups ← groupsOf clusterRadius pts;
              mapM MapChart.buildEntity groups)
  end.

Definition clusters (props : ViewportProps) (rawData : list RawPoint)
  : completion (result (list MapChart.Entity)) :=
  clustersWith MapChart.clusterRadius props rawData.

End Engine.

(** A projector that always returns. *)
Definition returning
  (project : ViewportProps -> number * number -> number * number) : Projector :=
  fun props lngLat => Return (project props lngLat).

(** The function a projector computes where it returns. *)
Definition totalize (project : Projector)
  : ViewportProps -> number * number -> number * number :=
  fun props lngLat =>
    match project props lngLat with
    | Return xy => xy
    | Throw _ => (NaN, NaN)
    end.

End Throwing.

(** A projector that checks its input, as the projection of a map library
    does: it throws on a longitude or latitude that is not finite, and is
    [flatProject] otherwise. *)
Definition strictProject : Throwing.Projector :=
  fun props lngLat =>
    if isFinite (fst lngLat) && isFinite (snd lngLat)
    then Throwing.Return (flatProject props lngLat)
    else Throwing.Throw "invalid coordinates".

Import UnionFind.
Import MapChart.

(** * Facts about binary64 arithmetic *)
Section SpecFloatFacts.
Variables prec emax : Z.

Lemma SFleb_trans a b c :
  SFleb a b = true -> SFleb b c = true -> SFleb a c = true.
Proof.
  unfold SFleb, SFcompare.
  destruct a as [sa|sa| |sa ma ea], b as [sb|sb| |sb mb eb],
           c as [sc|sc| |sc mc ec];
    try destruct sa; try destruct sb; try destruct sc; simpl; try done;
    rewrite ?Pos.compare_cont_spec; simpl;
    repeat match goal with
    | |- context [Z.compare ?x ?y] => destruct (Z.compare_spec x y)
    | |- context [Pos.compare ?x ?y] => destruct (Pos.compare_spec x y)
    end; simpl; try done; try lia.
Qed.

Lemma binary_round_aux_sign s m e l :
  match binary_round_aux prec emax s m e l with
  | S754_zero s' | S754_infinity s' | S754_finite s' _ _ => s' = s
  | S754_nan => True
  end.
Proof.
  unfold binary_round_aux.
  destruct (shr_fexp prec emax m e l) as [mrs' e'].
  destruct (shr_fexp prec emax _ e' loc_Exact) as [mrs'' e''].
  destruct (shr_m mrs''); [done| |done].
  by destruct (Z.leb e'' (emax - prec)).
Qed.

Lemma SFsqrt_nonneg x : nonneg (SFsqrt prec emax x).
Proof.
  destruct x as [s|[|]| |[|] m e]; simpl; try done.
  destruct (SFsqrt_core_binary prec emax (Z.pos m) e) as [[mz ez] lz].
  pose proof (binary_round_aux_sign false mz ez lz) as H.
  destruct (binary_round_aux prec emax false mz ez lz); simpl; try done; by subst.
Qed.

Lemma SFleb_nonneg_negative x r :
  nonneg x -> SFltb r (S754_zero false) = true -> SFleb x r = false.
Proof.
  unfold SFltb, SFleb, SFcompare.
  destruct x as [sx|[|]| |[|] mx ex], r as [sr|[|]| |[|] mr er]; simpl; try done.
Qed.

Lemma binary_round_aux_abs s m e l :
  SFabs (binary_round_aux prec emax s m e l)
  = SFabs (binary_round_aux prec emax false m e l).
Proof.
  unfold binary_round_aux.
  destruct (shr_fexp prec emax m e l) as [mrs' e'].
  destruct (shr_fexp prec emax _ e' loc_Exact) as [mrs'' e''].
  destruct (shr_m mrs''); [done| |done].
  by destruct (Z.leb e'' (emax - prec)).
Qed.

Lemma binary_normalize_abs_opp z e :
  SFabs (binary_normalize prec emax (- z) e false)
  = SFabs (binary_normalize prec emax z e false).
Proof.
  destruct z; simpl; [done| |]; unfold binary_round;
    destruct (shl_align _ _ _) as [mz ez];
    by rewrite (binary_round_aux_abs true).
Qed.

(** [a - b] and [b - a] differ in sign only. *)
Lemma SFsub_abs_comm a b :
  SFabs (SFsub prec emax a b) = SFabs (SFsub prec emax b a).
Proof.
  destruct a as [sa|sa| |sa ma ea], b as [sb|sb| |sb mb eb];
    try destruct sa; try destruct sb; try done;
    unfold SFsub; replace (Z.min eb ea) with (Z.min ea eb) by lia;
    symmetry;
    match goal with
    | |- SFabs (binary_normalize _ _ (?B - ?A) _ _) = _ =>
        replace (B - A)%Z with (- (A - B))%Z by lia
    end; apply binary_normalize_abs_opp.
Qed.

Lemma SFmul_abs x y :
  SFabs x = SFabs y -> SFmul prec emax x x = SFmul prec emax y y.
Proof.
  destruct x as [sx|sx| |sx mx ex], y as [sy|sy| |sy my ey]; simpl; try done;
    intros [=]; subst; by rewrite !xorb_nilpotent.
Qed.

End SpecFloatFacts.

Section DistanceFacts.

Implicit Types (p q : ProjectedPoint) (r : number).

Lemma distance_comm p q : distance p q = distance q p.
Proof.
  unfold distance, sub, mul. simpl.
  rewrite (SFmul_abs _ _ _ _ (SFsub_abs_comm _ _ (screenX p) (screenX q))).
  by rewrite (SFmul_abs _ _ _ _ (SFsub_abs_comm _ _ (screenY p) (screenY q))).
Qed.

Lemma distance_nonneg p q : nonneg (distance p q).
Proof. apply SFsqrt_nonneg. Qed.

Lemma distance_negative_radius p q r :
  ltb r zero = true -> leb (distance p q) r = false.
Proof. apply SFleb_nonneg_negative, distance_nonneg. Qed.

Lemma sub_NaN_l y : sub NaN y = NaN.
Proof. done. Qed.

Lemma sub_NaN_r x : sub x NaN = NaN.
Proof. by destruct x. Qed.

Lemma add_NaN_l y : add NaN y = NaN.
Proof. done. Qed.

Lemma add_NaN_r x : add x NaN = NaN.
Proof. by destruct x. Qed.

Lemma isNaN_eq x : isNaN x = true -> x = NaN.
Proof. by destruct x. Qed.

(** A point with a NaN screen coordinate is at distance NaN of every point. *)
Lemma distance_NaN_l p q :
  isNaN (screenX p) || isNaN (screenY p) = true -> distance p q = NaN.
Proof.
  unfold distance. intros H. apply orb_true_iff in H as [H | H];
    apply isNaN_eq in H; rewrite H, sub_NaN_l;
    change (mul NaN NaN) with NaN.
  - by rewrite add_NaN_l.
  - by rewrite add_NaN_r.
Qed.

Lemma distance_NaN_r p q :
  isNaN (screenX q) || isNaN (screenY q) = true -> distance p q = NaN.
Proof. rewrite distance_comm. apply distance_NaN_l. Qed.

Lemma leb_NaN_l r : leb NaN r = false.
Proof. done. Qed.

Lemma leb_trans a b c : leb a b = true -> leb b c = true -> leb a c = true.
Proof. apply SFleb_trans. Qed.

Lemma near_sym r pts : Symmetric (near r pts).
Proof.
  intros i j (pi & pj & Hi & Hj & H). exists pj, pi.
  by rewrite distance_comm.
Qed.

Lemma near_lt r pts i j : near r pts i j -> i < length pts /\ j < length pts.
Proof.
  intros (pi & pj & Hi & Hj & _). split; eapply lookup_lt_Some; eauto.
Qed.

Lemma near_mono r1 r2 pts i j :
  leb r1 r2 = true -> near r1 pts i j -> near r2 pts i j.
Proof.
  intros Hr (pi & pj & Hi & Hj & H). exists pi, pj.
  repeat split; [done..|]. by eapply leb_trans.
Qed.

End DistanceFacts.

(** * Facts about the union-find forest *)
Section UnionFindFacts.

Implicit Types (p : list nat) (i j r : nat) (l : list nat).

Lemma pathTo_is_root p i l r : pathTo p i l r -> p !! r = Some r.
Proof. induction 1; auto. Qed.

Lemma pathTo_det p i l r l' r' :
  pathTo p i l r -> pathTo p i l' r' -> l = l' /\ r = r'.
Proof.
  intros H; revert l' r'.
  induction H as [r Hr | i j l r Hi Hne _ IH]; intros l' r' H'.
  - inversion H' as [? Hr' | ? j' l0 ? Hi' Hne' Hp']; subst; [done | congruence].
  - inversion H' as [? Hr' | ? j' l0 ? Hi' Hne' Hp']; subst; [congruence |].
    assert (j' = j) by congruence; subst j'.
    destruct (IH _ _ Hp') as [-> ->]; done.
Qed.

Lemma rootOf_det p i r r' : rootOf p i r -> rootOf p i r' -> r = r'.
Proof. intros [l H] [l' H']. by destruct (pathTo_det _ _ _ _ _ _ H H'). Qed.

Lemma pathTo_lt p i l r : pathTo p i l r -> i < length p.
Proof. destruct 1; eapply lookup_lt_Some; eauto. Qed.

Lemma pathTo_root_lt p i l r : pathTo p i l r -> r < length p.
Proof. intros H. eapply lookup_lt_Some, pathTo_is_root, H. Qed.

Lemma rootOf_root p r : p !! r = Some r -> rootOf p r r.
Proof. exists []. by constructor. Qed.

Lemma rootOf_of_root p r r' : p !! r = Some r -> rootOf p r r' -> r' = r.
Proof. intros Hr H. symmetry. eapply rootOf_det; [apply rootOf_root|]; eauto. Qed.

Lemma rootOf_is_root p i r : rootOf p i r -> p !! r = Some r.
Proof. intros [l H]. eapply pathTo_is_root, H. Qed.

(** Every node met on the way to the root has a strictly shorter way. *)
Lemma pathTo_suffix p i l r x :
  pathTo p i l r -> x ∈ l ->
  exists l', pathTo p x l' r /\ length l' <= length l /\ l' <> [].
Proof.
  induction 1 as [r Hr | i j l r Hi Hne H IH]; intros Hin.
  - by apply elem_of_nil in Hin.
  - apply elem_of_cons in Hin as [-> | Hin].
    + exists (i :: l). split; [by econstructor | split; [lia | done]].
    + destruct (IH Hin) as (l' & H' & Hlen & Hnil).
      exists l'. simpl. split; [done | split; [lia | done]].
Qed.

Lemma pathTo_NoDup p i l r : pathTo p i l r -> NoDup (r :: l).
Proof.
  induction 1 as [r Hr | i j l r Hi Hne H IH].
  - apply NoDup_singleton.
  - apply NoDup_cons in IH as [Hr Hl].
    apply NoDup_cons. split.
    + intros Hin. apply elem_of_cons in Hin as [-> | Hin]; [|done].
      apply pathTo_is_root in H. congruence.
    + apply NoDup_cons. split; [|done].
      intros Hin. destruct (pathTo_suffix _ _ _ _ _ H Hin) as (l' & H' & Hlen & _).
      assert (H2 : pathTo p i (i :: l) r) by (by econstructor).
      destruct (pathTo_det _ _ _ _ _ _ H' H2) as [-> _]. simpl in Hlen. lia.
Qed.

Lemma pathTo_nodes_lt p i l r x : pathTo p i l r -> x ∈ r :: l -> x < length p.
Proof.
  intros H Hin. apply elem_of_cons in Hin as [-> | Hin].
  - eapply pathTo_root_lt, H.
  - destruct (pathTo_suffix _ _ _ _ _ H Hin) as (l' & H' & _).
    eapply pathTo_lt, H'.
Qed.

(** No path is longer than the array: the visited nodes are distinct. *)
Lemma pathTo_length p i l r : pathTo p i l r -> length l < length p.
Proof.
  intros H.
  assert (Hsub : r :: l ⊆+ seq 0 (length p)).
  { apply NoDup_submseteq; [eapply pathTo_NoDup, H|].
    intros x Hx. apply elem_of_seq. split; [lia|].
    simpl. eapply pathTo_nodes_lt; eauto. }
  apply submseteq_length in Hsub. rewrite length_seq in Hsub. simpl in Hsub. lia.
Qed.

Lemma rootOf_step p i j r :
  p !! i = Some j -> j <> i -> rootOf p j r -> rootOf p i r.
Proof. intros Hi Hne [l H]. exists (i :: l). by econstructor. Qed.

Lemma rootOf_lt p i r : rootOf p i r -> i < length p.
Proof. intros [l H]. eapply pathTo_lt, H. Qed.

Lemma sameSet_roots p x y rx ry :
  rootOf p x rx -> rootOf p y ry -> sameSet p x y <-> rx = ry.
Proof.
  intros Hx Hy. split.
  - intros (r & Hx' & Hy').
    rewrite (rootOf_det _ _ _ _ Hx Hx'). apply (rootOf_det _ _ _ _ Hy' Hy).
  - intros ->. by exists ry.
Qed.

Lemma sameSet_refl p x : forest p -> x < length p -> sameSet p x x.
Proof. intros Hf Hx. destruct (Hf x Hx) as [r Hr]. by exists r. Qed.

Lemma sameSet_sym p x y : sameSet p x y -> sameSet p y x.
Proof. intros (r & ? & ?). by exists r. Qed.

Lemma sameSet_trans p x y z : sameSet p x y -> sameSet p y z -> sameSet p x z.
Proof.
  intros (r & Hx & Hy) (r' & Hy' & Hz).
  rewrite <- (rootOf_det _ _ _ _ Hy Hy') in Hz. by exists r.
Qed.

(** Pointing a non-root node at its own root keeps every root: one step
    of path compression. *)
Lemma redirect_rootOf p x r j rj :
  rootOf p x r -> x <> r -> rootOf p j rj -> rootOf (<[x := r]> p) j rj.
Proof.
  intros Hx Hne [l H].
  assert (Hr : p !! r = Some r) by (eapply rootOf_is_root, Hx).
  assert (Hxl : x < length p) by (eapply rootOf_lt, Hx).
  induction H as [rj Hrj | j j' l rj Hj Hne' H IH].
  - destruct (decide (rj = x)) as [-> | Hd].
    + exfalso. apply Hne. symmetry. eapply rootOf_of_root; eauto.
    + apply rootOf_root. by rewrite list_lookup_insert_ne.
  - destruct (decide (j = x)) as [-> | Hd].
    + assert (rj = r) as ->.
      { eapply rootOf_det; [|apply Hx]. exists (x :: l). by econstructor. }
      eapply rootOf_step; [by apply list_lookup_insert_eq | congruence |].
      apply rootOf_root. by rewrite list_lookup_insert_ne.
    + eapply rootOf_step; [by rewrite list_lookup_insert_ne | done | apply IH].
Qed.

Lemma compress_length p l r : length (compress p l r) = length p.
Proof. induction l as [|x l IH]; simpl; [done|]. by rewrite length_insert. Qed.

Lemma pathTo_nonroots p i l r :
  pathTo p i l r -> Forall (fun x => rootOf p x r /\ x <> r) l.
Proof.
  induction 1 as [r Hr | i j l r Hi Hne H IH]; constructor; [|done].
  split; [exists (i :: l); by econstructor|].
  intros ->. apply pathTo_is_root in H. congruence.
Qed.

Lemma compress_rootOf p l r :
  Forall (fun x => rootOf p x r /\ x <> r) l ->
  forall j rj, rootOf p j rj -> rootOf (compress p l r) j rj.
Proof.
  induction 1 as [|x l [Hx Hne] _ IH]; intros j rj Hj; simpl; [done|].
  apply redirect_rootOf; [by apply IH | done | by apply IH].
Qed.

Lemma find_fuel_path p i l r fuel :
  pathTo p i l r -> length l < fuel ->
  find_fuel fuel p i = Done (compress p l r, r).
Proof.
  intros H; revert fuel.
  induction H as [r Hr | i j l r Hi Hne H IH]; intros [|fuel] Hf;
    simpl in Hf; try lia; simpl.
  - by rewrite Hr, Nat.eqb_refl.
  - rewrite Hi. apply Nat.eqb_neq in Hne as ->.
    rewrite IH by lia. done.
Qed.

Lemma find_path p i l r :
  pathTo p i l r -> find p i = Done (compress p l r, r).
Proof. intros H. apply find_fuel_path; [done | eapply pathTo_length, H]. Qed.

Lemma forest_compress p i l r :
  forest p -> pathTo p i l r -> forest (compress p l r).
Proof.
  intros Hf H j Hj. rewrite compress_length in Hj.
  destruct (Hf j Hj) as [rj Hrj]. exists rj.
  eapply compress_rootOf; [eapply pathTo_nonroots, H | done].
Qed.

Lemma compress_rootOf_iff p i l r j rj :
  forest p -> pathTo p i l r -> j < length p ->
  rootOf (compress p l r) j rj <-> rootOf p j rj.
Proof.
  intros Hf H Hj. split.
  - intros H'. destruct (Hf j Hj) as [r0 Hr0].
    assert (rootOf (compress p l r) j r0)
      by (eapply compress_rootOf; [eapply pathTo_nonroots, H | done]).
    by rewrite (rootOf_det _ _ _ _ H' H0).
  - eapply compress_rootOf, pathTo_nonroots, H.
Qed.

(** [parent[rootJ] = rootI]: the trees of two distinct roots are merged. *)
Lemma link_rootOf p a b x r :
  p !! a = Some a -> p !! b = Some b -> a <> b -> rootOf p x r ->
  rootOf (<[b := a]> p) x (if decide (r = b) then a else r).
Proof.
  intros Ha Hb Hab [l H].
  assert (Hbl : b < length p) by (eapply lookup_lt_Some, Hb).
  assert (Ha' : rootOf (<[b := a]> p) a a).
  { apply rootOf_root. by rewrite list_lookup_insert_ne. }
  induction H as [r Hr | i j l r Hi Hne H IH].
  - destruct (decide (r = b)) as [-> | Hd].
    + eapply rootOf_step; [by apply list_lookup_insert_eq | done | done].
    + apply rootOf_root. by rewrite list_lookup_insert_ne.
  - eapply rootOf_step; [|done|apply IH].
    rewrite list_lookup_insert_ne; [done|]. intros ->. congruence.
Qed.

Lemma forest_new n : forest (new n).
Proof.
  intros i Hi. unfold new in *. rewrite length_seq in Hi.
  exists i. apply rootOf_root. by rewrite lookup_seq_lt.
Qed.

Lemma find_spec p i :
  forest p -> i < length p ->
  exists p' r, find p i = Done (p', r) /\ rootOf p i r /\
    length p' = length p /\ forest p' /\
    (forall x rx, x < length p -> rootOf p' x rx <-> rootOf p x rx).
Proof.
  intros Hf Hi. destruct (Hf i Hi) as (r & l & H).
  exists (compress p l r), r. split; [by apply find_path|].
  split; [by exists l|]. split; [apply compress_length|].
  split; [by eapply forest_compress|].
  intros x rx Hx. by eapply compress_rootOf_iff.
Qed.

Lemma union_spec p i j :
  forest p -> i < length p -> j < length p ->
  exists p' ri rj, union p i j = Done p' /\ rootOf p i ri /\ rootOf p j rj /\
    length p' = length p /\ forest p' /\
    (forall x rx, rootOf p x rx ->
                  rootOf p' x (if decide (rx = rj) then ri else rx)).
Proof.
  intros Hf Hi Hj.
  destruct (find_spec p i Hf Hi) as (p1 & ri & E1 & Hri & L1 & F1 & R1).
  assert (Hj1 : j < length p1) by lia.
  destruct (find_spec p1 j F1 Hj1) as (p2 & rj & E2 & Hrj & L2 & F2 & R2).
  assert (R : forall x rx, rootOf p x rx -> rootOf p2 x rx).
  { intros x rx Hx. pose proof (rootOf_lt _ _ _ Hx).
    apply R2; [lia|]. by apply R1. }
  assert (Hrj' : rootOf p j rj) by (by apply R1).
  unfold union. rewrite E1. simpl. rewrite E2. simpl.
  destruct (Nat.eqb_spec ri rj) as [-> | Hne].
  - exists p2, rj, rj. repeat split; try done; [lia|].
    intros x rx Hx. destruct (decide (rx = rj)) as [-> | _]; by apply R.
  - exists (<[rj := ri]> p2), ri, rj. repeat split; try done.
    + rewrite length_insert. lia.
    + intros x Hx. rewrite length_insert in Hx.
      destruct (F2 x Hx) as [rx Hrx]. eexists.
      eapply link_rootOf; [| | done | apply Hrx].
      * eapply rootOf_is_root, R, Hri.
      * eapply rootOf_is_root, R, Hrj'.
    + intros x rx Hx. eapply link_rootOf; [| | done | by apply R].
      * eapply rootOf_is_root, R, Hri.
      * eapply rootOf_is_root, R, Hrj'.
Qed.

(** What [union(i, j)] does to the partition: it merges the sets of [i]
    and [j] and nothing else. *)
Lemma union_sameSet p i j p' :
  forest p -> i < length p -> j < length p -> union p i j = Done p' ->
  forall x y, x < length p -> y < length p ->
    sameSet p' x y <->
    sameSet p x y \/ (sameSet p x i /\ sameSet p j y)
    \/ (sameSet p x j /\ sameSet p i y).
Proof.
  intros Hf Hi Hj E x y Hx Hy.
  destruct (union_spec p i j Hf Hi Hj) as (p0 & ri & rj & E' & Hri & Hrj & _ & _ & R).
  rewrite E in E'. injection E' as <-.
  destruct (Hf x Hx) as [rx Hrx]. destruct (Hf y Hy) as [ry Hry].
  rewrite (sameSet_roots p' x y _ _ (R _ _ Hrx) (R _ _ Hry)).
  rewrite (sameSet_roots p x y _ _ Hrx Hry).
  rewrite (sameSet_roots p x i _ _ Hrx Hri), (sameSet_roots p j y _ _ Hrj Hry).
  rewrite (sameSet_roots p x j _ _ Hrx Hrj), (sameSet_roots p i y _ _ Hri Hry).
  destruct (decide (rx = rj)), (decide (ry = rj)); intuition congruence.
Qed.

End UnionFindFacts.

(** * The pairwise union pass *)
Section FoldFacts.

Lemma foldM_app {A S} (body : A -> S -> result S) l1 l2 s :
  foldM body (l1 ++ l2) s = s' ← foldM body l1 s; foldM body l2 s'.
Proof.
  revert s. induction l1 as [|a l1 IH]; intros s; simpl; [done|].
  destruct (body a s); simpl; auto.
Qed.

Lemma foldM_fmap {A B S} (f : A -> B) (body : B -> S -> result S) l s :
  foldM body (f <$> l) s = foldM (fun a => body (f a)) l s.
Proof.
  revert s. induction l as [|a l IH]; intros s; simpl; [done|].
  destruct (body (f a) s); simpl; auto.
Qed.

(** Two nested loops visit the pairs of the flattened enumeration. *)
Lemma foldM_nested {A B S} (inner : A -> list B)
      (body : A -> B -> S -> result S) l s :
  foldM (fun a s => foldM (body a) (inner a) s) l s
  = foldM (fun ab => body ab.1 ab.2) (a ← l; pair a <$> inner a) s.
Proof.
  revert s. induction l as [|a l IH]; intros s; simpl; [done|].
  rewrite foldM_app, foldM_fmap. simpl.
  destruct (foldM (body a) (inner a) s); simpl; auto.
Qed.

Lemma elem_of_pairs n a b : (a, b) ∈ pairs n <-> a < b < n.
Proof.
  unfold pairs. rewrite list_elem_of_bind. split.
  - intros (i & Hin & Hi). apply list_elem_of_fmap in Hin as (j & [= -> ->] & Hj).
    apply elem_of_seq in Hi, Hj. lia.
  - intros H. exists a. split; [|apply elem_of_seq; lia].
    apply list_elem_of_fmap. exists b. split; [done|]. apply elem_of_seq. lia.
Qed.

End FoldFacts.

Section UnionPassFacts.

Variable r : number.
Variable pts : list ProjectedPoint.

Lemma edge_mono es es' a b : es ⊆ es' -> edge r pts es a b -> edge r pts es' a b.
Proof. intros Hs [Hin Hn]. split; [by apply Hs | done]. Qed.

Lemma rtsc_edge_mono es es' a b :
  es ⊆ es' -> rtsc (edge r pts es) a b -> rtsc (edge r pts es') a b.
Proof.
  intros Hs. induction 1 as [|x y z Hxy _ IH]; [done|].
  eapply rtc_l; [|exact IH].
  destruct Hxy as [H | H]; [left | right]; by eapply edge_mono.
Qed.

Lemma unionStep_near i j uf :
  near r pts i j -> unionStep r pts i j uf = union uf i j.
Proof.
  intros (pi & pj & Hi & Hj & H). unfold unionStep. by rewrite Hi, Hj, H.
Qed.

Lemma unionStep_far i j uf :
  i < length pts -> j < length pts -> ~ near r pts i j ->
  unionStep r pts i j uf = Done uf.
Proof.
  intros Hi Hj Hn. unfold unionStep.
  destruct (lookup_lt_is_Some_2 pts i Hi) as [pi Hpi].
  destruct (lookup_lt_is_Some_2 pts j Hj) as [pj Hpj].
  rewrite Hpi, Hpj. destruct (leb (distance pi pj) r) eqn:E; [|done].
  exfalso. apply Hn. by exists pi, pj.
Qed.

Lemma near_dec i j : near r pts i j \/ ~ near r pts i j.
Proof.
  destruct (pts !! i) as [pi|] eqn:Hi; [|right; intros (? & ? & ? & _); congruence].
  destruct (pts !! j) as [pj|] eqn:Hj;
    [|right; intros (? & ? & ? & ? & _); congruence].
  destruct (leb (distance pi pj) r) eqn:E.
  - left. by exists pi, pj.
  - right. intros (? & ? & ? & ? & ?). congruence.
Qed.

(** After the visits [es], two indices share a root exactly when a chain of
    visited near pairs joins them. *)
Lemma unions_spec es :
  Forall (fun e => e.1 < length pts /\ e.2 < length pts) es ->
  exists uf,
    foldM (fun e => unionStep r pts e.1 e.2) es (new (length pts)) = Done uf
    /\ length uf = length pts /\ forest uf
    /\ forall x y, x < length pts -> y < length pts ->
         (sameSet uf x y <-> rtsc (edge r pts es) x y).
Proof.
  induction es as [|[i j] es IH] using rev_ind; intros Hes.
  - exists (new (length pts)). split; [done|].
    split; [unfold new; by rewrite length_seq|]. split; [apply forest_new|].
    intros x y Hx Hy.
    assert (Hrx : rootOf (new (length pts)) x x).
    { apply rootOf_root. unfold new. by rewrite lookup_seq_lt. }
    assert (Hry : rootOf (new (length pts)) y y).
    { apply rootOf_root. unfold new. by rewrite lookup_seq_lt. }
    rewrite (sameSet_roots _ _ _ _ _ Hrx Hry). split.
    + by intros ->.
    + intros H. apply rtc_inv in H as [-> | (z & [[Hin _] | [Hin _]] & _)];
        [done | by apply elem_of_nil in Hin..].
  - apply Forall_app in Hes as [Hes He].
    apply Forall_singleton in He as [Hi Hj]. simpl in Hi, Hj.
    destruct (IH Hes) as (uf & E & Hlen & Hf & Hsame).
    rewrite foldM_app, E. simpl.
    assert (Hsub : es ⊆ es ++ [(i, j)]) by (intros e ?; apply elem_of_app; by left).
    destruct (near_dec i j) as [Hn | Hn].
    + rewrite (unionStep_near _ _ _ Hn).
      destruct (union_spec uf i j Hf) as (uf' & ri & rj & E' & _ & _ & Hlen' & Hf' & _);
        [lia..|].
      pose proof (union_sameSet uf i j uf' Hf ltac:(lia) ltac:(lia) E') as HU.
      rewrite E'. exists uf'. split; [done|]. split; [lia|]. split; [done|].
      assert (Hij : sameSet uf' i j).
      { apply HU; [lia..|]. right; left.
        split; apply sameSet_refl; (done || lia). }
      intros x y Hx Hy. split.
      * intros H. apply HU in H; [|lia..].
        destruct H as [H | [[H1 H2] | [H1 H2]]].
        -- eapply rtsc_edge_mono; [done|]. by apply Hsame.
        -- transitivity i; [eapply rtsc_edge_mono; [done|]; by apply Hsame|].
           transitivity j; [|eapply rtsc_edge_mono; [done|]; by apply Hsame].
           apply rtsc_lr. split; [|done]. apply elem_of_app. right.
           by apply list_elem_of_singleton.
        -- transitivity j; [eapply rtsc_edge_mono; [done|]; by apply Hsame|].
           transitivity i; [|eapply rtsc_edge_mono; [done|]; by apply Hsame].
           apply rtsc_rl. split; [|done]. apply elem_of_app. right.
           by apply list_elem_of_singleton.
      * intros H. clear Hy. revert Hx.
        induction H as [x | x z y Hxz _ IHrtc]; intros Hx.
        -- apply sameSet_refl; [done | lia].
        -- assert (Hstep : z < length pts /\ sameSet uf' x z).
           { assert (Hone : forall a b, edge r pts (es ++ [(i, j)]) a b ->
                       a < length pts /\ b < length pts /\ sameSet uf' a b).
             { intros a b [Hin Hnear]. destruct (near_lt _ _ _ _ Hnear) as [Ha Hb].
               split; [done|]. split; [done|].
               apply elem_of_app in Hin as [Hin | Hin].
               - apply HU; [lia..|]. left. apply Hsame; [done..|].
                 by apply rtsc_lr.
               - apply list_elem_of_singleton in Hin as [= -> ->]. done. }
             destruct Hxz as [Hxz | Hxz]; apply Hone in Hxz as (? & ? & ?);
               [done | split; [done | by apply sameSet_sym]]. }
           destruct Hstep as [Hz Hxz'].
           eapply sameSet_trans; [exact Hxz' | by apply IHrtc].
    + rewrite (unionStep_far _ _ _ Hi Hj Hn).
      exists uf. split; [done|]. split; [done|]. split; [done|].
      intros x y Hx Hy. rewrite (Hsame x y Hx Hy). split.
      * by apply rtsc_edge_mono.
      * clear Hx Hy. induction 1 as [|a b c Hab _ IHrtc]; [done|].
        eapply rtc_l; [|exact IHrtc].
        assert (Hone : forall a b,
                  edge r pts (es ++ [(i, j)]) a b -> edge r pts es a b).
        { intros a' b' [Hin Hnear]. split; [|done].
          apply elem_of_app in Hin as [Hin | Hin]; [done|].
          apply list_elem_of_singleton in Hin as [= -> ->]. done. }
        destruct Hab as [Hab | Hab]; [left | right]; by apply Hone.
Qed.

(** The pass as written is the fold over [pairs]. *)
Lemma unionPass_pairs :
  unionPass r pts
  = foldM (fun e => unionStep r pts e.1 e.2) (pairs (length pts))
          (new (length pts)).
Proof. unfold unionPass, pairs. by rewrite foldM_nested. Qed.

Lemma rtsc_edge_pairs x y :
  rtsc (edge r pts (pairs (length pts))) x y <-> connected r pts x y.
Proof.
  unfold connected. split.
  - induction 1 as [|a b c Hab _ IH]; [done|].
    eapply rtc_l; [|exact IH].
    destruct Hab as [[_ H] | [_ H]]; [done | by apply near_sym].
  - induction 1 as [|a b c Hab _ IH]; [done|].
    destruct (near_lt _ _ _ _ Hab) as [Ha Hb].
    destruct (Nat.lt_trichotomy a b) as [Hlt | [-> | Hgt]]; [|done|].
    + eapply rtc_l; [|exact IH]. left. split; [|done].
      apply elem_of_pairs. lia.
    + eapply rtc_l; [|exact IH]. right. split; [|by apply near_sym].
      apply elem_of_pairs. lia.
Qed.

(** The union pass returns, and its forest has one tree per connected
    component of the proximity graph. *)
Lemma unionPass_spec :
  exists uf, unionPass r pts = Done uf /\ length uf = length pts /\ forest uf
    /\ forall x y, x < length pts -> y < length pts ->
         (sameSet uf x y <-> connected r pts x y).
Proof.
  destruct (unions_spec (pairs (length pts))) as (uf & E & Hlen & Hf & Hsame).
  { apply Forall_forall. intros [a b] Hin. apply elem_of_pairs in Hin.
    simpl. lia. }
  exists uf. rewrite unionPass_pairs. split; [done|]. split; [done|].
  split; [done|]. intros x y Hx Hy.
  by rewrite (Hsame x y Hx Hy), rtsc_edge_pairs.
Qed.

End UnionPassFacts.

(** * The grouping pass *)
Section GroupFacts.

Implicit Types (gs : Groups) (rps : list (nat * ProjectedPoint)).

Lemma groupsGet_push gs r p k :
  groupsGet (groupsPush gs r p) k
  = if decide (k = r) then Some (default [] (groupsGet gs r) ++ [p])
    else groupsGet gs k.
Proof.
  induction gs as [|[k' g] gs IH]; simpl.
  - destruct (Nat.eqb_spec r k), (decide (k = r)); done || congruence.
  - destruct (Nat.eqb_spec k' r) as [-> | Hne]; simpl.
    + destruct (Nat.eqb_spec r k), (decide (k = r)); done || congruence.
    + rewrite IH.
      destruct (Nat.eqb_spec k' k), (decide (k = r)); done || congruence.
Qed.

Lemma groupsPush_keys gs r p :
  (groupsPush gs r p).*1 = if decide (r ∈ gs.*1) then gs.*1 else gs.*1 ++ [r].
Proof.
  induction gs as [|[k' g] gs IH]; csimpl.
  - done.
  - destruct (Nat.eqb_spec k' r) as [-> | Hne]; csimpl.
    + rewrite decide_True; [done|]. by left.
    + rewrite IH. destruct (decide (r ∈ gs.*1)) as [Hin | Hn].
      * rewrite decide_True; [done|]. by right.
      * rewrite decide_False; [done|].
        intros [-> | ?]%elem_of_cons; done.
Qed.

Lemma groupsPush_new gs r p :
  r ∉ gs.*1 -> groupsPush gs r p = gs ++ [(r, [p])].
Proof.
  induction gs as [|[k' g] gs IH]; csimpl; intros Hn; [done|].
  apply not_elem_of_cons in Hn as [Hne Hn].
  destruct (Nat.eqb_spec k' r); [congruence|]. by rewrite IH.
Qed.

Lemma groupsPush_NoDup gs r p : NoDup gs.*1 -> NoDup (groupsPush gs r p).*1.
Proof.
  intros H. rewrite groupsPush_keys. destruct (decide (r ∈ gs.*1)); [done|].
  apply NoDup_app. split; [done|]. split; [|apply NoDup_singleton].
  intros x Hx Hx'. apply list_elem_of_singleton in Hx' as ->. done.
Qed.

Lemma groupsGet_elem_of gs k g :
  NoDup gs.*1 -> (k, g) ∈ gs <-> groupsGet gs k = Some g.
Proof.
  induction gs as [|[k' g'] gs IH]; csimpl; intros Hnd.
  - split; [intros H; by apply elem_of_nil in H | done].
  - apply NoDup_cons in Hnd as [Hk' Hnd].
    rewrite elem_of_cons, (IH Hnd).
    destruct (Nat.eqb_spec k' k) as [-> | Hne].
    + split; [intros [[= ->] | H]; [done|] | intros [= ->]; by left].
      exfalso. apply Hk'. apply (IH Hnd) in H.
      apply list_elem_of_fmap. by exists (k, g).
    + split; [intros [[= -> ->] | H]; done | by right].
Qed.

Lemma collect_snoc rps r p :
  collect (rps ++ [(r, p)]) = groupsPush (collect rps) r p.
Proof. unfold collect. by rewrite foldl_app. Qed.

Lemma collect_NoDup rps : NoDup (collect rps).*1.
Proof.
  induction rps as [|[r p] rps IH] using rev_ind; [apply NoDup_nil_2|].
  rewrite collect_snoc. by apply groupsPush_NoDup.
Qed.

Lemma members_snoc k rps r p :
  members k (rps ++ [(r, p)])
  = if decide (r = k) then members k rps ++ [p] else members k rps.
Proof.
  unfold members. rewrite filter_app, fmap_app.
  destruct (decide (r = k)) as [-> | Hne].
  - by rewrite filter_cons_True.
  - rewrite filter_cons_False by done. simpl. by rewrite app_nil_r.
Qed.

(** The slot of a root holds the points found under it, in loop order. *)
Lemma groupsGet_collect rps k :
  groupsGet (collect rps) k
  = match members k rps with [] => None | l => Some l end.
Proof.
  induction rps as [|[r p] rps IH] using rev_ind; [done|].
  rewrite collect_snoc, groupsGet_push, members_snoc.
  destruct (decide (k = r)) as [-> | Hne].
  - rewrite decide_True by done. rewrite IH.
    destruct (members r rps); simpl; [done|]. by destruct l.
  - rewrite decide_False by done. exact IH.
Qed.

Lemma elem_of_collect rps k g :
  (k, g) ∈ collect rps <-> g = members k rps /\ g <> [].
Proof.
  rewrite (groupsGet_elem_of _ _ _ (collect_NoDup rps)), groupsGet_collect.
  destruct (members k rps) as [|p l].
  - split; [done | by intros [-> ?]].
  - split; [by intros [= <-] | by intros [-> _]].
Qed.

Lemma elem_of_members k rps p : p ∈ members k rps <-> (k, p) ∈ rps.
Proof.
  unfold members. rewrite list_elem_of_fmap. split.
  - intros ([r q] & -> & Hin). apply list_elem_of_filter in Hin as [Hr Hin].
    simpl in *. by subst.
  - intros Hin. exists (k, p). split; [done|].
    by apply list_elem_of_filter.
Qed.

Lemma concat_groupsPush gs r p :
  concat (groupsPush gs r p).*2 ≡ₚ p :: concat gs.*2.
Proof.
  induction gs as [|[k' g] gs IH]; csimpl; [done|].
  destruct (Nat.eqb_spec k' r); csimpl.
  - rewrite <- app_assoc. csimpl. by rewrite <- Permutation_middle.
  - rewrite IH. by rewrite <- Permutation_middle.
Qed.

(** Every pushed point sits in exactly one slot. *)
Lemma concat_collect rps : concat (collect rps).*2 ≡ₚ rps.*2.
Proof.
  induction rps as [|[r p] rps IH] using rev_ind; [done|].
  rewrite collect_snoc, concat_groupsPush, IH, fmap_app. simpl.
  by rewrite <- Permutation_cons_append.
Qed.

End GroupFacts.

Section GroupPassFacts.

Variable pts : list ProjectedPoint.

Lemma rootFn_spec uf i : forest uf -> i < length uf -> rootOf uf i (rootFn uf i).
Proof.
  intros Hf Hi. unfold rootFn.
  destruct (find_spec uf i Hf Hi) as (p' & r & E & Hr & _). by rewrite E.
Qed.

Lemma rootFn_sameSet uf i j :
  forest uf -> i < length uf -> j < length uf ->
  rootFn uf i = rootFn uf j <-> sameSet uf i j.
Proof.
  intros Hf Hi Hj. symmetry.
  apply sameSet_roots; by apply rootFn_spec.
Qed.

Lemma groupPass_prefix uf k :
  forest uf -> length uf = length pts -> k <= length pts ->
  exists uf',
    foldM (groupStep pts) (seq 0 k) (uf, [])
    = Done (uf', collect (tagged (rootFn uf) (take k pts)))
    /\ length uf' = length uf /\ forest uf'
    /\ (forall x rx, x < length uf -> rootOf uf' x rx <-> rootOf uf x rx).
Proof.
  intros Hf Hlen. induction k as [|k IH]; intros Hk.
  - exists uf. by rewrite take_0.
  - destruct IH as (uf1 & E & Hlen1 & Hf1 & Hroots); [lia|].
    rewrite seq_S, foldM_app, E. simpl.
    destruct (find_spec uf1 k Hf1) as (uf2 & r & E2 & Hr & Hlen2 & Hf2 & Hroots2);
      [lia|].
    rewrite E2. simpl.
    destruct (lookup_lt_is_Some_2 pts k) as [p Hp]; [lia|].
    rewrite Hp. exists uf2. split.
    + assert (Hk' : rootFn uf k = r).
      { eapply rootOf_det; [|exact Hr]. apply Hroots; [lia|].
        apply rootFn_spec; [done|lia]. }
      rewrite (take_S_r _ _ _ Hp). unfold tagged.
      rewrite imap_app, length_take_le by lia. simpl.
      by rewrite collect_snoc, Nat.add_0_r, Hk'.
    + split; [lia|]. split; [done|]. intros x rx Hx.
      rewrite Hroots2 by lia. by apply Hroots.
Qed.

(** The grouping pass returns, with every point pushed under the root of
    its position. *)
Lemma groupPass_spec uf :
  forest uf -> length uf = length pts ->
  exists uf', groupPass pts uf = Done (uf', collect (tagged (rootFn uf) pts)).
Proof.
  intros Hf Hlen.
  destruct (groupPass_prefix uf (length pts) Hf Hlen) as (uf' & E & _); [lia|].
  exists uf'. unfold groupPass. rewrite E. by rewrite take_ge.
Qed.

End GroupPassFacts.

Section SortFacts.

Context {A : Type} (key : A -> N).

Lemma insertByKey_Permutation a l : insertByKey key a l ≡ₚ a :: l.
Proof.
  induction l as [|b l IH]; simpl; [done|].
  destruct (key a <? key b)%N; [done|]. rewrite IH. apply Permutation_swap.
Qed.

Lemma sortByKey_snoc l a :
  sortByKey key (l ++ [a]) = insertByKey key a (sortByKey key l).
Proof. unfold sortByKey. by rewrite reverse_snoc. Qed.

Lemma sortByKey_Permutation l : sortByKey key l ≡ₚ l.
Proof.
  induction l as [|a l IH] using rev_ind; [done|].
  rewrite sortByKey_snoc, insertByKey_Permutation, IH.
  apply Permutation_cons_append.
Qed.

Lemma insertByKey_last a l :
  Forall (fun b => (key b <= key a)%N) l -> insertByKey key a l = l ++ [a].
Proof.
  induction 1 as [|b l Hb _ IH]; simpl; [done|].
  destruct (N.ltb_spec (key a) (key b)); [lia|]. by rewrite IH.
Qed.

End SortFacts.

(** * The groups of the output *)
Section GroupsOfRoots.

Variable root : nat -> nat.
Variable pts : list ProjectedPoint.

(** The projected points carry their position as [index]. *)
Hypothesis index_pos : forall i p, pts !! i = Some p -> index p = i.

Lemma concat_Permutation {A} (l l' : list (list A)) :
  l ≡ₚ l' -> concat l ≡ₚ concat l'.
Proof.
  induction 1 as [|x l l' _ IH|x y l|l l' l'' _ IH1 _ IH2]; simpl.
  - done.
  - by rewrite IH.
  - rewrite !app_assoc. f_equiv. apply Permutation_app_comm.
  - by rewrite IH1.
Qed.

Lemma tagged_snd : (tagged root pts).*2 = pts.
Proof.
  unfold tagged. rewrite fmap_imap.
  clear index_pos. generalize root.
  induction pts as [|p l IH]; intros f; [done|].
  rewrite imap_cons. simpl. f_equal. apply IH.
Qed.

Lemma elem_of_tagged k p :
  (k, p) ∈ tagged root pts <-> exists i, pts !! i = Some p /\ root i = k.
Proof.
  unfold tagged. rewrite elem_of_lookup_imap. split.
  - intros (i & q & [= -> ->] & Hq). by exists i.
  - intros (i & Hp & <-). by exists i, p.
Qed.

Lemma elem_of_groupsValues g :
  g ∈ groupsValues (collect (tagged root pts))
  <-> exists k, g = members k (tagged root pts) /\ g <> [].
Proof.
  unfold groupsValues. rewrite sortByKey_Permutation, list_elem_of_fmap.
  split.
  - intros ([k g'] & -> & Hin). exists k. by apply elem_of_collect.
  - intros (k & Hg & Hne). exists (k, g). split; [done|].
    by apply elem_of_collect.
Qed.

(** No point is lost and none is duplicated. *)
Lemma groupsValues_Permutation :
  concat (groupsValues (collect (tagged root pts))) ≡ₚ pts.
Proof.
  unfold groupsValues.
  rewrite (concat_Permutation _ (collect (tagged root pts)).*2).
  - by rewrite concat_collect, tagged_snd.
  - by rewrite sortByKey_Permutation.
Qed.

Lemma groupsValues_nonempty g :
  g ∈ groupsValues (collect (tagged root pts)) -> g <> [].
Proof. intros (k & _ & H)%elem_of_groupsValues. done. Qed.

(** A group lists its members in input order. *)
Lemma groupsValues_sublist g :
  g ∈ groupsValues (collect (tagged root pts)) -> g `sublist_of` pts.
Proof.
  intros (k & -> & _)%elem_of_groupsValues.
  rewrite <- tagged_snd at 2. unfold members.
  apply fmap_sublist, sublist_filter.
Qed.

Lemma index_members k i :
  i < length pts ->
  i ∈ index <$> members k (tagged root pts) <-> root i = k.
Proof.
  intros Hi. rewrite list_elem_of_fmap. split.
  - intros (p & -> & Hin). apply elem_of_members, elem_of_tagged in Hin.
    destruct Hin as (i' & Hp & <-). by rewrite (index_pos _ _ Hp).
  - intros <-. destruct (lookup_lt_is_Some_2 pts i Hi) as [p Hp].
    exists p. split; [by rewrite (index_pos _ _ Hp)|].
    apply elem_of_members, elem_of_tagged. by exists i.
Qed.

(** Two positions fall in one group exactly when their roots agree. *)
Lemma sameGroup_root i j :
  i < length pts -> j < length pts ->
  sameGroup (groupsValues (collect (tagged root pts))) i j <-> root i = root j.
Proof.
  intros Hi Hj. unfold sameGroup. split.
  - intros (g & (k & -> & _)%elem_of_groupsValues & Hgi & Hgj).
    apply index_members in Hgi, Hgj; [|done..]. congruence.
  - intros Heq. exists (members (root i) (tagged root pts)).
    split; [|split]; [|by apply index_members..].
    apply elem_of_groupsValues. exists (root i). split; [done|].
    intros Hnil. assert (H : i ∈ index <$> members (root i) (tagged root pts))
      by (by apply index_members).
    rewrite Hnil in H. by apply elem_of_nil in H.
Qed.

End GroupsOfRoots.

(** * The engine *)
Section EngineFacts.

Variable project : ViewportProps -> number * number -> number * number.
Variable props : ViewportProps.
Variable rawData : list RawPoint.

Lemma length_projectedPoints :
  length (projectedPoints project props rawData) = length rawData.
Proof. apply length_imap. Qed.

Lemma projectedPoints_lookup i p :
  projectedPoints project props rawData !! i = Some p ->
  index p = i /\ rawData !! i = Some (point p).
Proof.
  unfold projectedPoints. rewrite list_lookup_imap_Some.
  intros (raw & Hraw & ->). by destruct (project props _).
Qed.

Lemma projectedPoints_index i p :
  projectedPoints project props rawData !! i = Some p -> index p = i.
Proof. intros H. by apply projectedPoints_lookup in H as [? _]. Qed.

(** The grouping of the pass: every point is pushed under a root, and two
    positions get the same root exactly when a chain of near points joins
    them. *)
Lemma groupsWith_spec r :
  exists root,
    groupsWith project r props rawData
    = Done (groupsValues
              (collect (tagged root (projectedPoints project props rawData))))
    /\ forall i j,
         i < length (projectedPoints project props rawData) ->
         j < length (projectedPoints project props rawData) ->
         (root i = root j
          <-> connected r (projectedPoints project props rawData) i j).
Proof.
  unfold groupsWith.
  destruct (Nat.eqb_spec (length (projectedPoints project props rawData)) 0)
    as [Hz | Hnz].
  - exists (fun i => i). apply nil_length_inv in Hz. rewrite Hz.
    split; [done|]. simpl. lia.
  - destruct (unionPass_spec r (projectedPoints project props rawData))
      as (uf & E & Hlen & Hf & Hsame).
    destruct (groupPass_spec (projectedPoints project props rawData) uf Hf Hlen)
      as (uf' & E').
    exists (rootFn uf). rewrite E. simpl. rewrite E'. simpl.
    split; [done|]. intros i j Hi Hj.
    rewrite rootFn_sameSet by (done || lia). by apply Hsame.
Qed.

End EngineFacts.

(** * The claims about the union-find class *)

Lemma find_returns_root (p : list nat) (i : nat) :
  forest p -> i < length p ->
  exists p' r, find p i = Done (p', r) /\ p' !! r = Some r.
Proof.
  intros Hf Hi.
  destruct (find_spec p i Hf Hi) as (p' & r & E & Hr & _ & _ & Hroots).
  exists p', r. split; [done|].
  eapply rootOf_is_root. apply Hroots; [done | exact Hr].
Qed.

(** C9.  Built with [n] elements, after any sequence of [union] calls on
    indices below [n] the parent array is a forest (from every index the
    parent links reach a self-parent node), no call runs out of fuel, and
    [find(i)] returns a self-parent root for every [i] below [n]. *)
Theorem unionfind_forest (n : nat) (ops : list (nat * nat)) :
  Forall (fun op => op.1 < n /\ op.2 < n) ops ->
  exists p,
    foldM (fun op p => union p op.1 op.2) ops (new n) = Done p
    /\ length p = n /\ forest p
    /\ forall i, i < n -> exists p' r, find p i = Done (p', r) /\ p' !! r = Some r.
Proof.
  induction ops as [|[i j] ops IH] using rev_ind; intros Hops.
  - exists (new n). split; [done|].
    assert (Hlen : length (new n) = n) by (unfold new; apply length_seq).
    split; [done|]. split; [apply forest_new|].
    intros i Hi. apply find_returns_root; [apply forest_new | lia].
  - apply Forall_app in Hops as [Hops Hop].
    apply Forall_singleton in Hop as [Hi Hj]. simpl in Hi, Hj.
    destruct (IH Hops) as (p & E & Hlen & Hf & _).
    destruct (union_spec p i j Hf) as (p' & ? & ? & E' & _ & _ & Hlen' & Hf' & _);
      [lia..|].
    exists p'. rewrite foldM_app, E. simpl. rewrite E'. split; [done|].
    split; [lia|]. split; [done|].
    intros y Hy. apply find_returns_root; [done | lia].
Qed.

Lemma unionfind_forest_witness :
  exists p,
    foldM (fun op p => union p op.1 op.2) [(1, 2); (0, 2); (3, 3)] (new 4) = Done p
    /\ length p = 4 /\ forest p
    /\ forall i, i < 4 -> exists p' r, find p i = Done (p', r) /\ p' !! r = Some r.
Proof.
  apply (unionfind_forest 4 [(1, 2); (0, 2); (3, 3)]).
  repeat constructor; simpl; lia.
Defined.

(** C10.  [find(i)] rewrites parent entries but answers the same for every
    index afterwards: the array is still a forest of the same length, the
    root returned for [j] is unchanged, so [find(j) = find(k)] holds after
    the call exactly when it held before. *)
Theorem find_preserves_partition (p : list nat) (i j k : nat) :
  forest p -> i < length p -> j < length p -> k < length p ->
  exists p' r,
    find p i = Done (p', r)
    /\ forest p' /\ length p' = length p
    /\ rootFn p' j = rootFn p j
    /\ (rootFn p' j = rootFn p' k <-> rootFn p j = rootFn p k).
Proof.
  intros Hf Hi Hj Hk.
  destruct (find_spec p i Hf Hi) as (p' & r & E & _ & Hlen & Hf' & Hroots).
  exists p', r. split; [done|]. split; [done|]. split; [done|].
  assert (Hsame : forall x, x < length p -> rootFn p' x = rootFn p x).
  { intros x Hx. eapply rootOf_det; [|apply rootFn_spec; done].
    apply Hroots; [done|]. apply rootFn_spec; [done | lia]. }
  rewrite !Hsame by done. done.
Qed.

(** On the chain [0 -> 1 -> 2], [find(0)] compresses the path and leaves the
    answers for 0 and 1 as they were. *)
Lemma find_preserves_partition_witness :
  exists p' r,
    find [1; 2; 2] 0 = Done (p', r)
    /\ forest p' /\ length p' = 3
    /\ rootFn p' 0 = rootFn [1; 2; 2] 0
    /\ (rootFn p' 0 = rootFn p' 1 <-> rootFn [1; 2; 2] 0 = rootFn [1; 2; 2] 1).
Proof.
  apply (find_preserves_partition [1; 2; 2] 0 0 1); simpl; try lia.
  intros i Hi. exists 2. simpl in Hi.
  destruct i as [|[|[|i]]]; [exists [0; 1] | exists [1] | exists [] | lia];
    repeat (econstructor; try done).
Defined.

(** * The claims about the partition *)

Lemma connected_mono r1 r2 pts i j :
  leb r1 r2 = true -> connected r1 pts i j -> connected r2 pts i j.
Proof.
  intros Hr. induction 1 as [|a b c Hab _ IH]; [done|].
  eapply rtc_l; [|exact IH]. by eapply near_mono.
Qed.

Lemma sublist_concat_filter {A} (P : list A -> Prop)
      `{!forall g, Decision (P g)} (l : list (list A)) :
  concat (filter P l) `sublist_of` concat l.
Proof.
  induction l as [|g l IH]; [done|].
  destruct (decide (P g)).
  - rewrite filter_cons_True by done. simpl. by apply sublist_app.
  - rewrite filter_cons_False by done. simpl. by apply sublist_inserts_l.
Qed.

Lemma elem_of_concat {A} (x : A) (ls : list (list A)) :
  x ∈ concat ls <-> exists l, x ∈ l /\ l ∈ ls.
Proof.
  induction ls as [|l ls IH]; simpl.
  - split; [intros H; by apply elem_of_nil in H|].
    intros (l & _ & H). by apply elem_of_nil in H.
  - rewrite elem_of_app, IH. split.
    + intros [H | (l' & H & Hin)]; [exists l | exists l'];
        (split; [done|]); [by left | by right].
    + intros (l' & H & [-> | Hin]%elem_of_cons); [by left|].
      right. by exists l'.
Qed.

Lemma projectedPoints_NoDup project props rawData :
  NoDup (projectedPoints project props rawData).
Proof.
  apply NoDup_alt. intros i j p Hi Hj.
  apply projectedPoints_index in Hi, Hj. congruence.
Qed.

(** C2.  The groups of the pass are the connected components of the
    proximity graph: two input points lie in one group if and only if a
    chain of points joins them whose consecutive pixel distances are each at
    most the cluster radius. *)
Theorem groups_are_connected_components
  (project : ViewportProps -> number * number -> number * number)
  (r : number) (props : ViewportProps) (rawData : list RawPoint) :
  exists groups,
    groupsWith project r props rawData = Done groups
    /\ forall i j, i < length rawData -> j < length rawData ->
         (sameGroup groups i j
          <-> connected r (projectedPoints project props rawData) i j).
Proof.
  destruct (groupsWith_spec project props rawData r) as (root & E & Hroot).
  eexists. split; [exact E|]. intros i j Hi Hj.
  rewrite <- (length_projectedPoints project props rawData) in Hi, Hj.
  rewrite sameGroup_root; [by apply Hroot | | done..].
  apply projectedPoints_index.
Qed.

(** The chain [0 - 2 - 1] puts points 0 and 1 in one group although they are
    100 pixels apart and not near each other. *)
Lemma groups_are_connected_components_witness :
  exists groups,
    groupsWith flatProject clusterRadius exampleProps chainData = Done groups
    /\ (sameGroup groups 0 1
        <-> connected clusterRadius
              (projectedPoints flatProject exampleProps chainData) 0 1)
    /\ sameGroup groups 0 1
    /\ ~ near clusterRadius (projectedPoints flatProject exampleProps chainData) 0 1.
Proof.
  destruct (groups_are_connected_components flatProject clusterRadius
              exampleProps chainData) as (groups & E & H).
  exists groups. split; [exact E|].
  assert (H01 : sameGroup groups 0 1
                <-> connected clusterRadius
                      (projectedPoints flatProject exampleProps chainData) 0 1)
    by (apply H; simpl; lia).
  split; [exact H01|]. split.
  - apply H01. apply rtc_l with 2; [|apply rtc_once];
      (eexists _, _; split; [reflexivity|]; split; [reflexivity|]; reflexivity).
  - intros (pi & pj & Hi & Hj & Hle).
    injection Hi as <-. injection Hj as <-. discriminate Hle.
Defined.

(** C4.  Clustering is monotone in the radius: for [r1 <= r2] every group
    computed with [r1] lies inside one group computed with [r2], so no group
    shrinks and no fewer points end up in clusters. *)
Theorem radius_monotone
  (project : ViewportProps -> number * number -> number * number)
  (r1 r2 : number) (props : ViewportProps) (rawData : list RawPoint) :
  leb r1 r2 = true ->
  exists groups1 groups2,
    groupsWith project r1 props rawData = Done groups1
    /\ groupsWith project r2 props rawData = Done groups2
    /\ (forall i j, i < length rawData -> j < length rawData ->
          sameGroup groups1 i j -> sameGroup groups2 i j)
    /\ (forall g1, g1 ∈ groups1 ->
          exists g2, g2 ∈ groups2 /\ g1 ⊆ g2 /\ length g1 <= length g2)
    /\ length (concat (filter (fun g => 2 <= length g) groups1))
       <= length (concat (filter (fun g => 2 <= length g) groups2)).
Proof.
  intros Hr. set (pts := projectedPoints project props rawData).
  destruct (groupsWith_spec project props rawData r1) as (root1 & E1 & H1).
  destruct (groupsWith_spec project props rawData r2) as (root2 & E2 & H2).
  fold pts in E1, E2, H1, H2.
  assert (Hidx : forall i p, pts !! i = Some p -> index p = i)
    by apply projectedPoints_index.
  assert (Hnd : NoDup pts) by apply projectedPoints_NoDup.
  assert (Hroots : forall i j, i < length pts -> j < length pts ->
            root1 i = root1 j -> root2 i = root2 j).
  { intros i j Hi Hj H. apply H2; [done..|].
    eapply connected_mono; [done|]. by apply H1. }
  assert (Hincl : forall g1, g1 ∈ groupsValues (collect (tagged root1 pts)) ->
            exists g2, g2 ∈ groupsValues (collect (tagged root2 pts))
                       /\ g1 ⊆ g2 /\ length g1 <= length g2).
  { intros g1 Hg1.
    pose proof (groupsValues_sublist root1 pts g1 Hg1) as Hsub.
    apply elem_of_groupsValues in Hg1 as (k & -> & Hne).
    destruct (members k (tagged root1 pts)) as [|p0 l] eqn:Hm; [done|].
    assert (Hp0 : p0 ∈ members k (tagged root1 pts)) by (rewrite Hm; by left).
    apply elem_of_members, elem_of_tagged in Hp0 as (i0 & Hi0 & Hk).
    exists (members (root2 i0) (tagged root2 pts)).
    assert (Hsubset : p0 :: l ⊆ members (root2 i0) (tagged root2 pts)).
    { intros q Hq. rewrite <- Hm in Hq.
      apply elem_of_members, elem_of_tagged in Hq as (i & Hi & Hki).
      apply elem_of_members, elem_of_tagged. exists i. split; [done|].
      apply Hroots; [by eapply lookup_lt_Some..|]. congruence. }
    split; [|split; [exact Hsubset|]].
    - apply elem_of_groupsValues. eexists. split; [done|].
      intros Hnil. assert (Hin : p0 ∈ members (root2 i0) (tagged root2 pts))
        by (apply Hsubset; by left).
      rewrite Hnil in Hin. by apply elem_of_nil in Hin.
    - apply submseteq_length, NoDup_submseteq; [|exact Hsubset].
      exact (sublist_NoDup _ _ Hnd Hsub). }
  exists (groupsValues (collect (tagged root1 pts))),
         (groupsValues (collect (tagged root2 pts))).
  split; [done|]. split; [done|]. split; [|split; [done|]].
  - intros i j Hi Hj. rewrite <- (length_projectedPoints project props) in Hi, Hj.
    rewrite !sameGroup_root by done. by apply Hroots.
  - apply submseteq_length, NoDup_submseteq.
    + eapply (sublist_NoDup _ (concat (groupsValues (collect (tagged root1 pts))))).
      * by rewrite groupsValues_Permutation.
      * apply sublist_concat_filter.
    + intros p Hp. apply elem_of_concat in Hp as (g1 & Hp & Hg1).
      apply list_elem_of_filter in Hg1 as [Hlen Hg1].
      destruct (Hincl g1 Hg1) as (g2 & Hg2 & Hsub & Hle).
      apply elem_of_concat. exists g2. split; [by apply Hsub|].
      apply list_elem_of_filter. split; [lia | done].
Qed.

Lemma radius_monotone_witness :
  leb clusterRadius (ofNat 100) = true
  /\ exists groups1 groups2,
       groupsWith flatProject clusterRadius exampleProps chainData = Done groups1
       /\ groupsWith flatProject (ofNat 100) exampleProps chainData = Done groups2
       /\ forall g1, g1 ∈ groups1 ->
            exists g2, g2 ∈ groups2 /\ g1 ⊆ g2 /\ length g1 <= length g2.
Proof.
  split; [reflexivity|].
  destruct (radius_monotone flatProject clusterRadius (ofNat 100) exampleProps
              chainData) as (g1 & g2 & E1 & E2 & _ & H & _); [reflexivity|].
  exists g1, g2. split; [exact E1|]. split; [exact E2 | exact H].
Defined.

(** * Passes that merge nothing *)
Section NoNearPairs.

Variable r : number.
Variable pts : list ProjectedPoint.
Hypothesis apart : forall i j, i < j -> j < length pts -> ~ near r pts i j.

Lemma foldM_const {A S} (body : A -> S -> result S) (l : list A) (s : S) :
  Forall (fun a => body a s = Done s) l -> foldM body l s = Done s.
Proof. induction 1 as [|a l Ha _ IH]; simpl; [done|]. by rewrite Ha. Qed.

Lemma unionPass_apart : unionPass r pts = Done (new (length pts)).
Proof.
  rewrite unionPass_pairs. apply foldM_const, Forall_forall.
  intros [i j] Hin. apply elem_of_pairs in Hin. simpl.
  apply unionStep_far; [lia.. |]. apply apart; lia.
Qed.

Lemma rootFn_new n i : i < n -> rootFn (new n) i = i.
Proof.
  intros Hi. eapply rootOf_det.
  - apply rootFn_spec; [apply forest_new|]. unfold new. by rewrite length_seq.
  - apply rootOf_root. unfold new. by rewrite lookup_seq_lt.
Qed.

Lemma tagged_ext (f g : nat -> nat) (l : list ProjectedPoint) :
  (forall i, i < length l -> f i = g i) -> tagged f l = tagged g l.
Proof.
  intros H. unfold tagged. apply list_eq. intros i.
  rewrite !list_lookup_imap. destruct (l !! i) as [p|] eqn:E; [|done].
  simpl. rewrite H; [done|]. by eapply lookup_lt_Some.
Qed.

Lemma tagged_snoc (f : nat -> nat) (l : list ProjectedPoint) p :
  tagged f (l ++ [p]) = tagged f l ++ [(f (length l), p)].
Proof. unfold tagged. rewrite imap_app. simpl. by rewrite Nat.add_0_r. Qed.

Lemma tagged_fst_id (l : list ProjectedPoint) :
  (tagged (fun i => i) l).*1 = seq 0 (length l).
Proof.
  induction l as [|p l IH] using rev_ind; [done|].
  rewrite tagged_snoc, fmap_app, IH, length_app, seq_app. simpl.
  done.
Qed.

(** With the identity as root, every point opens a slot of its own. *)
Lemma collect_tagged_id (l : list ProjectedPoint) :
  collect (tagged (fun i => i) l)
  = (fun rp => (rp.1, [rp.2])) <$> tagged (fun i => i) l.
Proof.
  induction l as [|p l IH] using rev_ind; [done|].
  rewrite tagged_snoc, collect_snoc, fmap_app, IH. simpl.
  apply groupsPush_new. rewrite <- list_fmap_compose.
  change (fst ∘ _) with (@fst nat ProjectedPoint).
  rewrite tagged_fst_id. intros Hin%elem_of_seq. lia.
Qed.

Lemma sortByKey_tagged_id (l : list ProjectedPoint) :
  sortByKey (fun kg : nat * list ProjectedPoint => N.of_nat kg.1)
            ((fun rp => (rp.1, [rp.2])) <$> tagged (fun i => i) l)
  = (fun rp => (rp.1, [rp.2])) <$> tagged (fun i => i) l.
Proof.
  induction l as [|p l IH] using rev_ind; [done|].
  rewrite tagged_snoc, fmap_app. simpl. rewrite sortByKey_snoc, IH.
  apply insertByKey_last, Forall_forall. intros [k g] Hin. simpl.
  assert (Hk : k ∈ ((fun rp : nat * ProjectedPoint => (rp.1, [rp.2]))
                      <$> tagged (fun i => i) l).*1)
    by (apply list_elem_of_fmap; by exists (k, g)).
  rewrite <- list_fmap_compose in Hk.
  change (fst ∘ _) with (@fst nat ProjectedPoint) in Hk.
  rewrite tagged_fst_id in Hk. apply elem_of_seq in Hk. lia.
Qed.

Lemma groupsValues_tagged_id (l : list ProjectedPoint) :
  groupsValues (collect (tagged (fun i => i) l)) = (fun p => [p]) <$> l.
Proof.
  unfold groupsValues. rewrite collect_tagged_id, sortByKey_tagged_id.
  rewrite <- list_fmap_compose.
  rewrite <- (tagged_snd (fun i => i) l) at 2.
  by rewrite <- list_fmap_compose.
Qed.

Lemma mapM_buildEntity_singles (l : list ProjectedPoint) :
  mapM buildEntity ((fun p => [p]) <$> l) = Done (Single <$> l).
Proof. induction l as [|p l IH]; csimpl; [done|]. by rewrite IH. Qed.

Lemma groupPass_new :
  exists uf', groupPass pts (new (length pts))
              = Done (uf', collect (tagged (fun i => i) pts)).
Proof.
  destruct (groupPass_spec pts (new (length pts))) as (uf' & E).
  - apply forest_new.
  - unfold new. by rewrite length_seq.
  - exists uf'. rewrite E. do 3 f_equal. apply tagged_ext.
    intros i Hi. by apply rootFn_new.
Qed.

End NoNearPairs.

(** * The entities of the output *)

Lemma buildEntity_total (g : list ProjectedPoint) :
  g <> [] -> exists e, buildEntity g = Done e.
Proof. destruct g as [|p [|q g]]; [done | by eexists..]. Qed.

Lemma mapM_total {A B} (f : A -> result B) (l : list A) :
  Forall (fun a => exists b, f a = Done b) l ->
  exists bs, mapM f l = Done bs /\ Forall2 (fun a b => f a = Done b) l bs.
Proof.
  induction 1 as [|a l [b Hb] _ (bs & E & HF)]; simpl.
  - exists []. by split.
  - exists (b :: bs). rewrite Hb. simpl. rewrite E. simpl.
    split; [done | by constructor].
Qed.

(** The whole pass returns: every group of the partition yields one entity. *)
Lemma clustersWith_spec project r props rawData :
  exists root entities,
    groupsWith project r props rawData
    = Done (groupsValues (collect (tagged root
              (projectedPoints project props rawData))))
    /\ clustersWith project r props rawData = Done entities
    /\ Forall2 (fun g e => buildEntity g = Done e)
         (groupsValues (collect (tagged root
            (projectedPoints project props rawData)))) entities
    /\ forall i j, i < length rawData -> j < length rawData ->
         (root i = root j
          <-> connected r (projectedPoints project props rawData) i j).
Proof.
  destruct (groupsWith_spec project props rawData r) as (root & E & Hroot).
  destruct (mapM_total buildEntity
              (groupsValues (collect (tagged root
                 (projectedPoints project props rawData)))))
    as (entities & Em & HF).
  { apply Forall_forall. intros g Hg. apply buildEntity_total.
    by eapply groupsValues_nonempty. }
  exists root, entities. split; [done|]. split.
  - unfold clustersWith. rewrite E. simpl. exact Em.
  - split; [done|]. intros i j Hi Hj.
    apply Hroot; by rewrite length_projectedPoints.
Qed.

Lemma clustersWith_apart project r props rawData :
  (forall i j, i < j -> j < length rawData ->
     ~ near r (projectedPoints project props rawData) i j) ->
  groupsWith project r props rawData
  = Done ((fun p => [p]) <$> projectedPoints project props rawData)
  /\ clustersWith project r props rawData
     = Done (Single <$> projectedPoints project props rawData).
Proof.
  intros Hap. unfold clustersWith, groupsWith.
  set (pts := projectedPoints project props rawData) in *.
  destruct (Nat.eqb_spec (length pts) 0) as [Hz | Hnz].
  - apply nil_length_inv in Hz. by rewrite Hz.
  - assert (Hap' : forall i j, i < j -> j < length pts -> ~ near r pts i j).
    { intros i j Hij Hj. apply Hap; [done|].
      unfold pts in Hj. by rewrite length_projectedPoints in Hj. }
    rewrite (unionPass_apart r pts Hap'). simpl.
    destruct (groupPass_new pts) as (uf' & ->). simpl.
    rewrite groupsValues_tagged_id. split; [done|]. simpl.
    apply mapM_buildEntity_singles.
Qed.

(** * The claims about the radius and about NaN coordinates *)

(** C6, the claim as stated, fails: with radius 0 two points at the same
    place are merged (their distance 0 satisfies [<=]), with radius -1 they
    are not. *)
Lemma negative_radius_differs_from_zero :
  groupsWith flatProject zero exampleProps (twins "healthy" "healthy")
  <> groupsWith flatProject minusOne exampleProps (twins "healthy" "healthy").
Proof. vm_compute. discriminate. Qed.

(** C6, amended.  Under a negative radius no two distinct points share a
    group: the output is every point as its own Single, in input order.  A
    radius of 0 gives the same output exactly on inputs where no two points
    are at distance 0. *)
Theorem negative_radius_only_singles
  (project : ViewportProps -> number * number -> number * number)
  (r : number) (props : ViewportProps) (rawData : list RawPoint) :
  ltb r zero = true ->
  clustersWith project r props rawData
  = Done (Single <$> projectedPoints project props rawData)
  /\ (exists groups,
        groupsWith project r props rawData = Done groups
        /\ forall i j, i < length rawData -> j < length rawData ->
             sameGroup groups i j -> i = j)
  /\ ((forall i j, i < j -> j < length rawData ->
         ~ near zero (projectedPoints project props rawData) i j)
      <-> clustersWith project zero props rawData
          = clustersWith project r props rawData).
Proof.
  intros Hr.
  assert (Hap : forall i j, ~ near r (projectedPoints project props rawData) i j).
  { intros i j (pi & pj & _ & _ & H).
    by rewrite distance_negative_radius in H. }
  destruct (clustersWith_apart project r props rawData) as [Eg Ec];
    [intros; apply Hap|].
  split; [done|]. split.
  - destruct (groupsWith_spec project props rawData r) as (root & E & Hroot).
    eexists. split; [exact E|]. intros i j Hi Hj Hs.
    rewrite <- (length_projectedPoints project props rawData) in Hi, Hj.
    rewrite sameGroup_root in Hs; [| apply projectedPoints_index | done..].
    apply Hroot in Hs; [|done..].
    apply rtc_inv in Hs as [-> | (z & Hn & _)]; [done|]. by apply Hap in Hn.
  - split.
    + intros H0. destruct (clustersWith_apart project zero props rawData H0)
        as [_ ->]. by rewrite Ec.
    + intros Heq i j Hij Hj Hnear.
      destruct (clustersWith_spec project zero props rawData)
        as (root & entities & Eg0 & Ec0 & HF & Hroot).
      rewrite Ec0, Ec in Heq. injection Heq as ->.
      set (pts := projectedPoints project props rawData) in *.
      assert (Hs : sameGroup (groupsValues (collect (tagged root pts))) i j).
      { apply sameGroup_root; [apply projectedPoints_index | | |];
          [unfold pts; rewrite length_projectedPoints; lia..|].
        apply Hroot; [lia | done |]. by apply rtc_once. }
      destruct Hs as (g & Hg & Hi' & Hj').
      apply list_elem_of_lookup in Hg as [n Hg].
      destruct (Forall2_lookup_l _ _ _ _ _ HF Hg) as (e & He & Hb).
      apply list_lookup_fmap_Some in He as (p & -> & Hp).
      destruct g as [|q [|q' g]]; simpl in Hb; try done.
      injection Hb as ->.
      apply list_elem_of_singleton in Hi', Hj'. lia.
Qed.

Lemma negative_radius_only_singles_witness :
  ltb minusOne zero = true
  /\ clustersWith flatProject minusOne exampleProps chainData
     = Done (Single <$> projectedPoints flatProject exampleProps chainData).
Proof.
  split; [reflexivity|].
  destruct (negative_radius_only_singles flatProject minusOne exampleProps
              chainData) as [H _]; [reflexivity | exact H].
Defined.

Lemma all_equal_NoDup {A} (a : A) (l : list A) :
  NoDup l -> l <> [] -> (forall x, x ∈ l -> x = a) -> l = [a].
Proof.
  intros Hnd Hne Hall. destruct l as [|x [|y l]]; [done | |].
  - f_equal. apply Hall. by left.
  - exfalso. apply NoDup_cons in Hnd as [Hx _]. apply Hx.
    rewrite (Hall x) by (by left).
    rewrite (Hall y) by (right; by left). by left.
Qed.

(** A point whose screen coordinates are not numbers, in a run whose
    projector is a function: the pass returns, the point is near nothing and
    alone in its group, it comes out as a Single, every entity is built from
    its group, and the other points are grouped by the chains that avoid
    it. *)
Lemma nan_screen_point_alone
  (project : ViewportProps -> number * number -> number * number)
  (r : number) (props : ViewportProps) (rawData : list RawPoint)
  (k : nat) (pk : ProjectedPoint) :
  projectedPoints project props rawData !! k = Some pk ->
  isNaN (screenX pk) || isNaN (screenY pk) = true ->
  exists entities groups,
    clustersWith project r props rawData = Done entities
    /\ groupsWith project r props rawData = Done groups
    /\ Forall2 (fun g e => buildEntity g = Done e) groups entities
    /\ (forall j, ~ near r (projectedPoints project props rawData) k j
                  /\ ~ near r (projectedPoints project props rawData) j k)
    /\ (forall j, j < length rawData -> sameGroup groups k j -> j = k)
    /\ [pk] ∈ groups
    /\ Single pk ∈ entities
    /\ (forall i j, i < length rawData -> j < length rawData ->
          i <> k -> j <> k ->
          (sameGroup groups i j
           <-> rtc (fun a b => a <> k /\ b <> k
                     /\ near r (projectedPoints project props rawData) a b)
                   i j)).
Proof.
  intros Hpk Hscreen.
  set (pts := projectedPoints project props rawData) in *.
  destruct (clustersWith_spec project r props rawData)
    as (root & entities & Eg & Ec & HF & Hroot).
  fold pts in Eg, HF, Hroot.
  set (groups := groupsValues (collect (tagged root pts))) in *.
  assert (Hidx : forall i p, pts !! i = Some p -> index p = i)
    by apply projectedPoints_index.
  assert (Hlen : length pts = length rawData) by apply length_projectedPoints.
  assert (Hkl : k < length pts) by (by eapply lookup_lt_Some).
  assert (Hfar : forall j, ~ near r pts k j /\ ~ near r pts j k).
  { intros j. split.
    - intros (p & q & Hp & _ & H). assert (p = pk) as -> by congruence.
      by rewrite distance_NaN_l in H.
    - intros (q & p & _ & Hp & H). assert (p = pk) as -> by congruence.
      by rewrite distance_NaN_r in H. }
  assert (Halone : forall j, j < length pts -> root k = root j -> j = k).
  { intros j Hj H. apply Hroot in H; [|lia..].
    apply rtc_inv in H as [-> | (z & Hn & _)]; [done|]. by apply Hfar in Hn. }
  assert (Hgk : [pk] ∈ groups).
  { assert (Hin : pk ∈ members (root k) (tagged root pts)).
    { apply elem_of_members, elem_of_tagged. by exists k. }
    assert (Hg : members (root k) (tagged root pts) ∈ groups).
    { apply elem_of_groupsValues. exists (root k). split; [done|].
      intros Hnil. rewrite Hnil in Hin. by apply elem_of_nil in Hin. }
    rewrite <- (all_equal_NoDup pk (members (root k) (tagged root pts))); [done| | |].
    - eapply sublist_NoDup; [apply projectedPoints_NoDup|].
      by apply (groupsValues_sublist root).
    - intros Hnil. rewrite Hnil in Hin. by apply elem_of_nil in Hin.
    - intros q Hq. apply elem_of_members, elem_of_tagged in Hq as (j & Hj & Hrj).
      assert (j = k) as ->; [|congruence].
      apply Halone; [by eapply lookup_lt_Some | done]. }
  exists entities, groups. unfold groups in *.
  split; [done|]. split; [done|]. split; [done|]. split; [done|].
  split; [|split; [done|split]].
  - intros j Hj Hs. apply sameGroup_root in Hs; [|done|lia..].
    apply Halone; [lia | done].
  - apply list_elem_of_lookup in Hgk as [n Hn].
    destruct (Forall2_lookup_l _ _ _ _ _ HF Hn) as (e & He & Hb).
    simpl in Hb. injection Hb as <-. by eapply list_elem_of_lookup_2.
  - intros i j Hi Hj Hik' Hjk. rewrite sameGroup_root by (done || lia).
    rewrite Hroot by done. unfold connected. split.
    + intros H. induction H as [|a b c Hab _ IH]; [done|].
      assert (Hbk : b <> k) by (intros ->; by apply Hfar in Hab).
      assert (Hb : b < length rawData) by (apply near_lt in Hab as [_ ?]; lia).
      eapply rtc_l; [|by apply IH]. done.
    + intros H. induction H as [|a b c (_ & Hbk & Hab) _ IH]; [done|].
      assert (Hb : b < length rawData) by (apply near_lt in Hab as [_ ?]; lia).
      eapply rtc_l; [done|]. by apply IH.
Qed.

(** Where the projector returns for every point, the projection is the one
    of the function it computes. *)
Lemma projectFrom_returns (project : Throwing.Projector)
  (props : ViewportProps) (rawData : list RawPoint) (i : nat) :
  Forall (fun point =>
            exists xy, project props (longitude (location point),
                                      latitude (location point))
                       = Throwing.Return xy) rawData ->
  Throwing.projectFrom project props i rawData
  = Throwing.Return
      (imap (fun index point =>
               let '(x, y) := Throwing.totalize project props
                                (longitude (location point),
                                 latitude (location point)) in
               {| point := point; index := i + index;
                  screenX := x; screenY := y |}) rawData).
Proof.
  intros H. revert i. induction H as [|point rest [[x y] Hxy] _ IH]; intros i.
  - done.
  - rewrite imap_cons. simpl. unfold Throwing.totalize at 1.
    rewrite Hxy, (IH (S i)). rewrite Nat.add_0_r. f_equal. f_equal.
    apply imap_ext. intros j q _. simpl.
    destruct (Throwing.totalize project props _). f_equal. lia.
Qed.

Lemma projectedPoints_returns (project : Throwing.Projector)
  (props : ViewportProps) (rawData : list RawPoint) :
  Forall (fun point =>
            exists xy, project props (longitude (location point),
                                      latitude (location point))
                       = Throwing.Return xy) rawData ->
  Throwing.projectedPoints project props rawData
  = Throwing.Return
      (projectedPoints (Throwing.totalize project) props rawData).
Proof.
  intros H. unfold Throwing.projectedPoints.
  by rewrite (projectFrom_returns project props rawData 0 H).
Qed.

(** The pass throws only through the projector, with the error of the first
    point the projector throws at. *)
Lemma projectFrom_throws (project : Throwing.Projector)
  (props : ViewportProps) (rawData : list RawPoint) (i : nat) (error : string) :
  Throwing.projectFrom project props i rawData = Throwing.Throw error
  <-> exists before point rest,
        rawData = before ++ point :: rest
        /\ Forall (fun q =>
                     exists xy, project props (longitude (location q),
                                               latitude (location q))
                                = Throwing.Return xy) before
        /\ project props (longitude (location point),
                          latitude (location point))
           = Throwing.Throw error.
Proof.
  revert i. induction rawData as [|p rawData IH]; intros i.
  - split; [done|]. intros (before & point & rest & H & _).
    by destruct before.
  - simpl.
    destruct (project props (longitude (location p), latitude (location p)))
      as [[x y] | e] eqn:Ep.
    + specialize (IH (S i)).
      destruct (Throwing.projectFrom project props (S i) rawData) as [pts | e'].
      * split; [done|]. intros (before & point & rest & H & HF & Ht).
        destruct before as [|q before]; simplify_eq/=; [congruence|].
        apply Forall_cons in HF as [_ HF].
        assert (Hn : @Throwing.Return (list ProjectedPoint) pts
                     = Throwing.Throw error); [|done].
        apply IH. by exists before, point, rest.
      * split.
        -- intros [= ->]. destruct IH as [IH _].
           destruct (IH eq_refl) as (before & point & rest & -> & HF & Ht).
           exists (p :: before), point, rest. split; [done|].
           split; [|done]. apply Forall_cons. split; [by eexists | done].
        -- intros (before & point & rest & H & HF & Ht).
           destruct before as [|q before]; simplify_eq/=; [congruence|].
           apply Forall_cons in HF as [_ HF]. apply IH.
           by exists before, point, rest.
    + split.
      * intros [= ->]. exists [], p, rawData. by repeat split.
      * intros (before & point & rest & H & HF & Ht).
        destruct before as [|q before]; simplify_eq/=; [congruence|].
        apply Forall_cons in HF as [[xy Hq] _]. congruence.
Qed.

(** The projector that throws on a longitude that is not a number ends the
    whole pass: the claim that a point with such a longitude never makes the
    engine raise fails at three points of which the middle one is broken,
    although the two others alone are clustered without an error. *)
Lemma projector_throw_ends_the_pass :
  (exists raw, brokenData !! 1 = Some raw
               /\ isNaN (longitude (location raw)) = true)
  /\ Throwing.clusters strictProject exampleProps brokenData
     = Throwing.Throw "invalid coordinates"
  /\ ~ (exists entities,
          Throwing.clusters strictProject exampleProps brokenData
          = Throwing.Return (Done entities))
  /\ exists p0 p2,
       Throwing.clusters strictProject exampleProps
         [pointAt 0 0 "healthy"; pointAt 10 0 "healthy"]
       = Throwing.Return (Done [Cluster
           {| id := "cluster-0-1";
              clusterLocation := p0;
              clusterMetadata := p2 |}]).
Proof.
  split; [eexists; split; reflexivity|].
  split; [reflexivity|]. split.
  - intros [entities H]. discriminate H.
  - eexists _, _. vm_compute. reflexivity.
Qed.

(** C7, amended.  The pass has no guard of its own against a point that is
    not a number: where the projector throws, the pass throws.  Where the
    projector returns for every point and gives a point screen coordinates
    that are not numbers (the case of a NaN longitude or latitude under a
    projector that passes NaN through), the pass returns, the point is near
    no point and shares a group with none, it comes out as a Single, every
    entity is the one built from its group, and the other points are grouped
    by the chains that avoid it. *)
Theorem nan_point_is_single
  (project : Throwing.Projector)
  (r : number) (props : ViewportProps) (rawData : list RawPoint)
  (k : nat) (raw : RawPoint) (x y : number) :
  Forall (fun point =>
            exists xy, project props (longitude (location point),
                                      latitude (location point))
                       = Throwing.Return xy) rawData ->
  rawData !! k = Some raw ->
  project props (longitude (location raw), latitude (location raw))
  = Throwing.Return (x, y) ->
  isNaN x || isNaN y = true ->
  exists pts entities groups pk,
    Throwing.projectedPoints project props rawData = Throwing.Return pts
    /\ Throwing.clustersWith project r props rawData
       = Throwing.Return (Done entities)
    /\ Throwing.groupsWith project r props rawData
       = Throwing.Return (Done groups)
    /\ Forall2 (fun g e => buildEntity g = Done e) groups entities
    /\ pts !! k = Some pk
    /\ point pk = raw /\ index pk = k /\ screenX pk = x /\ screenY pk = y
    /\ (forall j, ~ near r pts k j /\ ~ near r pts j k)
    /\ (forall j, j < length rawData -> sameGroup groups k j -> j = k)
    /\ [pk] ∈ groups
    /\ Single pk ∈ entities
    /\ (forall i j, i < length rawData -> j < length rawData ->
          i <> k -> j <> k ->
          (sameGroup groups i j
           <-> rtc (fun a b => a <> k /\ b <> k /\ near r pts a b) i j)).
Proof.
  intros Hret Hk Hxy Hnan.
  pose proof (projectedPoints_returns project props rawData Hret) as Epts.
  set (total := Throwing.totalize project) in *.
  set (pk := {| point := raw; index := k; screenX := x; screenY := y |}).
  assert (Hpk : projectedPoints total props rawData !! k = Some pk).
  { unfold projectedPoints. rewrite list_lookup_imap, Hk. simpl.
    unfold total, Throwing.totalize. by rewrite Hxy. }
  destruct (nan_screen_point_alone total r props rawData k pk Hpk Hnan)
    as (entities & groups & Ec & Eg & HF & Hfar & Halone & Hg & He & Hrest).
  exists (projectedPoints total props rawData), entities, groups, pk.
  split; [exact Epts|].
  split; [unfold Throwing.clustersWith; rewrite Epts; f_equal; exact Ec|].
  split; [unfold Throwing.groupsWith; rewrite Epts; f_equal; exact Eg|].
  split; [exact HF|]. split; [exact Hpk|].
  split; [done|]. split; [done|]. split; [done|]. split; [done|].
  split; [exact Hfar|]. split; [exact Halone|].
  split; [exact Hg|]. split; [exact He | exact Hrest].
Qed.

(** The broken point of three, under a projector that passes everything
    through. *)
Lemma nan_point_is_single_witness :
  exists pts entities groups pk,
    Throwing.projectedPoints (Throwing.returning flatProject) exampleProps
      brokenData = Throwing.Return pts
    /\ Throwing.clustersWith (Throwing.returning flatProject) clusterRadius
         exampleProps brokenData = Throwing.Return (Done entities)
    /\ Forall2 (fun g e => buildEntity g = Done e) groups entities
    /\ pts !! 1 = Some pk
    /\ [pk] ∈ groups /\ Single pk ∈ entities.
Proof.
  destruct (nan_point_is_single (Throwing.returning flatProject) clusterRadius
              exampleProps brokenData
              1 {| location := {| latitude := ofNat 0; longitude := NaN |};
                   name := "broken"; metadata := {| status := "healthy" |} |}
              NaN (ofNat 0))
    as (pts & entities & groups & pk & Ep & Ec & _ & HF & Hpk & _ & _ & _ & _
        & _ & _ & Hg & He & _).
  - repeat (apply Forall_cons; split; [by eexists|]). apply Forall_nil_2.
  - reflexivity.
  - reflexivity.
  - reflexivity.
  - exists pts, entities, groups, pk. repeat split; assumption.
Defined.

(** * The status counts of a cluster *)
Section StatusFacts.

Import JSObject.
Implicit Types (o : JSObject.t) (k s : string) (l : list string).

Lemma getOwn_setOwn o k v k' :
  getOwn (setOwn o k v) k' = if decide (k' = k) then Some v else getOwn o k'.
Proof.
  induction o as [|[k0 v0] o IH]; simpl.
  - destruct (String.eqb_spec k k'), (decide (k' = k)); done || congruence.
  - destruct (String.eqb_spec k0 k) as [-> | Hne]; simpl.
    + destruct (String.eqb_spec k k'), (decide (k' = k)); done || congruence.
    + rewrite IH.
      destruct (String.eqb_spec k0 k'), (decide (k' = k)); done || congruence.
Qed.

Lemma setOwn_keys o k v :
  (setOwn o k v).*1 = if decide (k ∈ o.*1) then o.*1 else o.*1 ++ [k].
Proof.
  induction o as [|[k0 v0] o IH]; csimpl; [done|].
  destruct (String.eqb_spec k0 k) as [-> | Hne]; csimpl.
  - rewrite decide_True; [done|]. by left.
  - rewrite IH. destruct (decide (k ∈ o.*1)) as [Hin | Hn].
    + rewrite decide_True; [done|]. by right.
    + rewrite decide_False; [done|]. intros [-> | ?]%elem_of_cons; done.
Qed.

Lemma getOwn_None o k : getOwn o k = None <-> k ∉ o.*1.
Proof.
  induction o as [|[k0 v0] o IH]; csimpl.
  - split; [intros _; apply not_elem_of_nil | done].
  - destruct (String.eqb_spec k0 k) as [-> | Hne].
    + split; [done|]. intros H. exfalso. apply H. by left.
    + rewrite IH, not_elem_of_cons. intuition congruence.
Qed.

Lemma occurrences_snoc s l x :
  occurrences s (l ++ [x])
  = if decide (x = s) then S (occurrences s l) else occurrences s l.
Proof.
  unfold occurrences. rewrite filter_app, length_app.
  destruct (decide (x = s)) as [-> | Hne].
  - rewrite filter_cons_True by done. simpl. lia.
  - rewrite filter_cons_False by done. simpl. lia.
Qed.

Lemma occurrences_pos s l : 0 < occurrences s l <-> s ∈ l.
Proof.
  unfold occurrences. split.
  - intros H. destruct (filter (fun s' => s' = s) l) as [|x f] eqn:E;
      [simpl in H; lia|].
    assert (Hx : x ∈ filter (fun s' => s' = s) l) by (rewrite E; by left).
    apply list_elem_of_filter in Hx as [-> ?]. done.
  - intros Hin.
    assert (Hx : s ∈ filter (fun s' => s' = s) l) by (by apply list_elem_of_filter).
    destruct (filter (fun s' => s' = s) l); [by apply elem_of_nil in Hx|].
    simpl. lia.
Qed.

Lemma tallyStatuses_snoc l x :
  tallyStatuses (l ++ [x]) = increment (tallyStatuses l) x.
Proof. unfold tallyStatuses. by rewrite foldl_app. Qed.

Lemma plainStatus_inherited s : plainStatus s = true -> inherited s = None.
Proof. unfold plainStatus. by destruct (arrayIndex s), (inherited s). Qed.

Lemma plainStatus_arrayIndex s : plainStatus s = true -> arrayIndex s = None.
Proof. unfold plainStatus. by destruct (arrayIndex s), (inherited s). Qed.

(** Over plain statuses the object is a frequency table. *)
Lemma tallyStatuses_get l s :
  Forall (fun x => plainStatus x = true) l ->
  getOwn (tallyStatuses l) s
  = match occurrences s l with 0 => None | n => Some (VNum n) end.
Proof.
  induction l as [|x l IH] using rev_ind; intros Hl; [done|].
  apply Forall_app in Hl as [Hl Hx]. rewrite Forall_singleton in Hx.
  rewrite tallyStatuses_snoc, occurrences_snoc. unfold increment.
  pose proof (IH Hl) as IHs. clear IH.
  destruct (getOwn (tallyStatuses l) x) as [v|] eqn:Ex.
  - rewrite getOwn_setOwn. destruct (decide (s = x)) as [-> | Hne].
    + rewrite decide_True by done. rewrite Ex in IHs.
      destruct (occurrences x l) as [|n]; [done|]. injection IHs as ->.
      simpl. do 2 f_equal. lia.
    + rewrite decide_False by done. exact IHs.
  - rewrite (plainStatus_inherited _ Hx), getOwn_setOwn.
    destruct (decide (s = x)) as [-> | Hne].
    + rewrite decide_True by done. rewrite Ex in IHs.
      by destruct (occurrences x l).
    + rewrite decide_False by done. exact IHs.
Qed.

Lemma tallyStatuses_keys_snoc l x :
  plainStatus x = true ->
  (tallyStatuses (l ++ [x])).*1
  = if decide (x ∈ (tallyStatuses l).*1) then (tallyStatuses l).*1
    else (tallyStatuses l).*1 ++ [x].
Proof.
  intros Hx. rewrite tallyStatuses_snoc. unfold increment.
  destruct (getOwn (tallyStatuses l) x) as [v|] eqn:Ex.
  - apply setOwn_keys.
  - rewrite (plainStatus_inherited _ Hx). apply setOwn_keys.
Qed.

Lemma tallyStatuses_elem_of l s :
  Forall (fun x => plainStatus x = true) l ->
  s ∈ (tallyStatuses l).*1 <-> s ∈ l.
Proof.
  intros Hl. rewrite <- (occurrences_pos s l).
  destruct (decide (s ∈ (tallyStatuses l).*1)) as [Hin | Hn].
  - split; [intros _ | done].
    destruct (getOwn (tallyStatuses l) s) eqn:E.
    + rewrite tallyStatuses_get in E by done.
      destruct (occurrences s l); [done | lia].
    + apply getOwn_None in E. done.
  - split; [done|]. intros Hpos. exfalso.
    apply getOwn_None in Hn. rewrite tallyStatuses_get in Hn by done.
    destruct (occurrences s l); [lia | done].
Qed.

Lemma tallyStatuses_NoDup l :
  Forall (fun x => plainStatus x = true) l -> NoDup (tallyStatuses l).*1.
Proof.
  induction l as [|x l IH] using rev_ind; intros Hl; [apply NoDup_nil_2|].
  apply Forall_app in Hl as [Hl Hx]. rewrite Forall_singleton in Hx.
  rewrite tallyStatuses_keys_snoc by done.
  destruct (decide (x ∈ (tallyStatuses l).*1)); [by apply IH|].
  apply NoDup_app. split; [by apply IH|]. split; [|apply NoDup_singleton].
  intros y Hy Hy'. apply list_elem_of_singleton in Hy' as ->. done.
Qed.

(** Counting more statuses only appends keys. *)
Lemma tallyStatuses_keys_prefix l l' :
  Forall (fun x => plainStatus x = true) l' ->
  exists rest, (tallyStatuses (l ++ l')).*1 = (tallyStatuses l).*1 ++ rest.
Proof.
  induction l' as [|x l' IH] using rev_ind; intros Hl'.
  - exists []. by rewrite !app_nil_r.
  - apply Forall_app in Hl' as [Hl' Hx]. rewrite Forall_singleton in Hx.
    destruct (IH Hl') as [rest E].
    rewrite app_assoc, tallyStatuses_keys_snoc, E by done.
    destruct (decide (x ∈ (tallyStatuses l).*1 ++ rest)).
    + by exists rest.
    + exists (rest ++ [x]). by rewrite app_assoc.
Qed.

(** Plain keys are enumerated in creation order. *)
Lemma keys_plain (kvs : list (string * value)) :
  Forall (fun kv => plainStatus kv.1 = true) kvs -> keys kvs = kvs.*1.
Proof.
  intros Ho. rename kvs into o. unfold keys.
  assert (Hidx : Forall (fun kv => isIndex kv = false) o).
  { eapply Forall_impl; [exact Ho|]. intros [k v] Hk. unfold isIndex.
    simpl in *. by rewrite (plainStatus_arrayIndex _ Hk). }
  clear Ho.
  assert (H1 : filter (fun kv => isIndex kv = true) o = []).
  { induction Hidx as [|kv o Hkv _ IH]; [done|].
    rewrite filter_cons_False by (by rewrite Hkv). exact IH. }
  assert (H2 : filter (fun kv => isIndex kv = false) o = o).
  { induction Hidx as [|kv o Hkv _ IH]; [done|].
    rewrite filter_cons_True by done. f_equal. apply IH.
    by rewrite filter_cons_False in H1 by (by rewrite Hkv). }
  by rewrite H1, H2.
Qed.

End StatusFacts.

(** * The dominant status *)
Section DominantFacts.

Import JSObject.

(** A left-to-right scan with a strict comparison stops on the first key
    of maximal count. *)
Lemma foldl_first_max (c : string -> nat) (d0 : string) (ks : list string) :
  ks <> [] -> (forall s, s ∈ ks -> 0 < c s) ->
  exists d l1 l2,
    foldl (fun st s => if st.2 <? c s then (s, c s) else st) (d0, 0) ks = (d, c d)
    /\ ks = l1 ++ d :: l2
    /\ (forall s, s ∈ l1 -> c s < c d)
    /\ (forall s, s ∈ l2 -> c s <= c d).
Proof.
  induction ks as [|x ks IH] using rev_ind; intros Hne Hpos; [done|].
  rewrite foldl_app. simpl.
  destruct ks as [|y ks'].
  - simpl. assert (Hx : 0 < c x) by (apply Hpos; by left).
    apply Nat.ltb_lt in Hx as ->.
    exists x, [], []. split; [done|]. split; [done|].
    split; intros s Hs; by apply elem_of_nil in Hs.
  - destruct IH as (d & l1 & l2 & E & Hks & H1 & H2); [done| |].
    { intros s Hs. apply Hpos. apply elem_of_app. by left. }
    rewrite E. simpl. destruct (Nat.ltb_spec (c d) (c x)) as [Hlt | Hge].
    + exists x, (y :: ks'), []. split; [done|]. split; [done|]. split.
      * intros s Hs. rewrite Hks in Hs.
        apply elem_of_app in Hs as [Hs | [-> | Hs]%elem_of_cons].
        -- specialize (H1 s Hs). lia.
        -- done.
        -- specialize (H2 s Hs). lia.
      * intros s Hs. by apply elem_of_nil in Hs.
    + exists d, l1, (l2 ++ [x]). split; [done|]. split.
      * change (y :: ks' ++ [x]) with ((y :: ks') ++ [x]).
        rewrite Hks. by rewrite <- app_assoc.
      * split; [done|]. intros s [Hs | ->%list_elem_of_singleton]%elem_of_app;
          [by apply H2 | done].
Qed.

Lemma foldl_ext_elem {A B} (f g : A -> B -> A) (a : A) (l : list B) :
  (forall st x, x ∈ l -> f st x = g st x) -> foldl f a l = foldl g a l.
Proof.
  revert a. induction l as [|x l IH]; intros a H; simpl; [done|].
  rewrite H by (by left). apply IH. intros st y Hy. apply H. by right.
Qed.

Lemma dominantStep_plain l st s :
  Forall (fun x => plainStatus x = true) l -> s ∈ l ->
  dominantStep (tallyStatuses l) st s
  = if st.2 <? occurrences s l then (s, occurrences s l) else st.
Proof.
  intros Hl Hs. unfold dominantStep. rewrite tallyStatuses_get by done.
  apply occurrences_pos in Hs. destruct (occurrences s l) as [|n]; [lia|].
  simpl. done.
Qed.

Lemma tallyStatuses_plain_values l :
  Forall (fun x => plainStatus x = true) l ->
  Forall (fun kv : string * value => plainStatus kv.1 = true) (tallyStatuses l).
Proof.
  intros Hl. apply Forall_forall. intros [k v] Hin. simpl.
  assert (Hk : k ∈ (tallyStatuses l).*1)
    by (apply list_elem_of_fmap; by exists (k, v)).
  rewrite tallyStatuses_elem_of in Hk by done.
  rewrite Forall_forall in Hl. by apply Hl.
Qed.

Lemma prefix_before {A} (a rest k1 k2 : list A) (d : A) :
  a ++ rest = k1 ++ d :: k2 -> d ∉ a -> exists k1', k1 = a ++ k1'.
Proof.
  revert k1. induction a as [|x a IH]; intros k1 E Hd; [by exists k1|].
  apply not_elem_of_cons in Hd as [Hne Hd].
  destruct k1 as [|y k1]; simpl in E; injection E as -> E; [done|].
  destruct (IH k1 E Hd) as [k1' ->]. by exists k1'.
Qed.

Lemma find_first {A} (P : A -> bool) (l1 l2 : list A) (d : A) :
  (forall x, x ∈ l1 -> P x = false) -> P d = true ->
  List.find P (l1 ++ d :: l2) = Some d.
Proof.
  intros H1 Hd. induction l1 as [|x l1 IH]; simpl; [by rewrite Hd|].
  rewrite H1 by (by left). apply IH. intros y Hy. apply H1. by right.
Qed.

(** Over plain statuses the scan of [Object.keys] returns the status of the
    first member whose status has the highest count. *)
Lemma dominant_firstTied (d0 : string) (l : list string) :
  l <> [] -> Forall (fun x => plainStatus x = true) l ->
  firstTied l = Some (dominant d0 (tallyStatuses l)).
Proof.
  intros Hne Hl. unfold dominant.
  rewrite (keys_plain _ (tallyStatuses_plain_values l Hl)).
  assert (Hkeys : forall s, s ∈ (tallyStatuses l).*1 <-> s ∈ l)
    by (intros s; by apply tallyStatuses_elem_of).
  rewrite (foldl_ext_elem _
             (fun st s => if st.2 <? occurrences s l
                          then (s, occurrences s l) else st));
    [|intros st s Hs; apply dominantStep_plain; [done | by apply Hkeys]].
  destruct (foldl_first_max (fun s => occurrences s l) d0 (tallyStatuses l).*1)
    as (d & K1 & K2 & E & HK & H1 & H2).
  { destruct l as [|x l']; [done|]. intros Hnil.
    assert (Hx : x ∈ (tallyStatuses (x :: l')).*1) by (apply Hkeys; by left).
    rewrite Hnil in Hx. by apply elem_of_nil in Hx. }
  { intros s Hs. apply occurrences_pos. by apply Hkeys. }
  rewrite E. simpl.
  assert (Hd : d ∈ l).
  { apply Hkeys. rewrite HK. apply elem_of_app. right. by left. }
  assert (Hmax : forall s, s ∈ l -> occurrences s l <= occurrences d l).
  { intros s Hs. apply Hkeys in Hs. rewrite HK in Hs.
    apply elem_of_app in Hs as [Hs | [-> | Hs]%elem_of_cons].
    - specialize (H1 s Hs). simpl in H1. lia.
    - done.
    - by apply H2. }
  apply list_elem_of_split_l in Hd as (L1 & L2 & -> & HdL1).
  apply find_first.
  - intros s Hs.
    apply Forall_app in Hl as [HL1 HL2].
    destruct (tallyStatuses_keys_prefix L1 (d :: L2) HL2) as [rest Hrest].
    rewrite Hrest in HK.
    destruct (prefix_before _ _ _ _ _ HK) as [K1' ->].
    { by rewrite tallyStatuses_elem_of. }
    assert (Hlt : occurrences s (L1 ++ d :: L2) < occurrences d (L1 ++ d :: L2)).
    { apply H1. apply elem_of_app. left. by apply tallyStatuses_elem_of. }
    apply not_true_is_false. intros Hall.
    rewrite forallb_forall in Hall.
    specialize (Hall d). rewrite Nat.leb_le in Hall.
    assert (List.In d (L1 ++ d :: L2)).
    { apply list_elem_of_In, elem_of_app. right. by left. }
    specialize (Hall H). lia.
  - apply forallb_forall. intros s Hs%list_elem_of_In.
    apply Nat.leb_le. by apply Hmax.
Qed.

End DominantFacts.

(** C3, the claim as stated, fails: statuses that read as array indices are
    enumerated in ascending numeric order, whatever the order of the members.
    Two members with statuses "2" then "1" are tied; the first member has
    status "2", the dominant status is "1". *)
Lemma tie_break_fails_on_index_statuses :
  exists c,
    clusters flatProject exampleProps (twins "2" "1") = Done [Cluster c]
    /\ JSObject.getOwn (statusCounts (clusterMetadata c)) "2" = Some (JSObject.VNum 1)
    /\ JSObject.getOwn (statusCounts (clusterMetadata c)) "1" = Some (JSObject.VNum 1)
    /\ firstTied ((fun raw => status (metadata raw)) <$> twins "2" "1") = Some "2"
    /\ dominantStatus (clusterMetadata c) = "1".
Proof. eexists. split; [vm_compute; reflexivity|]. by vm_compute. Qed.

(** C3, amended.  When no status in the cluster reads as an array index or
    names an inherited property, [dominantStatus] is the status of the first
    member, in group iteration order, whose status has the highest count: on
    a tie the first member tied for the maximum decides. *)
Theorem dominantStatus_first_tied (group : list ProjectedPoint) (c : ClusterEntity) :
  buildEntity group = Done (Cluster c) ->
  Forall (fun s => plainStatus s = true) (statuses group) ->
  firstTied (statuses group) = Some (dominantStatus (clusterMetadata c)).
Proof.
  intros Hb Hplain. destruct group as [|p0 [|p1 group]]; [done..|].
  unfold buildEntity in Hb. injection Hb as <-. simpl dominantStatus.
  unfold tally. rewrite <- (foldl_fmap JSObject.increment).
  apply dominant_firstTied; done.
Qed.

(** The tie of the scenario: two healthy, two down for repairs, the first
    member down for repairs. *)
Lemma dominantStatus_first_tied_witness :
  exists c,
    buildEntity tiedGroup = Done (Cluster c)
    /\ JSObject.getOwn (statusCounts (clusterMetadata c)) "healthy"
       = Some (JSObject.VNum 2)
    /\ JSObject.getOwn (statusCounts (clusterMetadata c)) "down for repairs"
       = Some (JSObject.VNum 2)
    /\ firstTied (statuses tiedGroup) = Some (dominantStatus (clusterMetadata c))
    /\ dominantStatus (clusterMetadata c) = "down for repairs".
Proof.
  eexists. split; [reflexivity|]. split; [reflexivity|]. split; [reflexivity|].
  split; [|reflexivity].
  apply dominantStatus_first_tied; [reflexivity | repeat constructor].
Defined.

(** * The claims about unrecognized statuses and about the partition *)

Lemma tally_statuses (group : list ProjectedPoint) :
  tally group = tallyStatuses (statuses group).
Proof. unfold tally, tallyStatuses, statuses. by rewrite foldl_fmap. Qed.

(** C5, the claim as stated, fails: there is no [unknown] tag.  A status
    outside the three recognized ones is kept as it is, as a key of
    [statusCounts] and as [dominantStatus]. *)
Lemma unrecognized_status_is_not_mapped :
  exists c,
    clusters flatProject exampleProps (twins "offline" "offline")
    = Done [Cluster c]
    /\ statusCounts (clusterMetadata c) = [("offline", JSObject.VNum 2)]
    /\ JSObject.getOwn (statusCounts (clusterMetadata c)) "unknown" = None
    /\ dominantStatus (clusterMetadata c) = "offline".
Proof. eexists. split; [vm_compute; reflexivity|]. by vm_compute. Qed.

(** C5, amended.  A status outside the recognized enumeration is never
    mapped to another tag and never makes the aggregation fail: in a cluster
    whose statuses are plain texts, every status, recognized or not, is
    counted under its own text, the dominant status is one of the members'
    statuses, and only the colour functions send an unrecognized status to
    their default. *)
Theorem unrecognized_status_kept_verbatim (group : list ProjectedPoint) (s : string) :
  2 <= length group ->
  Forall (fun x => plainStatus x = true) (statuses group) ->
  exists c,
    buildEntity group = Done (Cluster c)
    /\ JSObject.getOwn (statusCounts (clusterMetadata c)) s
       = match occurrences s (statuses group) with
         | 0 => None
         | n => Some (JSObject.VNum n)
         end
    /\ dominantStatus (clusterMetadata c) ∈ statuses group
    /\ (s <> "healthy" -> s <> "predicted failure" -> s <> "down for repairs" ->
        getMarkerColor s = [40; 171; 160] /\ getStatusColorString s = "teal").
Proof.
  intros Hlen Hplain.
  destruct group as [|p0 [|p1 group]]; [simpl in Hlen; lia..|].
  eexists. split; [reflexivity|]. simpl statusCounts. simpl dominantStatus.
  rewrite tally_statuses. split; [by apply tallyStatuses_get|]. split.
  - pose proof (dominant_firstTied (status (metadata (point p0)))
                  (statuses (p0 :: p1 :: group))) as H.
    apply List.find_some in H as [H _]; [by apply list_elem_of_In | done | done].
  - intros H1 H2 H3. unfold getMarkerColor, getStatusColorString.
    apply String.eqb_neq in H1, H2, H3. by rewrite H1, H2, H3.
Qed.

Lemma unrecognized_status_kept_verbatim_witness :
  exists c,
    buildEntity (projectedPoints flatProject exampleProps
                   (twins "offline" "healthy")) = Done (Cluster c)
    /\ JSObject.getOwn (statusCounts (clusterMetadata c)) "offline"
       = Some (JSObject.VNum 1)
    /\ getStatusColorString "offline" = "teal".
Proof.
  destruct (unrecognized_status_kept_verbatim
              (projectedPoints flatProject exampleProps (twins "offline" "healthy"))
              "offline") as (c & E & Hget & _ & Hcol).
  - simpl. lia.
  - repeat constructor.
  - exists c. split; [exact E|]. split; [exact Hget|].
    apply Hcol; discriminate.
Defined.

(** X4.  The partition property of the pass, for every input and radius: the
    groups hold every projected point exactly once, each group yields one
    entity, a Single for a group of one and a Cluster whose [count] is the
    size of its group otherwise, and over plain statuses [statusCounts] counts
    every member once. *)
Theorem clusters_partition
  (project : ViewportProps -> number * number -> number * number)
  (r : number) (props : ViewportProps) (rawData : list RawPoint) :
  exists groups entities,
    groupsWith project r props rawData = Done groups
    /\ clustersWith project r props rawData = Done entities
    /\ concat groups ≡ₚ projectedPoints project props rawData
    /\ Forall2 (fun g e =>
         match e with
         | Single p => g = [p]
         | Cluster c =>
             2 <= length g /\ count (clusterMetadata c) = length g
             /\ (Forall (fun x => plainStatus x = true) (statuses g) ->
                 forall s, JSObject.getOwn (statusCounts (clusterMetadata c)) s
                           = match occurrences s (statuses g) with
                             | 0 => None
                             | n => Some (JSObject.VNum n)
                             end)
         end) groups entities.
Proof.
  destruct (clustersWith_spec project r props rawData)
    as (root & entities & Eg & Ec & HF & _).
  eexists _, entities. split; [exact Eg|]. split; [exact Ec|].
  split; [apply groupsValues_Permutation|].
  eapply Forall2_impl; [exact HF|]. intros g e Hb.
  destruct g as [|p0 [|p1 g]]; [done | by injection Hb as <- |].
  injection Hb as <-. split; [simpl; lia|]. split; [done|].
  intros Hplain s. simpl statusCounts. rewrite tally_statuses.
  by apply tallyStatuses_get.
Qed.

(** C1 at two assets in one place whose status is the text "toString": they
    form one cluster of [count] 2, but [statusCounts] holds no count for
    them, its only slot is a text. *)
Theorem statusCounts_miscounts_inherited_names :
  exists c,
    clusters flatProject exampleProps (twins "toString" "toString")
    = Done [Cluster c]
    /\ count (clusterMetadata c) = 2
    /\ statusCounts (clusterMetadata c)
       = [("toString",
           JSObject.VStr "function toString() { [native code] }11")]
    /\ occurrences "toString"
         ((fun raw => status (metadata raw)) <$> twins "toString" "toString") = 2.
Proof. eexists. split; [vm_compute; reflexivity|]. by vm_compute. Qed.

(** * The two copies of the pass *)

(** C8.  On the same points and viewport the pass of MapChart.tsx and the
    pass of part_001 compute the same groups, and their entities agree one by
    one: the same Singles, and for every Cluster the same id, member count,
    centroid and dominant status. *)
Theorem copies_agree
  (project : ViewportProps -> number * number -> number * number)
  (props : ViewportProps) (rawData : list RawPoint) :
  Part001.groups project props rawData
  = MapChart.groupsWith project MapChart.clusterRadius props rawData
  /\ exists es1 es2,
       MapChart.clusters project props rawData = Done es1
       /\ Part001.clusters project props rawData = Done es2
       /\ Forall2 agree es1 es2.
Proof.
  assert (Hg : Part001.groups project props rawData
               = MapChart.groupsWith project MapChart.clusterRadius props rawData)
    by reflexivity.
  split; [exact Hg|].
  destruct (clustersWith_spec project MapChart.clusterRadius props rawData)
    as (root & es1 & Eg & Ec & HF & _).
  unfold Part001.clusters. rewrite Hg, Eg. simpl.
  exists es1. unfold MapChart.clusters. rewrite Ec.
  clear Eg Ec Hg. induction HF as [|g e gs es Hb _ (es2 & _ & E2 & HA)].
  - exists []. by repeat split.
  - assert (He : exists e2, Part001.buildEntity g = Done e2 /\ agree e e2).
    { destruct g as [|p0 [|p1 g]]; [discriminate Hb | |].
      - injection Hb as <-. by eexists.
      - injection Hb as <-. eexists. split; [reflexivity|]. by repeat split. }
    destruct He as (e2 & Hb2 & Ha).
    exists (e2 :: es2). split; [done|]. split; [|by constructor].
    simpl. rewrite Hb2. simpl. by rewrite E2.
Qed.

(** * Further properties of the union-find class *)
Section UnionFindMore.

Implicit Types (p : list nat) (i j r x : nat) (l : list nat).

Lemma compress_lookup_in p l r x :
  (forall y, y ∈ l -> y < length p) -> x ∈ l -> compress p l r !! x = Some r.
Proof.
  intros Hlt. induction l as [|y l IH]; intros Hx; [by apply elem_of_nil in Hx|].
  simpl. destruct (decide (x = y)) as [-> | Hne].
  - apply list_lookup_insert_eq. rewrite compress_length. apply Hlt. by left.
  - rewrite list_lookup_insert_ne by done. apply IH.
    + intros z Hz. apply Hlt. by right.
    + apply elem_of_cons in Hx as [? | ?]; done.
Qed.

Lemma compress_lookup_notin p l r x : x ∉ l -> compress p l r !! x = p !! x.
Proof.
  induction l as [|y l IH]; intros Hx; [done|].
  apply not_elem_of_cons in Hx as [Hne Hx]. simpl.
  rewrite list_lookup_insert_ne by done. by apply IH.
Qed.

Lemma pathTo_root_notin p i l r : pathTo p i l r -> r ∉ l.
Proof. intros H. apply pathTo_NoDup in H. by apply NoDup_cons in H as [? _]. Qed.

(** X1.  [find(i)] flattens the path it walks: afterwards every node that was
    on the way from [i] to the root [r] points at [r] directly, every other
    entry of the array is untouched, the array has kept its length, and a
    second [find(i)] returns [r] again without changing anything. *)
Theorem find_flattens_path p i :
  forest p -> i < length p ->
  exists l r p',
    pathTo p i l r
    /\ find p i = Done (p', r)
    /\ length p' = length p
    /\ p' !! r = Some r
    /\ (forall x, x ∈ l -> p' !! x = Some r)
    /\ (forall x, x ∉ l -> p' !! x = p !! x)
    /\ find p' i = Done (p', r).
Proof.
  intros Hf Hi. destruct (Hf i Hi) as (r & l & H).
  exists l, r, (compress p l r).
  assert (Hr : compress p l r !! r = Some r).
  { rewrite compress_lookup_notin by (by eapply pathTo_root_notin).
    by eapply pathTo_is_root. }
  assert (Hin : forall x, x ∈ l -> compress p l r !! x = Some r).
  { intros x Hx. apply compress_lookup_in; [|done].
    intros y Hy. eapply pathTo_nodes_lt; [exact H | by right]. }
  split; [done|]. split; [by apply find_path|].
  split; [apply compress_length|]. split; [done|]. split; [done|].
  split; [intros x Hx; by apply compress_lookup_notin|].
  destruct H as [r Hroot | i j l r Hij Hne H].
  - simpl. apply (find_path p r [] r). by constructor.
  - assert (Hir : i <> r).
    { intros ->. apply pathTo_is_root in H. congruence. }
    assert (Hi' : compress p (i :: l) r !! i = Some r) by (apply Hin; by left).
    rewrite (find_path (compress p (i :: l) r) i [i] r).
    + replace (compress (compress p (i :: l) r) [i] r)
        with (<[i := r]> (compress p (i :: l) r)) by done.
      by rewrite (list_insert_id _ _ _ Hi').
    + econstructor; [exact Hi' | congruence | by constructor].
Qed.

Lemma find_flattens_path_witness :
  exists l r p',
    pathTo [1; 2; 2; 3] 0 l r
    /\ find [1; 2; 2; 3] 0 = Done (p', r)
    /\ length p' = 4
    /\ p' !! r = Some r
    /\ (forall x, x ∈ l -> p' !! x = Some r)
    /\ (forall x, x ∉ l -> p' !! x = [1; 2; 2; 3] !! x)
    /\ find p' 0 = Done (p', r).
Proof.
  apply (find_flattens_path [1; 2; 2; 3] 0); [|simpl; lia].
  intros i Hi. simpl in Hi.
  destruct i as [|[|[|[|i]]]];
    [exists 2, [0; 1] | exists 2, [1] | exists 2, [] | exists 3, [] | lia];
    repeat (econstructor; try done).
Defined.

(** X2.  [union(i, j)] hangs the whole set of [j] under the root of [i] and
    touches no other set: afterwards the root of an index is the old root of
    [i] if the index was in the set of [j], and its old root otherwise.  The
    array stays a forest of the same length. *)
Theorem union_links_sets p i j :
  forest p -> i < length p -> j < length p ->
  exists p',
    union p i j = Done p'
    /\ length p' = length p /\ forest p'
    /\ forall x, x < length p ->
         rootFn p' x = if Nat.eqb (rootFn p x) (rootFn p j) then rootFn p i
                       else rootFn p x.
Proof.
  intros Hf Hi Hj.
  destruct (union_spec p i j Hf Hi Hj)
    as (p' & ri & rj & E & Hri & Hrj & Hlen & Hf' & R).
  exists p'. split; [done|]. split; [done|]. split; [done|].
  intros x Hx.
  assert (Hi' : rootFn p i = ri)
    by (eapply rootOf_det; [by apply rootFn_spec | done]).
  assert (Hj' : rootFn p j = rj)
    by (eapply rootOf_det; [by apply rootFn_spec | done]).
  pose proof (R x (rootFn p x) (rootFn_spec p x Hf Hx)) as Hx'.
  rewrite Hi', Hj'.
  assert (Hroot : rootOf p' x (rootFn p' x)) by (apply rootFn_spec; [done | lia]).
  rewrite (rootOf_det _ _ _ _ Hroot Hx').
  destruct (Nat.eqb_spec (rootFn p x) rj), (decide (rootFn p x = rj)); done.
Qed.

Lemma union_links_sets_witness :
  exists p',
    union [0; 0; 2; 2] 1 3 = Done p'
    /\ length p' = 4 /\ forest p'
    /\ forall x, x < 4 ->
         rootFn p' x = if Nat.eqb (rootFn [0; 0; 2; 2] x) (rootFn [0; 0; 2; 2] 3)
                       then rootFn [0; 0; 2; 2] 1
                       else rootFn [0; 0; 2; 2] x.
Proof.
  apply (union_links_sets [0; 0; 2; 2] 1 3); [|simpl; lia..].
  intros i Hi. simpl in Hi.
  destruct i as [|[|[|[|i]]]];
    [exists 0, [] | exists 0, [1] | exists 2, [] | exists 2, [3] | lia];
    repeat (econstructor; try done).
Defined.

Lemma numberOfSets_ext p q :
  length q = length p -> (forall x, q !! x = Some x <-> p !! x = Some x) ->
  numberOfSets q = numberOfSets p.
Proof.
  intros Hlen H. unfold numberOfSets. rewrite Hlen. f_equal.
  by apply list_filter_iff.
Qed.

Lemma filter_iff_elem {A} (P Q : A -> Prop)
      `{!forall a, Decision (P a)} `{!forall a, Decision (Q a)} (k : list A) :
  (forall a, a ∈ k -> P a <-> Q a) -> filter P k = filter Q k.
Proof.
  induction k as [|b k IH]; intros Hpq; [done|].
  assert (IH' : filter P k = filter Q k)
    by (apply IH; intros a Ha; apply Hpq; by right).
  destruct (decide (P b)) as [HP | HP].
  - rewrite !filter_cons_True; [by f_equal | by apply Hpq; [left|] | done].
  - rewrite !filter_cons_False; [done | | done].
    intros HQ. apply HP, Hpq; [by left | done].
Qed.

Lemma filter_all {A} (P : A -> Prop) `{!forall a, Decision (P a)} (k : list A) :
  Forall P k -> filter P k = k.
Proof.
  induction 1 as [|b k Hb _ IH]; [done|].
  rewrite filter_cons_True by done. by f_equal.
Qed.

Lemma filter_remove_one (P : nat -> Prop) `{!forall x, Decision (P x)}
      (l : list nat) (a : nat) :
  NoDup l -> a ∈ l -> P a ->
  S (length (filter (fun x => P x /\ x <> a) l)) = length (filter P l).
Proof.
  intros Hnd Ha HP. induction Hnd as [|y l Hy Hnd IH]; [by apply elem_of_nil in Ha|].
  destruct (decide (y = a)) as [-> | Hne].
  - rewrite filter_cons_False by tauto. rewrite filter_cons_True by done.
    simpl. f_equal. f_equal. apply filter_iff_elem.
    intros x Hx. split; [tauto|].
    intros HPx. split; [done|]. by intros ->.
  - apply elem_of_cons in Ha as [? | Ha]; [done|].
    destruct (decide (P y)).
    + rewrite !filter_cons_True by tauto. simpl. f_equal. by apply IH.
    + rewrite !filter_cons_False by tauto. by apply IH.
Qed.

Lemma find_keeps_roots p i :
  forest p -> i < length p ->
  exists p' r,
    find p i = Done (p', r) /\ rootOf p i r
    /\ length p' = length p /\ forest p'
    /\ (forall x rx, x < length p -> rootOf p' x rx <-> rootOf p x rx)
    /\ (forall x, p' !! x = Some x <-> p !! x = Some x).
Proof.
  intros Hf Hi.
  destruct (Hf i Hi) as (r & l & H).
  pose proof (find_path p i l r H) as E.
  set (p' := compress p l r) in *.
  assert (Hin : forall x, x ∈ l -> p' !! x = Some r).
  { intros x Hx. apply compress_lookup_in; [|done].
    intros y Hy. eapply pathTo_nodes_lt; [exact H | by right]. }
  assert (Hout : forall x, x ∉ l -> p' !! x = p !! x)
    by (intros x Hx; by apply compress_lookup_notin).
  destruct (find_spec p i Hf Hi) as (p0 & r0 & E0 & Hr0 & _ & Hf' & Hroots).
  rewrite E in E0. injection E0 as <- <-.
  exists p', r. split; [done|]. split; [done|].
  split; [apply compress_length|]. split; [done|].
  split; [done|]. intros x. destruct (decide (x ∈ l)) as [Hx | Hx].
  - rewrite (Hin x Hx).
    pose proof (pathTo_nonroots _ _ _ _ H) as Hnr.
    rewrite Forall_forall in Hnr. destruct (Hnr x Hx) as [Hxr Hne].
    split; [intros [=]; congruence|].
    intros Hroot. exfalso. apply Hne. symmetry. by eapply rootOf_of_root.
  - by rewrite (Hout x Hx).
Qed.

(** X3.  A fresh structure of [n] elements has [n] sets, in which every
    index is its own root; a [union] of two indices of different sets leaves
    exactly one set fewer, a [union] inside one set leaves the number of sets
    as it was. *)
Theorem union_counts_sets p i j :
  forest p -> i < length p -> j < length p ->
  numberOfSets (new (length p)) = length p
  /\ exists p',
       union p i j = Done p'
       /\ (rootFn p i = rootFn p j -> numberOfSets p' = numberOfSets p)
       /\ (rootFn p i <> rootFn p j -> S (numberOfSets p') = numberOfSets p).
Proof.
  intros Hf Hi Hj. split.
  { unfold numberOfSets, new. rewrite length_seq.
    transitivity (length (seq 0 (length p))); [|apply length_seq]. f_equal.
    apply filter_all, Forall_forall. intros x Hx%elem_of_seq.
    apply lookup_seq_lt. lia. }
  destruct (find_keeps_roots p i Hf Hi)
    as (p1 & ri & E1 & Hri & L1 & F1 & R1 & K1).
  assert (Hj1 : j < length p1) by lia.
  destruct (find_keeps_roots p1 j F1 Hj1)
    as (p2 & rj & E2 & Hrj & L2 & F2 & R2 & K2).
  assert (Hi' : rootFn p i = ri)
    by (eapply rootOf_det; [by apply rootFn_spec | done]).
  assert (Hj' : rootFn p j = rj).
  { eapply rootOf_det; [by apply rootFn_spec|]. by apply R1. }
  assert (Hsame : numberOfSets p2 = numberOfSets p).
  { apply numberOfSets_ext; [lia|]. intros x. by rewrite K2, K1. }
  unfold union. rewrite E1. simpl. rewrite E2. simpl. rewrite Hi', Hj'.
  destruct (Nat.eqb_spec ri rj) as [-> | Hne].
  - exists p2. split; [done|]. split; [done | done].
  - exists (<[rj := ri]> p2). split; [done|]. split; [done|]. intros _.
    rewrite <- Hsame. unfold numberOfSets. rewrite length_insert.
    assert (Hrjr : p2 !! rj = Some rj).
    { apply K2. eapply rootOf_is_root, Hrj. }
    assert (Hrjl : rj < length p2) by (by eapply lookup_lt_Some).
    rewrite <- (filter_remove_one (fun x => p2 !! x = Some x) _ rj);
      [|apply NoDup_seq | apply elem_of_seq; lia | done].
    f_equal. f_equal. apply list_filter_iff. intros x.
    destruct (decide (x = rj)) as [-> | Hx].
    + rewrite list_lookup_insert_eq by done. split; [intros [=]; congruence | tauto].
    + rewrite list_lookup_insert_ne by done. tauto.
Qed.

Lemma union_counts_sets_witness :
  numberOfSets (new 4) = 4
  /\ exists p',
       union [0; 0; 2; 2] 1 3 = Done p'
       /\ (rootFn [0; 0; 2; 2] 1 = rootFn [0; 0; 2; 2] 3 ->
           numberOfSets p' = numberOfSets [0; 0; 2; 2])
       /\ (rootFn [0; 0; 2; 2] 1 <> rootFn [0; 0; 2; 2] 3 ->
           S (numberOfSets p') = numberOfSets [0; 0; 2; 2]).
Proof.
  apply (union_counts_sets [0; 0; 2; 2] 1 3); [|simpl; lia..].
  intros i Hi. simpl in Hi.
  destruct i as [|[|[|[|i]]]];
    [exists 0, [] | exists 0, [1] | exists 2, [] | exists 2, [3] | lia];
    repeat (econstructor; try done).
Defined.

End UnionFindMore.

(** * Further properties of the clustering pass *)

(** X5.  The edge cases of the pass: no points give no entities, and one
    point gives exactly one Single, never a Cluster, under every projector
    and viewport. *)
Theorem clusters_of_none_and_one
  (project : ViewportProps -> number * number -> number * number)
  (props : ViewportProps) (raw : RawPoint) :
  clusters project props [] = Done []
  /\ exists p,
       projectedPoints project props [raw] = [p]
       /\ point p = raw /\ index p = 0
       /\ clusters project props [raw] = Done [Single p].
Proof.
  split; [done|].
  unfold clusters, clustersWith, groupsWith, projectedPoints. simpl.
  destruct (project props _) as [x y]. eexists. by repeat split.
Qed.

Lemma sublist_same_elements {A} (s l1 l2 : list A) :
  NoDup s -> l1 `sublist_of` s -> l2 `sublist_of` s ->
  (forall x, x ∈ l1 <-> x ∈ l2) -> l1 = l2.
Proof.
  intros Hnd. revert l1 l2.
  induction Hnd as [|a s Ha Hnd IH]; intros l1 l2 H1 H2 Hel.
  - apply sublist_nil_r in H1, H2. by subst.
  - apply sublist_cons_r in H1 as [H1 | (l1' & -> & H1)];
      apply sublist_cons_r in H2 as [H2 | (l2' & -> & H2)].
    + by apply IH.
    + exfalso. apply Ha. eapply elem_of_sublist; [|exact H1].
      apply Hel. by left.
    + exfalso. apply Ha. eapply elem_of_sublist; [|exact H2].
      apply Hel. by left.
    + f_equal. apply IH; [done..|]. intros x. split; intros Hx.
      * assert (Hx' : x ∈ a :: l2') by (apply Hel; by right).
        apply elem_of_cons in Hx' as [-> | ?]; [|done].
        exfalso. apply Ha. by eapply elem_of_sublist.
      * assert (Hx' : x ∈ a :: l1') by (apply Hel; by right).
        apply elem_of_cons in Hx' as [-> | ?]; [|done].
        exfalso. apply Ha. by eapply elem_of_sublist.
Qed.

Lemma projectedPoints_indices project props rawData :
  index <$> projectedPoints project props rawData = seq 0 (length rawData).
Proof.
  apply list_eq. intros i. rewrite list_lookup_fmap.
  destruct (projectedPoints project props rawData !! i) as [p|] eqn:E; simpl.
  - pose proof (lookup_lt_Some _ _ _ E) as Hi.
    rewrite length_projectedPoints in Hi.
    rewrite lookup_seq_lt by done.
    by rewrite (projectedPoints_index _ _ _ _ _ E).
  - apply lookup_ge_None in E. rewrite length_projectedPoints in E.
    symmetry. by apply lookup_seq_ge.
Qed.

Lemma groupsWith_indices_sublist project r props rawData groups g :
  groupsWith project r props rawData = Done groups -> g ∈ groups ->
  index <$> g `sublist_of` seq 0 (length rawData).
Proof.
  intros E Hg.
  destruct (groupsWith_spec project props rawData r) as (root & E' & _).
  rewrite E' in E. injection E as <-.
  rewrite <- (projectedPoints_indices project props rawData).
  apply fmap_sublist. by eapply groupsValues_sublist.
Qed.

Lemma seq_sublist_le (n m : nat) : n <= m -> seq 0 n `sublist_of` seq 0 m.
Proof.
  intros H. replace m with (n + (m - n)) by lia. rewrite seq_app.
  apply sublist_inserts_r. done.
Qed.

Lemma buildEntity_id (g : list ProjectedPoint) (c : ClusterEntity) :
  buildEntity g = Done (Cluster c) ->
  id c = ("cluster-" ++ join (decimal <$> (index <$> g)))%string.
Proof.
  intros H. destruct g as [|p0 [|p1 g]]; [done..|].
  unfold buildEntity in H. injection H as <-.
  rewrite <- list_fmap_compose. done.
Qed.

(** X6.  The members of a group are kept in input order, so their indices
    increase along the group.  Hence the [id] of a cluster depends on its set
    of members only: two clusters with the same members, from whatever
    viewports, radii or runs, carry the same [id]. *)
Theorem cluster_id_from_members
  (projectA projectB : ViewportProps -> number * number -> number * number)
  (rA rB : number) (propsA propsB : ViewportProps)
  (dataA dataB : list RawPoint)
  (groupsA groupsB : list (list ProjectedPoint))
  (gA gB : list ProjectedPoint) (cA cB : ClusterEntity) :
  groupsWith projectA rA propsA dataA = Done groupsA -> gA ∈ groupsA ->
  groupsWith projectB rB propsB dataB = Done groupsB -> gB ∈ groupsB ->
  buildEntity gA = Done (Cluster cA) -> buildEntity gB = Done (Cluster cB) ->
  (forall i, i ∈ index <$> gA <-> i ∈ index <$> gB) ->
  index <$> gA `sublist_of` seq 0 (length dataA)
  /\ index <$> gA = index <$> gB
  /\ id cA = id cB.
Proof.
  intros EA HA EB HB BA BB Hsame.
  pose proof (groupsWith_indices_sublist _ _ _ _ _ _ EA HA) as SA.
  pose proof (groupsWith_indices_sublist _ _ _ _ _ _ EB HB) as SB.
  assert (Heq : index <$> gA = index <$> gB).
  { apply (sublist_same_elements (seq 0 (length dataA `max` length dataB)));
      [apply NoDup_seq | | | done].
    - etransitivity; [exact SA|]. apply seq_sublist_le. lia.
    - etransitivity; [exact SB|]. apply seq_sublist_le. lia. }
  split; [done|]. split; [done|].
  by rewrite (buildEntity_id _ _ BA), (buildEntity_id _ _ BB), Heq.
Qed.

Lemma cluster_id_from_members_witness :
  exists gA gB cA cB,
    buildEntity gA = Done (Cluster cA) /\ buildEntity gB = Done (Cluster cB)
    /\ index <$> gA `sublist_of` seq 0 3
    /\ index <$> gA = index <$> gB
    /\ id cA = id cB.
Proof.
  set (g := projectedPoints flatProject exampleProps chainData).
  assert (EA : groupsWith flatProject clusterRadius exampleProps chainData
               = Done [g]) by (vm_compute; reflexivity).
  assert (EB : groupsWith flatProject (ofNat 100) exampleProps chainData
               = Done [g]) by (vm_compute; reflexivity).
  assert (Hin : g ∈ [g]) by (by left).
  assert (B : exists c, buildEntity g = Done (Cluster c))
    by (eexists; reflexivity).
  destruct B as [c B]. exists g, g, c, c.
  split; [exact B|]. split; [exact B|].
  apply (cluster_id_from_members flatProject flatProject clusterRadius
           (ofNat 100) exampleProps exampleProps chainData chainData
           [g] [g] g g c c EA Hin EB Hin B B).
  done.
Defined.

Lemma sum_list_with_filter_split {A} (f : A -> nat) (P : A -> bool) (l : list A) :
  sum_list_with f l
  = sum_list_with f (List.filter (fun a => negb (P a)) l)
    + sum_list_with f (List.filter P l).
Proof.
  induction l as [|a l IH]; [done|]. simpl.
  destruct (P a); simpl; lia.
Qed.

Lemma sum_list_with_ones {A} (f : A -> nat) (l : list A) :
  Forall (fun a => f a = 1) l -> sum_list_with f l = length l.
Proof. induction 1 as [|a l Ha _ IH]; simpl; [done|]. lia. Qed.

Lemma length_concat_sum {A} (ls : list (list A)) :
  length (concat ls) = sum_list_with length ls.
Proof.
  induction ls as [|l ls IH]; [done|]. simpl. rewrite length_app. lia.
Qed.

Lemma buildEntity_shown (g : list ProjectedPoint) (e : Entity) :
  buildEntity g = Done e -> MapChartView.shown e = length g.
Proof.
  destruct g as [|p0 [|p1 g]]; [done | by intros [= <-] | by intros [= <-]].
Qed.

(** X7.  What is drawn adds up to the input: the number of single markers
    plus the totals of all donuts is the number of points given to the pass,
    and every donut stands for at least two of them. *)
Theorem markers_and_donuts_add_up
  (project : ViewportProps -> number * number -> number * number)
  (r : number) (props : ViewportProps) (rawData : list RawPoint) :
  exists entities,
    clustersWith project r props rawData = Done entities
    /\ length (MapChartView.individualPoints entities)
       + sum_list_with MapChartView.shown (MapChartView.clusterPoints entities)
       = length rawData
    /\ Forall (fun e => 2 <= MapChartView.shown e)
              (MapChartView.clusterPoints entities).
Proof.
  destruct (clustersWith_spec project r props rawData)
    as (root & entities & Eg & Ec & HF & _).
  exists entities. split; [done|].
  set (groups := groupsValues (collect (tagged root
                   (projectedPoints project props rawData)))) in *.
  assert (Hsum : sum_list_with MapChartView.shown entities = length rawData).
  { rewrite <- (length_projectedPoints project props rawData).
    rewrite <- (groupsValues_Permutation root
                  (projectedPoints project props rawData)).
    fold groups. rewrite length_concat_sum.
    clear Eg Ec. induction HF as [|g e gs es Hb _ IH]; [done|].
    simpl. by rewrite IH, (buildEntity_shown _ _ Hb). }
  split.
  - rewrite <- Hsum.
    rewrite (sum_list_with_filter_split MapChartView.shown isCluster entities).
    f_equal. symmetry. apply sum_list_with_ones, Forall_forall.
    intros e He%list_elem_of_In%filter_In. by destruct e, He.
  - apply Forall_forall. intros e He%list_elem_of_In%filter_In.
    destruct He as [He Hc].
    apply list_elem_of_In, list_elem_of_lookup in He as [n Hn].
    destruct (Forall2_lookup_r _ _ _ _ _ HF Hn) as (g & _ & Hb).
    destruct g as [|p0 [|p1 g]]; [done | |].
    + injection Hb as <-. done.
    + rewrite (buildEntity_shown _ _ Hb). simpl. lia.
Qed.

Lemma markers_and_donuts_add_up_witness :
  exists entities,
    clustersWith flatProject clusterRadius exampleProps brokenData = Done entities
    /\ length (MapChartView.individualPoints entities)
       + sum_list_with MapChartView.shown (MapChartView.clusterPoints entities)
       = 3.
Proof.
  destruct (markers_and_donuts_add_up flatProject clusterRadius exampleProps
              brokenData) as (entities & E & H & _).
  exists entities. split; [exact E | exact H].
Defined.

(** X8.  The text layer of part_001 asks for clusters with more than one
    member; the pass never builds a cluster of one, so the test on the count
    removes nothing and the layer gets exactly the clusters. *)
Theorem text_layer_gets_every_cluster
  (project : ViewportProps -> number * number -> number * number)
  (props : ViewportProps) (rawData : list RawPoint) :
  exists entities,
    Part001.clusters project props rawData = Done entities
    /\ Part001View.textLayerData entities
       = List.filter Part001View.isCluster entities
    /\ Forall (fun e => match e with
                        | Part001.Single _ => True
                        | Part001.Cluster c =>
                            2 <= Part001.count (Part001.clusterMetadata c)
                            <= length rawData
                        end) entities.
Proof.
  assert (Hg : Part001.groups project props rawData
               = groupsWith project clusterRadius props rawData)
    by reflexivity.
  destruct (groupsWith_spec project props rawData clusterRadius)
    as (root & Eg & _).
  set (pts := projectedPoints project props rawData) in *.
  destruct (mapM_total Part001.buildEntity (groupsValues (collect (tagged root pts))))
    as (entities & Em & HF).
  { apply Forall_forall. intros g Hg'%groupsValues_nonempty.
    destruct g as [|p0 [|p1 g]]; [done | by eexists..]. }
  exists entities. split.
  { unfold Part001.clusters. rewrite Hg, Eg. simpl. exact Em. }
  assert (Hall : Forall (fun e => match e with
                        | Part001.Single _ => True
                        | Part001.Cluster c =>
                            2 <= Part001.count (Part001.clusterMetadata c)
                            <= length rawData
                        end) entities).
  { apply Forall_forall. intros e He.
    apply list_elem_of_lookup in He as [n Hn].
    destruct (Forall2_lookup_r _ _ _ _ _ HF Hn) as (g & Hgn & Hb).
    assert (Hlen : length g <= length rawData).
    { rewrite <- (length_projectedPoints project props rawData).
      apply sublist_length. apply (groupsValues_sublist root).
      by eapply list_elem_of_lookup_2. }
    destruct g as [|p0 [|p1 g]]; [done | by injection Hb as <- |].
    injection Hb as <-. simpl in *. lia. }
  split; [|done].
  unfold Part001View.textLayerData. apply filter_ext_in.
  intros e He%list_elem_of_In. rewrite Forall_forall in Hall.
  specialize (Hall e He). destruct e as [p|c]; [done|]. simpl.
  apply Nat.ltb_lt. lia.
Qed.

(** * Further properties of the status counts *)
Section StatusCountsMore.

Import JSObject.

Lemma countTotal_setOwn_new (o : JSObject.t) k n :
  getOwn o k = None ->
  MapChartView.countTotal (setOwn o k (VNum n)) = MapChartView.countTotal o + n.
Proof.
  induction o as [|[k0 v0] o IH]; simpl; intros H; [lia|].
  destruct (String.eqb k0 k); [done|]. simpl. rewrite IH by done.
  destruct v0; lia.
Qed.

Lemma countTotal_setOwn_old (o : JSObject.t) k n m :
  getOwn o k = Some (VNum n) ->
  MapChartView.countTotal (setOwn o k (VNum m)) + n
  = MapChartView.countTotal o + m.
Proof.
  induction o as [|[k0 v0] o IH]; simpl; intros H; [done|].
  destruct (String.eqb k0 k).
  - injection H as ->. simpl. lia.
  - simpl. specialize (IH H). destruct v0; lia.
Qed.

Lemma countTotal_tallyStatuses (l : list string) :
  Forall (fun x => plainStatus x = true) l ->
  MapChartView.countTotal (tallyStatuses l) = length l.
Proof.
  induction l as [|x l IH] using rev_ind; intros Hl; [done|].
  apply Forall_app in Hl as [Hl Hx]. rewrite Forall_singleton in Hx.
  rewrite tallyStatuses_snoc, length_app. simpl. unfold increment.
  pose proof (tallyStatuses_get l x Hl) as Hget.
  destruct (getOwn (tallyStatuses l) x) as [v|] eqn:E.
  - destruct (occurrences x l) as [|n]; [done|]. injection Hget as ->.
    simpl. pose proof (countTotal_setOwn_old _ _ _ (S (n + 1)) E) as H.
    rewrite IH in H by done. lia.
  - rewrite (plainStatus_inherited _ Hx).
    rewrite countTotal_setOwn_new by done. rewrite IH by done. lia.
Qed.

End StatusCountsMore.

(** X9.  In a cluster whose statuses are plain texts the status counts are
    whole: [statusCounts] has exactly one key per status that occurs among
    the members, no key twice, and its counts add up to the [count] of the
    cluster, so the slices of the donut cover all members. *)
Theorem statusCounts_add_up (group : list ProjectedPoint) (c : ClusterEntity) :
  buildEntity group = Done (Cluster c) ->
  Forall (fun x => plainStatus x = true) (statuses group) ->
  MapChartView.countTotal (statusCounts (clusterMetadata c))
  = count (clusterMetadata c)
  /\ count (clusterMetadata c) = length group
  /\ NoDup (statusCounts (clusterMetadata c)).*1
  /\ forall s, s ∈ (statusCounts (clusterMetadata c)).*1 <-> s ∈ statuses group.
Proof.
  intros Hb Hplain. destruct group as [|p0 [|p1 group]]; [done..|].
  unfold buildEntity in Hb. injection Hb as <-.
  simpl statusCounts. simpl count. rewrite tally_statuses.
  split; [|split; [done|split]].
  - rewrite countTotal_tallyStatuses by done. unfold statuses.
    by rewrite length_fmap.
  - by apply tallyStatuses_NoDup.
  - intros s. by apply tallyStatuses_elem_of.
Qed.

Lemma statusCounts_add_up_witness :
  exists c,
    buildEntity tiedGroup = Done (Cluster c)
    /\ MapChartView.countTotal (statusCounts (clusterMetadata c)) = 4.
Proof.
  eexists. split; [reflexivity|].
  destruct (statusCounts_add_up tiedGroup _ eq_refl) as (H1 & H2 & _).
  - repeat constructor.
  - rewrite H1. exact H2.
Defined.

(** * Markers, clusters and the proximity graph *)

(** The group and the entity of one input position. *)
Lemma clustersWith_position project r props rawData k pk :
  projectedPoints project props rawData !! k = Some pk ->
  exists groups entities g,
    groupsWith project r props rawData = Done groups
    /\ clustersWith project r props rawData = Done entities
    /\ Forall2 (fun g e => buildEntity g = Done e) groups entities
    /\ g ∈ groups /\ pk ∈ g /\ NoDup g
    /\ (forall g', g' ∈ groups -> pk ∈ g' -> g' = g)
    /\ (forall q, q ∈ g <->
          exists j, projectedPoints project props rawData !! j = Some q
                    /\ connected r (projectedPoints project props rawData) k j).
Proof.
  intros Hpk.
  destruct (clustersWith_spec project r props rawData)
    as (root & entities & Eg & Ec & HF & Hroot).
  assert (Hidx : forall i p, projectedPoints project props rawData !! i = Some p
                             -> index p = i)
    by apply projectedPoints_index.
  pose proof (length_projectedPoints project props rawData) as Hlen.
  assert (Hin : pk ∈ members (root k)
                  (tagged root (projectedPoints project props rawData))).
  { apply elem_of_members, elem_of_tagged. by exists k. }
  eexists _, entities, _. split; [exact Eg|]. split; [exact Ec|].
  split; [exact HF|]. split; [|split; [exact Hin|split; [|split]]].
  - apply elem_of_groupsValues. exists (root k). split; [done|].
    intros Hnil. rewrite Hnil in Hin. by apply elem_of_nil in Hin.
  - eapply sublist_NoDup; [apply projectedPoints_NoDup|].
    apply (groupsValues_sublist root).
    apply elem_of_groupsValues. exists (root k). split; [done|].
    intros Hnil. rewrite Hnil in Hin. by apply elem_of_nil in Hin.
  - intros g' (k0 & -> & _)%elem_of_groupsValues Hpk'.
    apply elem_of_members, elem_of_tagged in Hpk' as (i & Hi & <-).
    assert (i = k) as -> by (apply Hidx in Hi, Hpk; congruence). done.
  - intros q. rewrite elem_of_members, elem_of_tagged. split.
    + intros (j & Hj & Hr). exists j. split; [done|].
      apply Hroot; [| |done]; rewrite <- Hlen; by eapply lookup_lt_Some.
    + intros (j & Hj & Hc). exists j. split; [done|]. symmetry.
      apply Hroot; [| |done]; rewrite <- Hlen; by eapply lookup_lt_Some.
Qed.

(** X10.  A point is drawn as a marker of its own exactly when no other
    point lies within the radius of it; a single neighbour is enough to put
    it into a cluster. *)
Theorem single_iff_no_neighbour
  (project : ViewportProps -> number * number -> number * number)
  (r : number) (props : ViewportProps) (rawData : list RawPoint)
  (k : nat) (pk : ProjectedPoint) :
  projectedPoints project props rawData !! k = Some pk ->
  exists entities,
    clustersWith project r props rawData = Done entities
    /\ (Single pk ∈ entities
        <-> forall j, j <> k ->
              ~ near r (projectedPoints project props rawData) k j).
Proof.
  intros Hpk.
  destruct (clustersWith_position project r props rawData k pk Hpk)
    as (groups & entities & g & _ & Ec & HF & Hg & Hin & Hnd & Huniq & Hmem).
  assert (Hidx : forall i p, projectedPoints project props rawData !! i = Some p
                             -> index p = i)
    by apply projectedPoints_index.
  exists entities. split; [exact Ec|]. split.
  - intros Hs j Hjk Hn.
    apply list_elem_of_lookup in Hs as [n Hn'].
    destruct (Forall2_lookup_r _ _ _ _ _ HF Hn') as (g' & Hg' & Hb).
    assert (g' = [pk]) as ->.
    { destruct g' as [|p0 [|p1 g']]; [done | by injection Hb as -> | done]. }
    assert (g = [pk]) as ->.
    { symmetry. apply Huniq; [by eapply list_elem_of_lookup_2 | by left]. }
    pose proof Hn as (_ & pj & _ & Hpj & _).
    assert (Hj : pj ∈ [pk]).
    { apply Hmem. exists j. split; [done|]. by apply rtc_once. }
    apply list_elem_of_singleton in Hj as ->.
    apply Hidx in Hpj, Hpk. congruence.
  - intros Hiso.
    assert (Halone : forall j, connected r (projectedPoints project props rawData) k j
                               -> j = k).
    { intros j Hc. induction Hc as [|a b c Hab _ IH]; [done|].
      destruct (decide (b = a)) as [-> | Hne]; [by apply IH|].
      by apply Hiso in Hab. }
    assert (g = [pk]) as ->.
    { apply all_equal_NoDup; [done | |].
      - intros ->. by apply elem_of_nil in Hin.
      - intros q (j & Hj & Hc)%Hmem. apply Halone in Hc as ->. congruence. }
    apply list_elem_of_lookup in Hg as [n Hn].
    destruct (Forall2_lookup_l _ _ _ _ _ HF Hn) as (e & He & Hb).
    simpl in Hb. injection Hb as <-. by eapply list_elem_of_lookup_2.
Qed.

Lemma single_iff_no_neighbour_witness :
  exists pk entities,
    projectedPoints flatProject exampleProps brokenData !! 1 = Some pk
    /\ clustersWith flatProject clusterRadius exampleProps brokenData
       = Done entities
    /\ (Single pk ∈ entities
        <-> forall j, j <> 1 ->
              ~ near clusterRadius
                  (projectedPoints flatProject exampleProps brokenData) 1 j).
Proof.
  eexists.
  destruct (single_iff_no_neighbour flatProject clusterRadius exampleProps
              brokenData 1 _ eq_refl) as (entities & E & H).
  exists entities. split; [reflexivity|]. split; [exact E | exact H].
Defined.

Lemma sub_self x : isFinite x = true -> sub x x = zero.
Proof.
  destruct x as [s | s | | s m e]; try done.
  - by destruct s.
  - intros _. unfold sub, SFsub. rewrite Z.sub_diag. reflexivity.
Qed.

Lemma distance_same_place p q :
  screenX p = screenX q -> screenY p = screenY q ->
  isFinite (screenX p) = true -> isFinite (screenY p) = true ->
  distance p q = zero.
Proof.
  intros Hx Hy Fx Fy. unfold distance. rewrite <- Hx, <- Hy.
  rewrite !sub_self by done. reflexivity.
Qed.

(** X11.  Two assets at the same location always land in the same group,
    whatever else is on the map, as long as their screen coordinates are
    finite and the radius is zero or more: their pixel distance is exactly
    zero. *)
Theorem same_location_same_group
  (project : ViewportProps -> number * number -> number * number)
  (r : number) (props : ViewportProps) (rawData : list RawPoint)
  (i j : nat) (a b : RawPoint) :
  leb zero r = true ->
  rawData !! i = Some a -> rawData !! j = Some b ->
  location a = location b ->
  isFinite (project props (longitude (location a), latitude (location a))).1
  && isFinite (project props (longitude (location a), latitude (location a))).2
  = true ->
  exists groups,
    groupsWith project r props rawData = Done groups
    /\ near r (projectedPoints project props rawData) i j
    /\ sameGroup groups i j.
Proof.
  intros Hr Ha Hb Hloc Hfin. apply andb_prop in Hfin as [Fx Fy].
  destruct (groupsWith_spec project props rawData r) as (root & E & Hroot).
  pose proof (length_projectedPoints project props rawData) as Hlen.
  assert (Hi : i < length (projectedPoints project props rawData))
    by (rewrite Hlen; by eapply lookup_lt_Some).
  assert (Hj : j < length (projectedPoints project props rawData))
    by (rewrite Hlen; by eapply lookup_lt_Some).
  assert (Hn : near r (projectedPoints project props rawData) i j).
  { unfold near, projectedPoints. setoid_rewrite list_lookup_imap.
    rewrite Ha, Hb. simpl. rewrite <- Hloc.
    destruct (project props _) as [x y] eqn:Ep. simpl in Fx, Fy.
    eexists _, _. split; [done|]. split; [done|].
    by rewrite distance_same_place. }
  eexists. split; [exact E|]. split; [exact Hn|].
  apply sameGroup_root; [apply projectedPoints_index | done..|].
  apply Hroot; [done..|]. by apply rtc_once.
Qed.

Lemma same_location_same_group_witness :
  exists groups,
    groupsWith flatProject clusterRadius exampleProps (twins "healthy" "offline")
    = Done groups
    /\ near clusterRadius
         (projectedPoints flatProject exampleProps (twins "healthy" "offline")) 0 1
    /\ sameGroup groups 0 1.
Proof.
  apply (same_location_same_group flatProject clusterRadius exampleProps
           (twins "healthy" "offline") 0 1
           (pointAt 7 3 "healthy") (pointAt 7 3 "offline")); reflexivity.
Defined.

(** * The donut of a cluster *)
Section DonutFacts.

Import JSObject.

Lemma entries_keys (o : list (string * value)) :
  map fst (Obj.entries o) = keys o.
Proof. unfold Obj.entries, keys. by rewrite map_app. Qed.

Lemma entries_Permutation {V} (o : list (string * V)) : Obj.entries o ≡ₚ o.
Proof.
  unfold Obj.entries. rewrite sortByKey_Permutation.
  rewrite (list_filter_iff (fun kv => Obj.isIndex kv = false)
                           (fun kv => ~ Obj.isIndex kv = true)).
  - apply filter_app_complement.
  - intros kv. by destruct (Obj.isIndex kv).
Qed.

Lemma increment_NoDup (o : JSObject.t) k :
  NoDup o.*1 -> NoDup (increment o k).*1.
Proof.
  intros Ho.
  assert (Hset : forall v, NoDup (setOwn o k v).*1).
  { intros v. rewrite setOwn_keys. destruct (decide (k ∈ o.*1)); [done|].
    apply NoDup_app. split; [done|]. split; [|apply NoDup_singleton].
    intros y Hy Hy'. apply list_elem_of_singleton in Hy' as ->. done. }
  unfold increment. destruct (getOwn o k); [apply Hset|].
  destruct (inherited k); [|apply Hset].
  destruct (String.eqb k "__proto__"); [done | apply Hset].
Qed.

Lemma tally_NoDup (group : list ProjectedPoint) : NoDup (tally group).*1.
Proof.
  unfold tally. induction group as [|p group IH] using rev_ind.
  - apply NoDup_nil_2.
  - rewrite foldl_app. simpl. by apply increment_NoDup.
Qed.

Lemma SFopp_involutive x : SFopp (SFopp x) = x.
Proof. destruct x as [s | s | | s m e]; simpl; by rewrite ?negb_involutive. Qed.

Lemma ClusterDonut_lookup o total i ci :
  MapChartView.ClusterDonut o total !! i = Some ci ->
  exists entry,
    Obj.entries o !! i = Some entry
    /\ MapChartView.key ci = entry.1
    /\ MapChartView.stroke ci = getStatusColorString entry.1
    /\ MapChartView.dash ci = MapChartView.percentage total entry.2
    /\ MapChartView.gap ci
       = sub (ofNat 100) (MapChartView.percentage total entry.2)
    /\ MapChartView.strokeDashoffset ci
       = SFopp (foldl (fun sum e => add sum (MapChartView.percentage total e.2))
                      zero (take i (Obj.entries o))).
Proof.
  unfold MapChartView.ClusterDonut. rewrite list_lookup_imap.
  destruct (Obj.entries o !! i) as [entry|]; [|done].
  intros [= <-]. by exists entry.
Qed.

Lemma ClusterDonut_keys o total :
  MapChartView.key <$> MapChartView.ClusterDonut o total = keys o.
Proof.
  assert (H : forall (f : nat -> string * value -> string) l,
             (forall i e, f i e = e.1) -> imap f l = map fst l).
  { intros f l Hf. revert f Hf. induction l as [|e l IH]; intros f Hf; [done|].
    rewrite imap_cons. simpl. rewrite Hf. f_equal. apply IH.
    intros i e'. apply Hf. }
  rewrite <- entries_keys. unfold MapChartView.ClusterDonut.
  rewrite fmap_imap. by apply H.
Qed.

End DonutFacts.

(** X12.  The donut of a cluster has one circle per key of [statusCounts],
    in the order of [Object.keys], and no two circles share their React key.
    The first segment starts at offset minus zero, and every later segment
    starts where the one before it ends: its offset is the offset of its
    predecessor moved on by the predecessor's dash. *)
Theorem donut_segments_abut (group : list ProjectedPoint) (c : ClusterEntity) :
  buildEntity group = Done (Cluster c) ->
  MapChartView.key <$> MapChartView.donutOf c
  = JSObject.keys (statusCounts (clusterMetadata c))
  /\ NoDup (MapChartView.key <$> MapChartView.donutOf c)
  /\ (forall c0, MapChartView.donutOf c !! 0 = Some c0 ->
        MapChartView.strokeDashoffset c0 = S754_zero true)
  /\ (forall i ci cj,
        MapChartView.donutOf c !! i = Some ci ->
        MapChartView.donutOf c !! S i = Some cj ->
        MapChartView.strokeDashoffset cj
        = SFopp (add (SFopp (MapChartView.strokeDashoffset ci))
                     (MapChartView.dash ci)))
  /\ (forall i ci, MapChartView.donutOf c !! i = Some ci ->
        MapChartView.stroke ci = getStatusColorString (MapChartView.key ci)
        /\ MapChartView.gap ci = sub (ofNat 100) (MapChartView.dash ci)).
Proof.
  intros Hb. unfold MapChartView.donutOf.
  set (o := statusCounts (clusterMetadata c)).
  set (total := ofNat (count (clusterMetadata c))).
  assert (Ho : NoDup o.*1).
  { destruct group as [|p0 [|p1 group]]; [done..|].
    injection Hb as <-. apply tally_NoDup. }
  split; [apply ClusterDonut_keys|]. split.
  { rewrite ClusterDonut_keys, <- entries_keys.
    change (NoDup (Obj.entries o).*1). by rewrite entries_Permutation. }
  split; [|split].
  - intros c0 (entry & _ & _ & _ & _ & _ & Hoff)%ClusterDonut_lookup.
    by rewrite Hoff.
  - intros i ci cj (ei & Hei & _ & _ & Hdash & _ & Hoi)%ClusterDonut_lookup
                   (ej & _ & _ & _ & _ & _ & Hoj)%ClusterDonut_lookup.
    rewrite Hoj, Hoi, Hdash, SFopp_involutive.
    by rewrite (take_S_r _ _ _ Hei), foldl_app.
  - intros i ci (ei & _ & Hk & Hs & Hd & Hg & _)%ClusterDonut_lookup.
    by rewrite Hs, Hg, Hk, Hd.
Qed.

Lemma donut_segments_abut_witness :
  exists c,
    buildEntity tiedGroup = Done (Cluster c)
    /\ MapChartView.key <$> MapChartView.donutOf c
       = ["down for repairs"; "healthy"]
    /\ NoDup (MapChartView.key <$> MapChartView.donutOf c).
Proof.
  eexists. split; [reflexivity|].
  destruct (donut_segments_abut tiedGroup _ eq_refl) as (H1 & H2 & _).
  split; [exact H1 | exact H2].
Defined.

(** X13.  Over plain statuses the donut shows the make-up of the cluster:
    every status among the members has a circle, every circle stands for
    such a status, and its dash is the share of the members with that status,
    [(occurrences / count) * 100]. *)
Theorem donut_shows_shares (group : list ProjectedPoint) (c : ClusterEntity) :
  buildEntity group = Done (Cluster c) ->
  Forall (fun x => plainStatus x = true) (statuses group) ->
  (forall s, s ∈ statuses group
             <-> s ∈ MapChartView.key <$> MapChartView.donutOf c)
  /\ forall ci, ci ∈ MapChartView.donutOf c ->
       MapChartView.dash ci
       = mul (div (ofNat (occurrences (MapChartView.key ci) (statuses group)))
                  (ofNat (length group)))
             (ofNat 100).
Proof.
  intros Hb Hplain. destruct group as [|p0 [|p1 group]]; [done..|].
  injection Hb as <-. unfold MapChartView.donutOf. simpl statusCounts.
  simpl count. rewrite tally_statuses.
  set (l := statuses (p0 :: p1 :: group)) in *.
  split.
  - intros s. rewrite ClusterDonut_keys, keys_plain.
    + symmetry. by apply tallyStatuses_elem_of.
    + apply Forall_forall. intros [k v] Hkv. simpl.
      assert (Hk : k ∈ (tallyStatuses l).*1)
        by (apply list_elem_of_fmap; by exists (k, v)).
      apply (tallyStatuses_elem_of l k Hplain) in Hk.
      rewrite Forall_forall in Hplain. by apply Hplain.
  - intros ci [i Hi]%list_elem_of_lookup.
    apply ClusterDonut_lookup in Hi as (entry & He & Hk & _ & Hd & _).
    rewrite Hd, Hk. destruct entry as [k v]. simpl.
    assert (Hin : (k, v) ∈ tallyStatuses l).
    { rewrite <- (entries_Permutation (tallyStatuses l)).
      by eapply list_elem_of_lookup_2. }
    assert (Hget : JSObject.getOwn (tallyStatuses l) k = Some v).
    { pose proof (tallyStatuses_NoDup l Hplain) as Hnd.
      clear -Hin Hnd. induction (tallyStatuses l) as [|[k0 v0] o IH];
        [by apply elem_of_nil in Hin|].
      simpl. apply NoDup_cons in Hnd as [Hk0 Hnd].
      apply elem_of_cons in Hin as [[= <- <-] | Hin].
      - by rewrite String.eqb_refl.
      - destruct (String.eqb_spec k0 k) as [-> | Hne]; [|by apply IH].
        exfalso. apply Hk0. apply list_elem_of_fmap. by exists (k, v). }
    rewrite tallyStatuses_get in Hget by done.
    destruct (occurrences k l) as [|n]; [done|]. by injection Hget as <-.
Qed.

Lemma donut_shows_shares_witness :
  exists c,
    buildEntity tiedGroup = Done (Cluster c)
    /\ forall ci, ci ∈ MapChartView.donutOf c ->
         MapChartView.dash ci
         = mul (div (ofNat (occurrences (MapChartView.key ci) (statuses tiedGroup)))
                    (ofNat 4))
               (ofNat 100).
Proof.
  eexists. split; [reflexivity|].
  destruct (donut_shows_shares tiedGroup _ eq_refl) as [_ H].
  - repeat constructor.
  - exact H.
Defined.

(** * The click on a donut *)
Section ClickFacts.

Lemma SFcompare_swap a b : SFcompare b a = CompOpp <$> SFcompare a b.
Proof.
  destruct a as [sa | sa | | sa ma ea], b as [sb | sb | | sb mb eb];
    try done; try (by destruct sa); try (by destruct sb);
    try (by destruct sa, sb).
  simpl. destruct sa, sb; try done.
  - rewrite (Z.compare_antisym eb ea).
    destruct (eb ?= ea)%Z; simpl; try done.
    by rewrite (Pos.compare_cont_antisym ma mb Eq).
  - rewrite (Z.compare_antisym eb ea).
    destruct (eb ?= ea)%Z; simpl; try done.
    by rewrite (Pos.compare_cont_antisym ma mb Eq).
Qed.

Lemma SFltb_irrefl a : SFltb a a = false.
Proof.
  unfold SFltb. pose proof (SFcompare_swap a a) as H.
  destruct (SFcompare a a) as [[| |]|]; done.
Qed.

(** [Math.min] is above neither argument. *)
Lemma Math_min_not_above a b :
  ltb a (MapChartView.Math_min a b) = false
  /\ ltb b (MapChartView.Math_min a b) = false.
Proof.
  unfold ltb, MapChartView.Math_min.
  pose proof (SFcompare_swap a b) as Hs.
  destruct (SFcompare a b) as [[| |]|] eqn:E; simpl in Hs.
  - assert (Ha : SFltb b a = false) by (unfold SFltb; by rewrite Hs).
    destruct a as [sa | sa | | sa ma ea], b as [sb | sb | | sb mb eb];
      try (split; [apply SFltb_irrefl | exact Ha]).
    by split.
  - split; [apply SFltb_irrefl|]. unfold SFltb. by rewrite Hs.
  - split; [|apply SFltb_irrefl]. unfold SFltb. by rewrite E.
  - split; unfold SFltb; [by destruct a | by destruct b].
Qed.

End ClickFacts.

(** X14.  A click on a donut never takes the zoom above 16: the new zoom is
    the old one plus one when that is at most 16, it is 16 when the old one
    plus one is above 16, and in no case is 16 below it.  The view is centred
    on the cluster and keeps its pitch and bearing. *)
Theorem cluster_click_zoom_capped (cluster : ClusterEntity) (prev : ViewState) :
  ltb (ofNat 16) (zoom (MapChartView.onClusterClick cluster prev)) = false
  /\ (leb (add (zoom prev) (ofNat 1)) (ofNat 16) = true ->
      zoom (MapChartView.onClusterClick cluster prev)
      = add (zoom prev) (ofNat 1))
  /\ (ltb (ofNat 16) (add (zoom prev) (ofNat 1)) = true ->
      zoom (MapChartView.onClusterClick cluster prev) = ofNat 16)
  /\ (isNaN (add (zoom prev) (ofNat 1)) = true ->
      zoom (MapChartView.onClusterClick cluster prev) = NaN)
  /\ viewLongitude (MapChartView.onClusterClick cluster prev)
     = longitude (clusterLocation cluster)
  /\ viewLatitude (MapChartView.onClusterClick cluster prev)
     = latitude (clusterLocation cluster)
  /\ pitch (MapChartView.onClusterClick cluster prev) = pitch prev
  /\ bearing (MapChartView.onClusterClick cluster prev) = bearing prev.
Proof.
  simpl. set (a := add (zoom prev) (ofNat 1)).
  assert (Hb : exists m e, ofNat 16 = S754_finite false m e)
    by (eexists _, _; reflexivity).
  destruct Hb as (m & e & Hb).
  split; [apply Math_min_not_above|].
  split; [|split; [|split; [|done]]].
  - unfold leb, SFleb, MapChartView.Math_min. rewrite Hb.
    destruct (SFcompare a (S754_finite false m e)) as [[| |]|]; try done.
    by destruct a.
  - unfold ltb, SFltb, MapChartView.Math_min.
    rewrite (SFcompare_swap a (ofNat 16)).
    by destruct (SFcompare a (ofNat 16)) as [[| |]|].
  - intros Ha%isNaN_eq. by rewrite Ha.
Qed.

(** * Colours *)

(** X15.  The marker palette and the donut palette sort the statuses alike:
    two statuses get the same marker colour exactly when they get the same
    donut colour, so a status is teal on the donut exactly when its marker
    has the default colour.  A marker colour has three components, each at
    most 255. *)
Theorem palettes_agree (s s' : string) :
  (getMarkerColor s = getMarkerColor s'
   <-> getStatusColorString s = getStatusColorString s')
  /\ (getMarkerColor s = [40; 171; 160] <-> getStatusColorString s = "teal")
  /\ length (getMarkerColor s) = 3
  /\ Forall (fun x => x <= 255) (getMarkerColor s).
Proof.
  unfold getMarkerColor, getStatusColorString.
  destruct (String.eqb s "healthy"), (String.eqb s "predicted failure"),
    (String.eqb s "down for repairs"),
    (String.eqb s' "healthy"), (String.eqb s' "predicted failure"),
    (String.eqb s' "down for repairs");
    (split; [split; intros H; (done || discriminate H)|]);
    (split; [split; intros H; (done || discriminate H)|]);
    (split; [done|]); repeat constructor; lia.
Qed.

(** * [snakeToTitle] *)
Section SnakeToTitleFacts.

Import SnakeToTitle.

Lemma isWord_toUpperCase c : isWord (toUpperCase c) = isWord c.
Proof.
  unfold isWord, toUpperCase.
  destruct (N.leb_spec 97 c), (N.leb_spec c 122); simpl; try done;
    repeat match goal with
           | |- context [(?a <=? ?b)%N] => destruct (N.leb_spec a b)
           | |- context [(?a =? ?b)%N] => destruct (N.eqb_spec a b)
           end; simpl; try done; lia.
Qed.

Lemma toUpperCase_idemp c : toUpperCase (toUpperCase c) = toUpperCase c.
Proof.
  unfold toUpperCase.
  destruct (N.leb_spec 97 c), (N.leb_spec c 122); simpl;
    repeat match goal with
           | |- context [(?a <=? ?b)%N] => destruct (N.leb_spec a b)
           end; simpl; try done; lia.
Qed.

Lemma toUpperCase_not_lower c :
  isWord c = true -> (97 <= toUpperCase c <= 122)%N -> False.
Proof.
  unfold toUpperCase.
  destruct (N.leb_spec 97 c), (N.leb_spec c 122); simpl; lia.
Qed.

Lemma lower_isWord c : (97 <= c <= 122)%N -> isWord c = true.
Proof.
  intros H. unfold isWord.
  destruct (N.leb_spec 97 c), (N.leb_spec c 122); lia.
Qed.

Lemma toUpperCase_underscore c : toUpperCase c = 95%N -> c = 95%N.
Proof.
  unfold toUpperCase.
  destruct (N.leb_spec 97 c), (N.leb_spec c 122); simpl; lia.
Qed.

Lemma length_capitalize b s : length (capitalize b s) = length s.
Proof. revert b. induction s as [|c s IH]; intros b; simpl; by rewrite ?IH. Qed.

Lemma capitalize_underscore b s : 95%N ∈ capitalize b s -> 95%N ∈ s.
Proof.
  revert b. induction s as [|c s IH]; intros b; simpl; [done|].
  intros [H | H]%elem_of_cons.
  - destruct (isWord c && negb b); [|rewrite <- H; by left].
    symmetry in H. apply toUpperCase_underscore in H as ->. by left.
  - right. by eapply IH.
Qed.

Lemma capitalize_idemp b s : capitalize b (capitalize b s) = capitalize b s.
Proof.
  revert b. induction s as [|c s IH]; intros b; simpl; [done|].
  destruct (isWord c && negb b) eqn:E.
  - rewrite isWord_toUpperCase, E, toUpperCase_idemp, IH. done.
  - by rewrite E, IH.
Qed.

Lemma capitalize_lower b s i c :
  capitalize b s !! i = Some c -> (97 <= c <= 122)%N ->
  match i with
  | 0 => b = true
  | S i' => exists d, capitalize b s !! i' = Some d /\ isWord d = true
  end.
Proof.
  revert b i. induction s as [|c0 s IH]; intros b i; simpl; [done|].
  destruct i as [|i']; simpl.
  - intros [= <-] Hc. destruct (isWord c0) eqn:Ew; simpl in *.
    + destruct b; [done|]. simpl in Hc. by apply toUpperCase_not_lower in Hc.
    + by rewrite (lower_isWord c0 Hc) in Ew.
  - intros Hi Hc. specialize (IH _ _ Hi Hc). destruct i' as [|i''].
    + eexists. split; [done|].
      destruct (isWord c0 && negb b); [by rewrite isWord_toUpperCase | done].
    + done.
Qed.

Lemma capitalize_lookup b s i c :
  capitalize b s !! i = Some c ->
  exists c0, s !! i = Some c0 /\ (c = c0 \/ c = toUpperCase c0).
Proof.
  revert b i. induction s as [|c1 s IH]; intros b i; simpl; [done|].
  destruct i as [|i']; simpl; [|apply IH].
  intros [= <-]. exists c1. split; [done|].
  destruct (isWord c1 && negb b); auto.
Qed.

Lemma replaceUnderscores_clean s : 95%N ∉ replaceUnderscores s.
Proof.
  unfold replaceUnderscores. intros Hin%list_elem_of_In.
  apply in_map_iff in Hin as (c & Hc & _).
  destruct (N.eqb_spec c 95); [done | by symmetry in Hc].
Qed.

Lemma replaceUnderscores_id s : 95%N ∉ s -> replaceUnderscores s = s.
Proof.
  induction s as [|c s IH]; [done|]. intros [Hc Hs]%not_elem_of_cons.
  simpl. rewrite IH by done. destruct (N.eqb_spec c 95); [done | done].
Qed.

End SnakeToTitleFacts.

(** X16.  [snakeToTitle] keeps the length of the text and leaves no
    underscore in it.  No word of the result starts with a small letter: a
    small letter in the result always follows a word character.  A code unit
    is changed only by turning an underscore into a space or a letter into
    its capital. *)
Theorem snakeToTitle_shape (str : list N) :
  length (SnakeToTitle.snakeToTitle str) = length str
  /\ (95%N ∉ SnakeToTitle.snakeToTitle str)
  /\ (forall i c, SnakeToTitle.snakeToTitle str !! i = Some c ->
        (97 <= c <= 122)%N ->
        exists i' d, i = S i' /\ SnakeToTitle.snakeToTitle str !! i' = Some d
                     /\ SnakeToTitle.isWord d = true)
  /\ (forall i c, SnakeToTitle.snakeToTitle str !! i = Some c ->
        exists c0, str !! i = Some c0
                   /\ (c = c0 \/ (c0 = 95 /\ c = 32)%N
                       \/ c = SnakeToTitle.toUpperCase c0)).
Proof.
  unfold SnakeToTitle.snakeToTitle. split; [|split; [|split]].
  - rewrite length_capitalize. unfold SnakeToTitle.replaceUnderscores.
    apply length_map.
  - intros H%capitalize_underscore. by apply replaceUnderscores_clean in H.
  - intros i c Hi Hc. pose proof (capitalize_lower _ _ _ _ Hi Hc) as H.
    destruct i as [|i']; [done|]. destruct H as (d & Hd & Hw). by exists i', d.
  - intros i c (c1 & Hc1 & Hc)%capitalize_lookup.
    unfold SnakeToTitle.replaceUnderscores in Hc1.
    change (map ?f ?l) with (f <$> l) in Hc1.
    rewrite list_lookup_fmap in Hc1.
    destruct (str !! i) as [c0|]; [|done]. injection Hc1 as <-.
    exists c0. split; [done|].
    destruct (N.eqb_spec c0 95) as [E | Hne].
    + right. left. split; [done|]. by destruct Hc as [-> | ->].
    + destruct Hc as [-> | ->]; auto.
Qed.

(** X17.  [snakeToTitle] is idempotent: a title is left as it is. *)
Theorem snakeToTitle_idempotent (str : list N) :
  SnakeToTitle.snakeToTitle (SnakeToTitle.snakeToTitle str)
  = SnakeToTitle.snakeToTitle str.
Proof.
  unfold SnakeToTitle.snakeToTitle at 1 2.
  rewrite replaceUnderscores_id.
  - apply capitalize_idemp.
  - intros H%capitalize_underscore. by apply replaceUnderscores_clean in H.
Qed.

(** * The series helpers of utils.ts *)
Section UtilsFacts.

Lemma get_set {V} (o : list (string * V)) k v k' :
  Obj.get (Obj.set o k v) k'
  = if String.eqb k k' then Some v else Obj.get o k'.
Proof.
  induction o as [|[k0 v0] o IH]; simpl.
  - by destruct (String.eqb k k').
  - destruct (String.eqb_spec k0 k) as [-> | Hne]; simpl.
    + by destruct (String.eqb k k').
    + rewrite IH. destruct (String.eqb_spec k0 k') as [-> | Hne'];
        [|done]. destruct (String.eqb_spec k k'); congruence.
Qed.

Lemma set_keys {V} (o : list (string * V)) k v :
  (Obj.set o k v).*1 = if decide (k ∈ o.*1) then o.*1 else o.*1 ++ [k].
Proof.
  induction o as [|[k0 v0] o IH]; csimpl; [done|].
  destruct (String.eqb_spec k0 k) as [-> | Hne]; csimpl.
  - rewrite decide_True; [done|]. by left.
  - rewrite IH. destruct (decide (k ∈ o.*1)) as [Hin | Hn].
    + rewrite decide_True; [done|]. by right.
    + rewrite decide_False; [done|]. intros [-> | ?]%elem_of_cons; done.
Qed.

Lemma getValuesMapById_snoc series ids x :
  Utils.getValuesMapById series (Some (ids ++ [x]))
  = Utils.assign (Utils.getValuesMapById series (Some ids)) x
                 (Utils.getValueById series x).
Proof. unfold Utils.getValuesMapById. by rewrite foldl_app. Qed.

End UtilsFacts.

(** X18.  [getValueById] answers with the values of the first series that
    carries the id, so a later series with the same id is never seen; it
    answers [undefined] exactly when no series carries the id; and when the
    ids of the series are distinct, every series is found under its id. *)
Theorem getValueById_first_match (series : list Utils.Series) (key : string) :
  (Utils.getValueById series key = None
   <-> forall s, s ∈ series -> Utils.id s <> key)
  /\ (forall vs, Utils.getValueById series key = Some vs ->
        exists i s, series !! i = Some s /\ Utils.id s = key
                    /\ Utils.values s = vs
                    /\ forall j s', j < i -> series !! j = Some s' ->
                                    Utils.id s' <> key)
  /\ (NoDup (Utils.id <$> series) ->
      forall s, s ∈ series -> Utils.id s = key ->
                Utils.getValueById series key = Some (Utils.values s)).
Proof.
  unfold Utils.getValueById. induction series as [|s0 series (IH1 & IH2 & IH3)].
  - split; [|split]; [| done |].
    + split; [|done]. intros _ s Hs. by apply elem_of_nil in Hs.
    + intros _ s Hs. by apply elem_of_nil in Hs.
  - simpl. destruct (String.eqb_spec (Utils.id s0) key) as [E | Hne]; simpl.
    + split; [|split].
      * split; [done|]. intros H. exfalso. apply (H s0); [by left | done].
      * intros vs [= <-]. exists 0, s0. repeat split; try done. lia.
      * intros Hnd s Hs Hk. apply NoDup_cons in Hnd as [Hnot _].
        apply elem_of_cons in Hs as [-> | Hs]; [done|].
        exfalso. apply Hnot. apply list_elem_of_fmap. exists s.
        split; [congruence | done].
    + split; [|split].
      * rewrite IH1. split.
        -- intros H s [-> | Hs]%elem_of_cons; [done | by apply H].
        -- intros H s Hs. apply H. by right.
      * intros vs (i & s & Hi & Hk & Hv & Hbefore)%IH2.
        exists (S i), s. repeat split; try done.
        intros [|j] s' Hj; simpl; [by intros [= <-] | apply Hbefore; lia].
      * intros Hnd s Hs Hk. apply NoDup_cons in Hnd as [_ Hnd].
        apply elem_of_cons in Hs as [-> | Hs]; [done | by apply IH3].
Qed.

(** X19.  The map of [getValuesMapById] holds, under every requested id
    other than [__proto__], what [getValueById] gives for it (an id without a
    series is present with the value [undefined]), and nothing under any
    other name.  The id [__proto__] never becomes a property: the values
    found for it replace the prototype of the map instead.  Without a list of
    ids the map is empty. *)
Theorem getValuesMapById_lookup (series : list Utils.Series)
  (ids : list string) (key : string) :
  (key <> "__proto__" ->
   Obj.get (Utils.own (Utils.getValuesMapById series (Some ids))) key
   = if decide (key ∈ ids) then Some (Utils.getValueById series key) else None)
  /\ Obj.get (Utils.own (Utils.getValuesMapById series (Some ids))) "__proto__"
     = None
  /\ Utils.proto (Utils.getValuesMapById series (Some ids))
     = (if decide ("__proto__" ∈ ids)
        then Utils.getValueById series "__proto__" else None)
  /\ NoDup (Utils.own (Utils.getValuesMapById series (Some ids))).*1
  /\ Utils.getValuesMapById series None = Utils.getValuesMapById series (Some []).
Proof.
  induction ids as [|x ids (IH1 & IH2 & IH3 & IH4 & _)] using rev_ind.
  - split; [done|]. split; [done|]. split; [done|].
    split; [apply NoDup_nil_2 | done].
  - rewrite getValuesMapById_snoc. unfold Utils.assign.
    set (m := Utils.getValuesMapById series (Some ids)) in *.
    destruct (String.eqb_spec x "__proto__") as [-> | Hx].
    + assert (Hown : Utils.own
                (match Utils.getValueById series "__proto__" with
                 | Some arr => {| Utils.own := Utils.own m;
                                  Utils.proto := Some arr |}
                 | None => m
                 end) = Utils.own m)
        by (by destruct (Utils.getValueById series "__proto__")).
      rewrite Hown. split; [|split; [done|split; [|done]]].
      * intros Hk. rewrite IH1 by done.
        destruct (decide (key ∈ ids)) as [Hin | Hn].
        -- rewrite decide_True; [done|]. apply elem_of_app. by left.
        -- rewrite decide_False; [done|].
           intros [? | ->%list_elem_of_singleton]%elem_of_app; done.
      * rewrite decide_True by (apply elem_of_app; right; by left).
        destruct (Utils.getValueById series "__proto__") eqn:E; [done|].
        rewrite IH3. by destruct (decide ("__proto__" ∈ ids)).
    + simpl. split; [|split; [|split; [|split; [|done]]]].
      * intros Hk. rewrite get_set, IH1 by done.
        destruct (String.eqb_spec x key) as [-> | Hne].
        -- rewrite decide_True; [done|]. apply elem_of_app. right. by left.
        -- destruct (decide (key ∈ ids)) as [Hin | Hn].
           ++ rewrite decide_True; [done|]. apply elem_of_app. by left.
           ++ rewrite decide_False; [done|].
              intros [? | ->%list_elem_of_singleton]%elem_of_app; done.
      * rewrite get_set, IH2. by destruct (String.eqb_spec x "__proto__").
      * rewrite IH3. destruct (decide ("__proto__" ∈ ids)) as [Hin | Hn].
        -- rewrite decide_True; [done|]. apply elem_of_app. by left.
        -- rewrite decide_False; [done|].
           intros [? | <-%list_elem_of_singleton]%elem_of_app; done.
      * rewrite set_keys. destruct (decide (x ∈ (Utils.own m).*1)); [done|].
        apply NoDup_app. split; [done|]. split; [|apply NoDup_singleton].
        intros y Hy Hy'. apply list_elem_of_singleton in Hy' as ->. done.
Qed.

(** * [convertToRecordsArray] *)
Section ConvertFacts.

Lemma get_elem_of {V} (o : list (string * V)) k v :
  NoDup o.*1 -> (k, v) ∈ o -> Obj.get o k = Some v.
Proof.
  induction o as [|[k0 v0] o IH]; intros Hnd Hin; [by apply elem_of_nil in Hin|].
  simpl. apply NoDup_cons in Hnd as [Hk0 Hnd].
  apply elem_of_cons in Hin as [[= <- <-] | Hin].
  - by rewrite String.eqb_refl.
  - destruct (String.eqb_spec k0 k) as [-> | Hne]; [|by apply IH].
    exfalso. apply Hk0. apply list_elem_of_fmap. by exists (k, v).
Qed.

Lemma keys_Permutation {V} (o : list (string * V)) : Obj.keys o ≡ₚ o.*1.
Proof.
  unfold Obj.keys. change (map fst (Obj.entries o)) with (Obj.entries o).*1.
  by rewrite entries_Permutation.
Qed.

Lemma Math_max_spec (l : list nat) :
  (forall x, x ∈ l -> x <= Utils.Math_max l)
  /\ (l <> [] -> Utils.Math_max l ∈ l).
Proof.
  induction l as [|a l [IH1 IH2]]; simpl.
  - split; [|done]. intros x Hx. by apply elem_of_nil in Hx.
  - split.
    + intros x [-> | Hx]%elem_of_cons; [lia|]. specialize (IH1 x Hx). lia.
    + intros _. destruct l as [|b l].
      * simpl. rewrite Nat.max_0_r. by left.
      * destruct (Nat.max_spec a (Utils.Math_max (b :: l))) as [[_ E] | [_ E]];
          rewrite E; [right; by apply IH2 | by left].
Qed.

(** The record the [reduce] builds from distinct keys. *)
Lemma foldl_put (f : string -> Utils.Any) (keys : list string) :
  NoDup keys ->
  (Utils.fields
     (foldl (fun record key => Utils.put record key (f key))
            {| Utils.fields := []; Utils.nullProto := false |} keys)).*1
  = filter (fun k => k <> "__proto__") keys
  /\ (forall k, k <> "__proto__" ->
        Obj.get (Utils.fields
                   (foldl (fun record key => Utils.put record key (f key))
                      {| Utils.fields := []; Utils.nullProto := false |} keys)) k
        = if decide (k ∈ keys) then Some (f k) else None)
  /\ Obj.get (Utils.fields
                (foldl (fun record key => Utils.put record key (f key))
                   {| Utils.fields := []; Utils.nullProto := false |} keys))
             "__proto__" = None
  /\ Utils.nullProto
       (foldl (fun record key => Utils.put record key (f key))
          {| Utils.fields := []; Utils.nullProto := false |} keys)
     = if decide ("__proto__" ∈ keys)
       then match f "__proto__" with Utils.Null => true | _ => false end
       else false.
Proof.
  induction keys as [|x keys IH] using rev_ind; intros Hnd.
  { split; [done|]. split; [done|]. by split. }
  apply NoDup_app in Hnd as (Hnd & Hx & _).
  assert (Hxk : x ∉ keys) by (intros H; apply (Hx x H); by left).
  destruct (IH Hnd) as (IH1 & IH2 & IH3 & IH4). clear IH.
  rewrite foldl_app. simpl.
  set (r := foldl _ _ keys) in *.
  assert (Hmem : forall k, k <> x -> (k ∈ keys ++ [x] <-> k ∈ keys)).
  { intros k Hk. rewrite elem_of_app, list_elem_of_singleton. tauto. }
  unfold Utils.put. destruct (String.eqb_spec x "__proto__") as [-> | Hne].
  - rewrite decide_False in IH4 by done. rewrite IH4. simpl.
    assert (Hf : Utils.fields
                   (match f "__proto__" with
                    | Utils.Null => {| Utils.fields := Utils.fields r;
                                       Utils.nullProto := true |}
                    | _ => r
                    end) = Utils.fields r)
      by (by destruct (f "__proto__")).
    rewrite Hf. split; [|split; [|split; [done|]]].
    + rewrite filter_app, filter_cons_False, filter_nil, app_nil_r by tauto.
      done.
    + intros k Hk. rewrite IH2 by done.
      destruct (decide (k ∈ keys)), (decide (k ∈ keys ++ ["__proto__"]));
        try done; exfalso; rewrite Hmem in *; done.
    + rewrite decide_True by (apply elem_of_app; right; by left).
      by destruct (f "__proto__").
  - simpl. split; [|split; [|split]].
    + rewrite set_keys, IH1, filter_app, filter_cons_True, filter_nil by done.
      rewrite decide_False; [done|].
      intros [_ H]%list_elem_of_filter. done.
    + intros k Hk. rewrite get_set, IH2 by done.
      destruct (String.eqb_spec x k) as [-> | Hxk'].
      * rewrite decide_True; [done|]. apply elem_of_app. right. by left.
      * destruct (decide (k ∈ keys)), (decide (k ∈ keys ++ [x]));
          try done; exfalso; rewrite Hmem in *; done.
    + rewrite get_set, IH3. by destruct (String.eqb_spec x "__proto__").
    + rewrite IH4.
      destruct (decide ("__proto__" ∈ keys)),
        (decide ("__proto__" ∈ keys ++ [x]));
        try done; exfalso; rewrite Hmem in *; done.
Qed.

(** Every row of the result, and how many there are. *)
Lemma convert_rows (dataMap : Utils.DataMap) :
  NoDup dataMap.*1 ->
  (forall key col, (key, col) ∈ dataMap ->
     Utils.columnLength col <= length (Utils.convertToRecordsArray dataMap))
  /\ (dataMap <> [] ->
      exists key col, (key, col) ∈ dataMap
        /\ Utils.columnLength col = length (Utils.convertToRecordsArray dataMap))
  /\ forall index r,
       Utils.convertToRecordsArray dataMap !! index = Some r ->
       (Utils.fields r).*1
       = filter (fun k => k <> "__proto__") (Obj.keys dataMap)
       /\ (forall key col, (key, col) ∈ dataMap -> key <> "__proto__" ->
             Obj.get (Utils.fields r) key = Some (Utils.cell col index))
       /\ (forall key, key ∉ dataMap.*1 -> Obj.get (Utils.fields r) key = None)
       /\ Obj.get (Utils.fields r) "__proto__" = None
       /\ (forall col, ("__proto__", col) ∈ dataMap ->
             Utils.nullProto r
             = match Utils.cell col index with Utils.Null => true | _ => false end)
       /\ ("__proto__" ∉ dataMap.*1 -> Utils.nullProto r = false).
Proof.
  intros Hnd.
  pose proof (keys_Permutation dataMap) as Hperm.
  assert (Hkeys : NoDup (Obj.keys dataMap)) by (by rewrite Hperm).
  assert (Hin : forall key, key ∈ Obj.keys dataMap <-> key ∈ dataMap.*1)
    by (intros key; by rewrite Hperm).
  assert (Hcol : forall key col, (key, col) ∈ dataMap ->
                   Utils.column dataMap key = col).
  { intros key col H. unfold Utils.column. by rewrite (get_elem_of _ _ _ Hnd H). }
  assert (Hmem : forall key col, (key, col) ∈ dataMap -> key ∈ Obj.keys dataMap).
  { intros key col H. apply Hin, list_elem_of_fmap. by exists (key, col). }
  unfold Utils.convertToRecordsArray.
  destruct (Nat.eqb_spec (length (Obj.keys dataMap)) 0) as [Hz | Hnz].
  { apply nil_length_inv in Hz. rewrite Hz in Hperm.
    apply Permutation_nil_l in Hperm. symmetry in Hperm.
    apply fmap_nil_inv in Hperm as ->.
    split; [|split]; [| done | done].
    intros key col H. by apply elem_of_nil in H. }
  rewrite length_map, length_seq.
  set (lengths := map (fun key => Utils.columnLength (Utils.column dataMap key))
                      (Obj.keys dataMap)).
  destruct (Math_max_spec lengths) as [Hle Hmax].
  split; [|split].
  - intros key col H. apply Hle. unfold lengths. apply list_elem_of_In, in_map_iff.
    exists key. split; [by rewrite (Hcol _ _ H)|].
    apply list_elem_of_In. by eapply Hmem.
  - intros _.
    assert (Hne : lengths <> []).
    { unfold lengths. intros H%map_eq_nil. by rewrite H in Hnz. }
    specialize (Hmax Hne). apply list_elem_of_In, in_map_iff in Hmax.
    destruct Hmax as (key & Hk & Hkin%list_elem_of_In).
    apply Hin, list_elem_of_fmap in Hkin as ([key' col] & -> & Hkc).
    exists key', col. split; [done|]. simpl in Hk.
    by rewrite (Hcol _ _ Hkc) in Hk.
  - intros index r Hr.
    change (map ?g ?l) with (g <$> l) in Hr.
    rewrite list_lookup_fmap in Hr.
    destruct (seq 0 (Utils.Math_max lengths) !! index) as [i|] eqn:Ei; [|done].
    apply lookup_seq in Ei as [-> _]. simpl in Hr. injection Hr as <-.
    destruct (foldl_put (fun key => Utils.cell (Utils.column dataMap key) index)
                (Obj.keys dataMap) Hkeys) as (H1 & H2 & H3 & H4).
    split; [exact H1|]. split; [|split; [|split; [exact H3|split]]].
    + intros key col Hkc Hk. rewrite H2 by done.
      rewrite decide_True by (by eapply Hmem). by rewrite (Hcol _ _ Hkc).
    + intros key Hk. destruct (decide (key = "__proto__")) as [-> | Hp];
        [exact H3|]. rewrite H2 by done.
      rewrite decide_False; [done|]. by rewrite Hin.
    + intros col Hc. rewrite H4, decide_True by (by eapply Hmem).
      by rewrite (Hcol _ _ Hc).
    + intros Hp. rewrite H4, decide_False; [done|]. by rewrite Hin.
Qed.

End ConvertFacts.

(** X20.  [convertToRecordsArray] turns columns into rows: there are as
    many rows as the longest column has cells, and row [index] has one own
    property per key of the table, made in the order of [Object.keys], whose
    value is the cell of that column at [index], or [null] where the column
    is too short, missing, or holds [undefined] or [null].  (The key
    [__proto__] is the one exception, it makes no property.) *)
Theorem convertToRecordsArray_transposes (dataMap : Utils.DataMap) :
  NoDup dataMap.*1 ->
  (forall key col, (key, col) ∈ dataMap ->
     Utils.columnLength col <= length (Utils.convertToRecordsArray dataMap))
  /\ (dataMap <> [] ->
      exists key col, (key, col) ∈ dataMap
        /\ Utils.columnLength col = length (Utils.convertToRecordsArray dataMap))
  /\ (forall index r,
       Utils.convertToRecordsArray dataMap !! index = Some r ->
       (Utils.fields r).*1
       = filter (fun k => k <> "__proto__") (Obj.keys dataMap)
       /\ (forall key col, (key, col) ∈ dataMap -> key <> "__proto__" ->
             Obj.get (Utils.fields r) key = Some (Utils.cell col index))
       /\ (forall key, key ∉ dataMap.*1 -> Obj.get (Utils.fields r) key = None))
  /\ (dataMap = [] -> Utils.convertToRecordsArray dataMap = []).
Proof.
  intros Hnd. destruct (convert_rows dataMap Hnd) as (H1 & H2 & H3).
  split; [exact H1|]. split; [exact H2|]. split; [|by intros ->].
  intros index r Hr. destruct (H3 index r Hr) as (F1 & F2 & F3 & _).
  by repeat split.
Qed.

Lemma convertToRecordsArray_transposes_witness :
  exists r,
    Utils.convertToRecordsArray
      [("name", Some [Utils.Str "Alice"; Utils.Str "Bob"]);
       ("age", Some [Utils.Num (ofNat 25)])] !! 1 = Some r
    /\ (Utils.fields r).*1 = ["name"; "age"]
    /\ Obj.get (Utils.fields r) "age" = Some Utils.Null.
Proof.
  eexists. split; [reflexivity|].
  destruct (convertToRecordsArray_transposes
              [("name", Some [Utils.Str "Alice"; Utils.Str "Bob"]);
               ("age", Some [Utils.Num (ofNat 25)])]) as (_ & _ & H & _).
  - apply NoDup_cons. split; [by intros [=]%list_elem_of_singleton|].
    apply NoDup_singleton.
  - destruct (H 1 _ eq_refl) as (H1 & H2 & _). split; [exact H1|].
    apply (H2 "age" (Some [Utils.Num (ofNat 25)])); [|discriminate].
    right. by left.
Defined.

(** X21.  A column named [__proto__] never shows up in the rows: no row gets
    a property of that name.  Instead a row loses its prototype exactly when
    its cell of that column is [null], which includes every row beyond the
    end of the column; a table without such a column leaves every row an
    ordinary object. *)
Theorem convertToRecordsArray_proto_column (dataMap : Utils.DataMap) :
  NoDup dataMap.*1 ->
  forall index r,
    Utils.convertToRecordsArray dataMap !! index = Some r ->
    Obj.get (Utils.fields r) "__proto__" = None
    /\ (forall col, ("__proto__", col) ∈ dataMap ->
          (Utils.nullProto r = true <-> Utils.cell col index = Utils.Null))
    /\ ("__proto__" ∉ dataMap.*1 -> Utils.nullProto r = false).
Proof.
  intros Hnd index r Hr.
  destruct (convert_rows dataMap Hnd) as (_ & _ & H).
  destruct (H index r Hr) as (_ & _ & _ & F1 & F2 & F3).
  split; [exact F1|]. split; [|exact F3].
  intros col Hc. rewrite (F2 col Hc). by destruct (Utils.cell col index).
Qed.

Lemma convertToRecordsArray_proto_column_witness :
  exists r,
    Utils.convertToRecordsArray
      [("name", Some [Utils.Str "Alice"; Utils.Str "Bob"]);
       ("__proto__", Some [Utils.Str "x"])] !! 1 = Some r
    /\ Obj.get (Utils.fields r) "__proto__" = None
    /\ (Utils.nullProto r = true
        <-> Utils.cell (Some [Utils.Str "x"]) 1 = Utils.Null).
Proof.
  eexists. split; [reflexivity|].
  destruct (convertToRecordsArray_proto_column
              [("name", Some [Utils.Str "Alice"; Utils.Str "Bob"]);
               ("__proto__", Some [Utils.Str "x"])]
              ltac:(apply NoDup_cons; split;
                    [by intros [=]%list_elem_of_singleton | apply NoDup_singleton])
              1 _ eq_refl) as (H1 & H2 & _).
  split; [exact H1|]. apply H2. right. by left.
Defined.

(** X22.  A round trip: for a table whose columns all have [n] cells, none
    of them [undefined] or [null], reading one key off every row gives the
    column back. *)
Theorem convertToRecordsArray_round_trip (dataMap : Utils.DataMap) (n : nat) :
  NoDup dataMap.*1 ->
  (forall key col, (key, col) ∈ dataMap ->
     exists arr, col = Some arr /\ length arr = n
                 /\ (Utils.Undefined ∉ arr) /\ (Utils.Null ∉ arr)) ->
  length (Utils.convertToRecordsArray dataMap)
  = (if decide (dataMap = []) then 0 else n)
  /\ forall key arr, (key, Some arr) ∈ dataMap -> key <> "__proto__" ->
       (fun r => default Utils.Null (Obj.get (Utils.fields r) key))
       <$> Utils.convertToRecordsArray dataMap = arr.
Proof.
  intros Hnd Hrect. destruct (convert_rows dataMap Hnd) as (H1 & H2 & H3).
  assert (Hlen : length (Utils.convertToRecordsArray dataMap)
                 = if decide (dataMap = []) then 0 else n).
  { destruct (decide (dataMap = [])) as [-> | Hne]; [done|].
    destruct (H2 Hne) as (key & col & Hin & <-).
    destruct (Hrect key col Hin) as (arr & -> & <- & _). done. }
  split; [exact Hlen|].
  intros key arr Hin Hk.
  destruct (Hrect _ _ Hin) as (arr' & [= <-] & Harr & Hu & Hnull).
  assert (Hne : dataMap <> []) by (intros ->; by apply elem_of_nil in Hin).
  rewrite decide_False in Hlen by done.
  apply list_eq. intros i. rewrite list_lookup_fmap.
  destruct (Utils.convertToRecordsArray dataMap !! i) as [r|] eqn:Er; simpl.
  - destruct (H3 i r Er) as (_ & F2 & _). rewrite (F2 _ _ Hin Hk). simpl.
    assert (Hi : i < length arr).
    { apply lookup_lt_Some in Er. lia. }
    destruct (lookup_lt_is_Some_2 arr i Hi) as [v Hv]. rewrite Hv.
    apply list_elem_of_lookup_2 in Hv as Hv'.
    destruct v; try done; by exfalso; [apply Hu | apply Hnull].
  - symmetry. apply lookup_ge_None. apply lookup_ge_None in Er. lia.
Qed.

Lemma convertToRecordsArray_round_trip_witness :
  (fun r => default Utils.Null (Obj.get (Utils.fields r) "age"))
  <$> Utils.convertToRecordsArray
        [("name", Some [Utils.Str "Alice"; Utils.Str "Bob"]);
         ("age", Some [Utils.Num (ofNat 25); Utils.Num (ofNat 30)])]
  = [Utils.Num (ofNat 25); Utils.Num (ofNat 30)].
Proof.
  destruct (convertToRecordsArray_round_trip
              [("name", Some [Utils.Str "Alice"; Utils.Str "Bob"]);
               ("age", Some [Utils.Num (ofNat 25); Utils.Num (ofNat 30)])] 2)
    as [_ H].
  - apply NoDup_cons. split; [by intros [=]%list_elem_of_singleton|].
    apply NoDup_singleton.
  - intros key col [[= -> ->] | [= -> ->]%list_elem_of_singleton]%elem_of_cons;
      eexists; (split; [reflexivity|]); (split; [reflexivity|]);
      split; intros Hin; repeat (apply elem_of_cons in Hin as [Hin | Hin];
                                 [discriminate Hin|]);
      by apply elem_of_nil in Hin.
  - apply H; [|discriminate]. right. by left.
Defined.

(** * The dominant status is the status of a member *)
Section DominantMember.

Import JSObject.

Lemma increment_keys (o : JSObject.t) k x :
  x ∈ (increment o k).*1 -> x ∈ o.*1 \/ x = k.
Proof.
  assert (Hset : forall v, x ∈ (setOwn o k v).*1 -> x ∈ o.*1 \/ x = k).
  { intros v. rewrite setOwn_keys. destruct (decide (k ∈ o.*1)); [by left|].
    intros [? | ->%list_elem_of_singleton]%elem_of_app; [by left | by right]. }
  unfold increment. destruct (getOwn o k); [apply Hset|].
  destruct (inherited k); [|apply Hset].
  destruct (String.eqb k "__proto__"); [by left | apply Hset].
Qed.

Lemma tally_keys (group : list ProjectedPoint) x :
  x ∈ (tally group).*1 -> x ∈ statuses group.
Proof.
  unfold tally, statuses. induction group as [|p group IH] using rev_ind.
  - intros H. by apply elem_of_nil in H.
  - rewrite foldl_app, fmap_app. simpl.
    intros [H | ->]%increment_keys; apply elem_of_app;
      [left; by apply IH | right; by left].
Qed.

Lemma dominant_elem_of (first : string) (o : JSObject.t) :
  dominant first o = first \/ dominant first o ∈ o.*1.
Proof.
  unfold dominant.
  assert (H : forall ks st,
             (forall k, k ∈ ks -> k ∈ o.*1) ->
             st.1 = first \/ st.1 ∈ o.*1 ->
             (foldl (dominantStep o) st ks).1 = first
             \/ (foldl (dominantStep o) st ks).1 ∈ o.*1).
  { induction ks as [|k ks IH]; intros st Hks Hst; [done|].
    simpl. apply IH; [intros k' Hk'; apply Hks; by right|].
    unfold dominantStep. destruct (getOwn o k); [|done].
    destruct (gt v st.2); [|done]. right. apply Hks. by left. }
  apply H; [|by left].
  intros k Hk. rewrite <- entries_keys in Hk.
  change (k ∈ (Obj.entries o).*1) in Hk. by rewrite entries_Permutation in Hk.
Qed.

End DominantMember.

(** X23.  Whatever the statuses are, the dominant status of a cluster is
    the status of one of its members, in MapChart.tsx and in part_001 alike;
    so the icon part_001 draws for a cluster has the colour of one of the
    members. *)
Theorem dominantStatus_of_a_member (group : list ProjectedPoint) :
  (forall c, buildEntity group = Done (Cluster c) ->
     dominantStatus (clusterMetadata c) ∈ statuses group)
  /\ (forall c, Part001.buildEntity group = Done (Part001.Cluster c) ->
        Part001.status (Part001.clusterMetadata c) ∈ statuses group
        /\ getMarkerColor (Part001.status (Part001.clusterMetadata c))
           ∈ getMarkerColor <$> statuses group).
Proof.
  assert (H : forall p0 p1 rest,
             dominant (status (metadata (point p0))) (tally (p0 :: p1 :: rest))
             ∈ statuses (p0 :: p1 :: rest)).
  { intros p0 p1 rest.
    destruct (dominant_elem_of (status (metadata (point p0)))
                (tally (p0 :: p1 :: rest))) as [-> | Hin].
    - by left.
    - by apply tally_keys. }
  split.
  - intros c Hb. destruct group as [|p0 [|p1 group]]; [done..|].
    injection Hb as <-. apply H.
  - intros c Hb. destruct group as [|p0 [|p1 group]]; [done..|].
    injection Hb as <-.
    assert (Hin : Part001.dominant (Part001.pointStatus p0)
                    (Part001.tally (p0 :: p1 :: group))
                  ∈ statuses (p0 :: p1 :: group)) by apply H.
    split; [exact Hin|]. apply list_elem_of_fmap. by eexists.
Qed.

(** * The pass and a projector that throws *)

(** X24.  The pass has no error of its own: it throws exactly when the
    projector throws at some point, with the error of the first such point,
    and then no point after that one is projected; when the projector returns
    for every point, the pass returns its entities. *)
Theorem pass_throws_only_through_projector
  (project : Throwing.Projector) (r : number) (props : ViewportProps)
  (rawData : list RawPoint) :
  (forall error,
     Throwing.clustersWith project r props rawData = Throwing.Throw error
     <-> exists before point rest,
           rawData = before ++ point :: rest
           /\ Forall (fun q =>
                        exists xy, project props (longitude (location q),
                                                  latitude (location q))
                                   = Throwing.Return xy) before
           /\ project props (longitude (location point),
                             latitude (location point))
              = Throwing.Throw error)
  /\ (Forall (fun q =>
                exists xy, project props (longitude (location q),
                                          latitude (location q))
                           = Throwing.Return xy) rawData ->
      exists entities,
        Throwing.clustersWith project r props rawData
        = Throwing.Return (Done entities)
        /\ clustersWith (Throwing.totalize project) r props rawData
           = Done entities).
Proof.
  split.
  - intros error. rewrite <- (projectFrom_throws project props rawData 0 error).
    unfold Throwing.clustersWith, Throwing.projectedPoints.
    destruct (Throwing.projectFrom project props 0 rawData); split; congruence.
  - intros Hret.
    destruct (clustersWith_spec (Throwing.totalize project) r props rawData)
      as (root & entities & _ & Ec & _).
    exists entities. split; [|exact Ec].
    unfold Throwing.clustersWith.
    rewrite (projectedPoints_returns project props rawData Hret).
    f_equal. exact Ec.
Qed.
